(** * Scheme executors of saucer: WebKitGTK, WebKit and Qt back ends

    A shallow embedding of the custom-scheme layer of saucer:
    - [scheme.hpp]: the error kinds, [response], [stream_response];
    - [wkg.scheme.impl.cpp]: the WebKitGTK executor (a pipe per stream) and
      its dispatcher [handler::handle];
    - [wk.scheme.impl.mm]: the WebKit executor (a shared task table) and the
      [SchemeHandler] delegate;
    - [qt.scheme.cpp]: the Qt executor (a [stream_device] push buffer), the
      request object and [handler::requestStarted].

    Every executor shares one [impl] object with its copies
    ([std::shared_ptr<impl>]); the embedding keeps these objects in a store
    indexed by location, so that copies alias.  The calls an adapter makes
    on the toolkit are recorded, in program order, in a trace.  Threads are
    not modelled: every operation runs to completion before the next. *)

From Stdlib Require Import ZArith Lia Sorted.
From stdpp Require Import gmap strings list fin_maps pretty.

Open Scope Z_scope.

(** ** Value types of [scheme.hpp] *)

(** [stash]: a byte buffer, owned or a view; only its bytes matter here. *)
Abbreviation stash := (list Byte.byte).

(** [enum class error : std::int16_t]. *)
Inductive error : Type :=
| not_found
| invalid
| denied
| failed.

(** [std::to_underlying] on [error]. *)
Definition to_underlying (e : error) : Z :=
  match e with
  | not_found => 404
  | invalid => 400
  | denied => 401
  | failed => -1
  end.

(** [rebind::utils::find_enum_name]: the enumerator's identifier. *)
Definition find_enum_name (e : error) : option string :=
  match e with
  | not_found => Some "not_found"%string
  | invalid => Some "invalid"%string
  | denied => Some "denied"%string
  | failed => Some "failed"%string
  end.

(** [struct response]. *)
Record response : Type := Response {
  data : stash;
  mime : string;
  headers : gmap string string;
  status : Z
}.

(** [struct stream_response]: the same without a body. *)
Record stream_response : Type := StreamResponse {
  stream_mime : string;
  stream_headers : gmap string string;
  stream_status : Z
}.

(** A [std::string] handed over as [c_str()] to a [const char *]
    parameter: the callee reads the bytes before the first NUL. *)
Fixpoint c_str (s : string) : string :=
  match s with
  | EmptyString => EmptyString
  | String c s' =>
      if (Ascii.N_of_ascii c =? 0)%N then EmptyString else String c (c_str s')
  end.

(** Iterating a [std::map<std::string, std::string>] visits its entries in
    the order of their keys; [std::less<std::string>] compares the bytes,
    as [String.leb] does. *)
Fixpoint insert_entry (kv : string * string) (l : list (string * string))
    : list (string * string) :=
  match l with
  | [] => [kv]
  | kv' :: l' =>
      if String.leb kv.1 kv'.1 then kv :: l else kv' :: insert_entry kv l'
  end.

Definition entries (m : gmap string string) : list (string * string) :=
  foldr insert_entry [] (map_to_list m).

(** Locations of shared objects. *)
Abbreviation loc := nat.

(** [std::atomic<bool>::exchange]: the old value, and the cell holding the
    new one. *)
Definition exchange (cell new : bool) : bool * bool := (cell, new).

(** ** WebKitGTK back end ([wkg.scheme.impl.cpp]) *)

Module Wkg.

(** The stream a [WebKitURISchemeResponse] reads its body from. *)
Inductive input_stream : Type :=
| unix_input_stream (fd : Z)
| memory_input_stream (bytes : stash).

(** A [WebKitURISchemeResponse] as the adapter fills it in: stream and
    length ([webkit_uri_scheme_response_new]), content type, status, and
    the name and value of each [soup_message_headers_append] call, in the
    order of the calls. *)
Record uri_scheme_response : Type := UriSchemeResponse {
  body_stream : input_stream;
  stream_length : Z;
  content_type : string;
  http_status : Z;
  http_headers : list (string * string)
}.

(** [response.status], an [int], passed for the [guint status_code] of
    [webkit_uri_scheme_response_set_status]: the conversion is modulo
    2^32. *)
Definition to_guint (status : Z) : Z := status mod 2 ^ 32.

(** The loop [for (const auto &[name, value] : response.headers)] with its
    [soup_message_headers_append(headers, name.c_str(), value.c_str())]. *)
Definition soup_headers (m : gmap string string) : list (string * string) :=
  (fun kv => (c_str kv.1, c_str kv.2)) <$> entries m.

(** What [::write] returned: a byte count, or -1 with [errno]. *)
Inductive sys_result : Type :=
| sys_written (n : nat)
| sys_failed (errno : Z).

Definition EINTR : Z := 4.

(** Calls that reach WebKit or the write end of the pipe. *)
Inductive event : Type :=
| finish_with_response (request : nat) (res : uri_scheme_response)
| finish_error (request : nat) (code : Z) (message : string)
| sys_write (fd : Z) (buf : stash) (res : sys_result)
| sys_close (fd : Z).

(** The captures of the two lambdas stored in an [impl]:
    [[request, weak_impl]]. *)
Record closure : Type := Closure {
  cap_request : nat;
  cap_weak : loc
}.

(** Modelled from the spec: [executor::impl] is declared in
    [wkg.scheme.impl.hpp], which is not among the sources.  Its members are
    the ones the functions below use; a fresh object has both flags clear
    (the Idle state) and no descriptor, [-1] being the value [reject] and
    [finish] restore after [close]. *)
Record impl : Type := Impl {
  request : nat;
  resolve_fn : option closure;
  reject_fn : option closure;
  started : bool;
  finished : bool;
  write_fd : Z
}.

Definition set_started (b : bool) (i : impl) : impl :=
  Impl (request i) (resolve_fn i) (reject_fn i) b (finished i) (write_fd i).

Definition set_finished (b : bool) (i : impl) : impl :=
  Impl (request i) (resolve_fn i) (reject_fn i) (started i) b (write_fd i).

Definition set_write_fd (fd : Z) (i : impl) : impl :=
  Impl (request i) (resolve_fn i) (reject_fn i) (started i) (finished i) fd.

Record world : Type := World {
  heap : gmap loc impl;
  trace : list event
}.

Definition upd (l : loc) (f : impl -> impl) (w : world) : world :=
  World (alter f l (heap w)) (trace w).

Definition emit (e : event) (w : world) : world :=
  World (heap w) (trace w ++ [e]).

(** [class executor]: a possibly null shared pointer. *)
Record executor : Type := Executor {
  m_impl : option loc
}.

(** The body of [exec_impl->resolve] (lines 161-194). *)
Definition resolve_lambda (c : closure) (response : response) (w : world) : world :=
  match heap w !! cap_weak c with
  | None => w
  | Some impl =>
      if started impl then w
      else
        let '(was, now) := exchange (finished impl) true in
        let w := upd (cap_weak c) (set_finished now) w in
        if was then w
        else
          let size := Z.of_nat (length (data response)) in
          emit (finish_with_response (cap_request c)
                  (UriSchemeResponse (memory_input_stream (data response)) size
                     (c_str (mime response)) (to_guint (status response))
                     (soup_headers (headers response)))) w
  end.

(** The body of [exec_impl->reject] (lines 196-217). *)
Definition reject_lambda (c : closure) (error : error) (w : world) : world :=
  match heap w !! cap_weak c with
  | None => w
  | Some impl =>
      let '(was, now) := exchange (finished impl) true in
      let w := upd (cap_weak c) (set_finished now) w in
      if was then w
      else
        let value := to_underlying error in
        let name := default "unknown"%string (find_enum_name error) in
        emit (finish_error (cap_request c) value name) w
  end.

(** [executor::resolve]. *)
Definition resolve (e : executor) (response : response) (w : world) : world :=
  match m_impl e with
  | None => w
  | Some l =>
      match heap w !! l with
      | None => w
      | Some i =>
          match resolve_fn i with
          | None => w
          | Some c => resolve_lambda c response w
          end
      end
  end.

(** [executor::reject]. *)
Definition reject (e : executor) (err : error) (w : world) : world :=
  match m_impl e with
  | None => w
  | Some l =>
      match heap w !! l with
      | None => w
      | Some i =>
          if started i then
            let w :=
              if 0 <=? write_fd i
              then upd l (set_write_fd (-1)) (emit (sys_close (write_fd i)) w)
              else w in
            upd l (set_finished true) w
          else
            match reject_fn i with
            | None => w
            | Some c => reject_lambda c err w
            end
      end
  end.

(** [executor::start].  [pipe_result] is what [pipe(fds)] produced: [None]
    for -1, otherwise the read and the write descriptor. *)
Definition start (e : executor) (response : stream_response)
    (pipe_result : option (Z * Z)) (w : world) : world :=
  match m_impl e with
  | None => w
  | Some l =>
      match heap w !! l with
      | None => w
      | Some i =>
          let '(was, now) := exchange (started i) true in
          let w := upd l (set_started now) w in
          if was || finished i then w
          else
            match pipe_result with
            | None => upd l (set_started false) w
            | Some (rfd, wfd) =>
                let w := upd l (set_write_fd wfd) w in
                emit (finish_with_response (request i)
                        (UriSchemeResponse (unix_input_stream rfd) (-1)
                           (c_str (stream_mime response))
                           (to_guint (stream_status response))
                           (soup_headers (stream_headers response)))) w
            end
      end
  end.

(** How the [while (remaining > 0)] loop of [executor::write] ended:
    [remaining] reached 0, a [break], the listed results of [::write] ran
    out with bytes still to send, or a [::write] reported more bytes than
    it was offered. *)
Inductive loop_exit : Type :=
| loop_done
| loop_break
| loop_pending
| loop_overrun.

(** The loop of [executor::write] (lines 97-112).  [buf] is the part of the
    data from [ptr] on, so [remaining] is its length; [sys] lists what the
    successive [::write] calls return.  For a result of at most [remaining]
    bytes, [ptr += written; remaining -= written] leaves the rest of the
    data, [drop n buf].  A larger result, which [::write] is specified
    never to give, would move [ptr] past the data and wrap the unsigned
    [remaining]; what the loop reads from then on is not the chunk, and
    the model ends there: [loop_overrun]. *)
Fixpoint write_loop (fd : Z) (sys : list sys_result) (buf : stash)
    : list event * loop_exit :=
  match buf with
  | [] => ([], loop_done)
  | _ :: _ =>
      match sys with
      | [] => ([], loop_pending)
      | r :: sys' =>
          match r with
          | sys_failed errno =>
              if errno =? EINTR
              then let '(evs, x) := write_loop fd sys' buf in
                   (sys_write fd buf r :: evs, x)
              else ([sys_write fd buf r], loop_break)
          | sys_written n =>
              if (n <=? length buf)%nat
              then let '(evs, x) := write_loop fd sys' (drop n buf) in
                   (sys_write fd buf r :: evs, x)
              else ([sys_write fd buf r], loop_overrun)
          end
      end
  end.

(** [executor::write].  When the listed results run out the call is still
    in its loop; the trace then holds the [::write] calls made so far. *)
Definition write (e : executor) (data : stash) (sys : list sys_result)
    (w : world) : world :=
  match m_impl e with
  | None => w
  | Some l =>
      match heap w !! l with
      | None => w
      | Some i =>
          if negb (started i) || finished i || (write_fd i <? 0) then w
          else World (heap w) (trace w ++ (write_loop (write_fd i) sys data).1)
      end
  end.

(** [executor::finish]. *)
Definition finish (e : executor) (w : world) : world :=
  match m_impl e with
  | None => w
  | Some l =>
      match heap w !! l with
      | None => w
      | Some i =>
          if negb (started i) then w
          else
            let '(was, now) := exchange (finished i) true in
            let w := upd l (set_finished now) w in
            if was then w
            else if 0 <=? write_fd i
                 then upd l (set_write_fd (-1)) (emit (sys_close (write_fd i)) w)
                 else w
      end
  end.

(** [executor::streaming]. *)
Definition streaming (e : executor) (w : world) : bool :=
  match m_impl e with
  | None => false
  | Some l =>
      match heap w !! l with
      | None => false
      | Some i => negb (finished i)
      end
  end.

(** A [WebKitURISchemeRequest]: its identity and the web view it belongs to
    ([webkit_uri_scheme_request_get_web_view]). *)
Record uri_scheme_request : Type := UriSchemeRequest {
  request_id : nat;
  web_view : nat
}.

(** [scheme::request{{request}}]: the wrapped native request. *)
Record request_object : Type := RequestObject {
  native_request : nat
}.

Definition resolver : Type := request_object -> executor -> world -> world.

(** [class handler]: the callbacks per web view. *)
Record handler : Type := Handler {
  m_callbacks : gmap nat resolver
}.

(** [handler::add_callback]: [emplace] keeps an entry that is present. *)
Definition add_callback (id : nat) (callback : resolver) (h : handler) : handler :=
  match m_callbacks h !! id with
  | Some _ => h
  | None => Handler (<[id := callback]> (m_callbacks h))
  end.

(** [handler::del_callback]. *)
Definition del_callback (id : nat) (h : handler) : handler :=
  Handler (delete id (m_callbacks h)).

(** The object [std::make_shared<executor::impl>()] yields once
    [handler::handle] has set its request and its two lambdas. *)
Definition new_impl (raw : uri_scheme_request) (l : loc) : impl :=
  Impl (request_id raw)
       (Some (Closure (request_id raw) l))
       (Some (Closure (request_id raw) l))
       false false (-1).

(** [handler::handle]. *)
Definition handle (raw : uri_scheme_request) (state : handler) (w : world) : world :=
  match m_callbacks state !! web_view raw with
  | None => w
  | Some callback =>
      let l := fresh (dom (heap w)) in
      let exec := Executor (Some l) in
      let req := RequestObject (request_id raw) in
      callback req exec (World (<[l := new_impl raw l]> (heap w)) (trace w))
  end.

(** The calls a producer can make on an executor, each with what the
    operating system answers during the call. *)
Inductive call : Type :=
| call_resolve (r : response)
| call_reject (err : error)
| call_start (r : stream_response) (pipe_result : option (Z * Z))
| call_write (data : stash) (sys : list sys_result)
| call_finish.

Definition step (e : executor) (c : call) (w : world) : world :=
  match c with
  | call_resolve r => resolve e r w
  | call_reject err => reject e err w
  | call_start r p => start e r p w
  | call_write d sys => write e d sys w
  | call_finish => finish e w
  end.

Definition run (e : executor) (cs : list call) (w : world) : world :=
  foldl (fun w c => step e c w) w cs.

(** The bytes a trace put into the pipe behind descriptor [fd]. *)
Fixpoint pipe_bytes (fd : Z) (t : list event) : stash :=
  match t with
  | [] => []
  | sys_write fd' buf (sys_written n) :: t' =>
      if fd' =? fd then take n buf ++ pipe_bytes fd t' else pipe_bytes fd t'
  | _ :: t' => pipe_bytes fd t'
  end.

Definition is_delivery (e : event) : bool :=
  match e with
  | finish_with_response _ _ | finish_error _ _ _ => true
  | _ => false
  end.

(** How many of the calls in a trace complete the request towards WebKit. *)
Definition deliveries (t : list event) : nat :=
  length (filter (fun e => is_delivery e = true) t).


(** *** The effect of a call on the object it reaches

    An executor made by [handle] points to an object whose lambdas point
    back to it; a call then changes that object alone.  [istep] gives the
    object after the call and the calls made; [wkg_step_focus] below shows
    that [step] does exactly this. *)

Definition bound (w : world) (l : loc) (i : impl) : Prop :=
  heap w !! l = Some i /\
  resolve_fn i = Some (Closure (request i) l) /\
  reject_fn i = Some (Closure (request i) l).

Definition istep (i : impl) (c : call) : impl * list event :=
  match c with
  | call_resolve r =>
      if started i || finished i then (i, [])
      else (set_finished true i,
            [finish_with_response (request i)
               (UriSchemeResponse (memory_input_stream (data r))
                  (Z.of_nat (length (data r))) (c_str (mime r))
                  (to_guint (status r)) (soup_headers (headers r)))])
  | call_reject err =>
      if started i then
        if 0 <=? write_fd i
        then (set_finished true (set_write_fd (-1) i), [sys_close (write_fd i)])
        else (set_finished true i, [])
      else if finished i then (i, [])
      else (set_finished true i,
            [finish_error (request i) (to_underlying err)
               (default "unknown"%string (find_enum_name err))])
  | call_start r p =>
      if started i || finished i then (set_started true i, [])
      else
        match p with
        | None => (i, [])
        | Some (rfd, wfd) =>
            (set_write_fd wfd (set_started true i),
             [finish_with_response (request i)
                (UriSchemeResponse (unix_input_stream rfd) (-1)
                   (c_str (stream_mime r)) (to_guint (stream_status r))
                   (soup_headers (stream_headers r)))])
        end
  | call_write d sys =>
      if negb (started i) || finished i || (write_fd i <? 0) then (i, [])
      else (i, (write_loop (write_fd i) sys d).1)
  | call_finish =>
      if negb (started i) || finished i then (i, [])
      else if 0 <=? write_fd i
           then (set_write_fd (-1) (set_finished true i), [sys_close (write_fd i)])
           else (set_finished true i, [])
  end.

Fixpoint irun (i : impl) (cs : list call) : impl * list event :=
  match cs with
  | [] => (i, [])
  | c :: cs' =>
      let '(i1, t1) := istep i c in
      let '(i2, t2) := irun i1 cs' in
      (i2, t1 ++ t2)
  end.

(** The states of the machine, read off the two flags. *)
Definition idle (i : impl) : Prop := started i = false /\ finished i = false.
Definition is_streaming (i : impl) : Prop := started i = true /\ finished i = false.
Definition terminal (i : impl) : Prop := finished i = true.

(** The calls of [cs] that find the object Idle and reach WebKit or the
    pipe. *)
Fixpoint idle_effects (i : impl) (cs : list call) : nat :=
  match cs with
  | [] => 0%nat
  | c :: cs' =>
      ((match (istep i c).2 with
        | [] => 0
        | _ :: _ => if started i || finished i then 0 else 1
        end) + idle_effects (istep i c).1 cs')%nat
  end.

(** A descriptor is held only while a stream is open. *)
Definition fd_inv (i : impl) : Prop :=
  0 <= write_fd i -> started i = true /\ finished i = false.

(** The bytes the results in [sys] accept in total. *)
Fixpoint accepted (sys : list sys_result) : nat :=
  match sys with
  | [] => 0%nat
  | sys_written n :: sys' => (n + accepted sys')%nat
  | sys_failed _ :: sys' => accepted sys'
  end.

(** Every result the loop consumes is one [::write] can give when it is
    offered [remaining] bytes: at most that many bytes, or an error. *)
Fixpoint within_offer (sys : list sys_result) (remaining : nat) : Prop :=
  match remaining, sys with
  | 0%nat, _ | _, [] => True
  | _, sys_written n :: sys' =>
      (n <= remaining)%nat /\ within_offer sys' (remaining - n)
  | _, sys_failed errno :: sys' =>
      if errno =? EINTR then within_offer sys' remaining else True
  end.

(** No result in [sys] is an error other than [EINTR]. *)
Definition only_interrupted (sys : list sys_result) : Prop :=
  Forall (fun r => match r with
                   | sys_written _ => True
                   | sys_failed errno => errno = EINTR
                   end) sys.

End Wkg.

(** ** WebKit back end ([wk.scheme.impl.mm]) *)

Module Wk.

(** A retained [WKURLSchemeTask]: its [hash] and the URL of its request. *)
Record task_ref : Type := TaskRef {
  task_hash : nat;
  task_url : string
}.

(** An [NSHTTPURLResponse] as [initWithURL:statusCode:HTTPVersion:headerFields:]
    receives it; [header_fields] is the dictionary the adapter filled. *)
Record http_response : Type := HttpResponse {
  response_url : string;
  status_code : Z;
  header_fields : gmap string string
}.

(** The messages an adapter sends to a task. *)
Inductive message : Type :=
| didReceiveResponse (res : http_response)
| didReceiveData (bytes : stash)
| didFinish
| didFailWithError (domain : string) (code : Z).

(** A message is sent in place, or from a block handed to
    [dispatch_async(dispatch_get_main_queue(), ...)]; the main queue is
    serial and runs its blocks in the order they were submitted. *)
Inductive delivery : Type :=
| in_place
| main_queue.

Record event : Type := Event {
  target : task_ref;
  via : delivery;
  msg : message
}.

Definition NSURLErrorDomain : string := "NSURLErrorDomain".

(** The loop over the header map with its
    [[headers setObject:[NSString stringWithUTF8String:value.c_str()]
              forKey:[NSString stringWithUTF8String:key.c_str()]]]:
    entries are set in map order, each string is read up to its first NUL
    (the strings are taken to be UTF-8 text), and an entry set later
    replaces the one set before under the same key. *)
Definition ns_headers (m : gmap string string) : gmap string string :=
  foldl (fun d kv => <[c_str kv.1 := c_str kv.2]> d) ∅ (entries m).

(** The captures of the lambdas of an [impl]: [[self, handle, weak_impl]];
    [self] is the one scheme handler whose table the world holds. *)
Record closure : Type := Closure {
  cap_handle : nat;
  cap_weak : loc
}.

(** Modelled from the spec: [executor::impl] is declared in
    [wk.scheme.impl.hpp], which is not among the sources.  Its members are
    the ones used below; [tasks] always points to the table of the scheme
    handler, kept in the world; both flags start clear. *)
Record impl : Type := Impl {
  task : task_ref;
  handle : nat;
  resolve_fn : option closure;
  reject_fn : option closure;
  started : bool;
  finished : bool
}.

Definition set_started (b : bool) (i : impl) : impl :=
  Impl (task i) (handle i) (resolve_fn i) (reject_fn i) b (finished i).

Definition set_finished (b : bool) (i : impl) : impl :=
  Impl (task i) (handle i) (resolve_fn i) (reject_fn i) (started i) b.

Record world : Type := World {
  heap : gmap loc impl;
  m_tasks : gmap nat task_ref;
  trace : list event
}.

Definition upd (l : loc) (f : impl -> impl) (w : world) : world :=
  World (alter f l (heap w)) (m_tasks w) (trace w).

Definition emit (e : event) (w : world) : world :=
  World (heap w) (m_tasks w) (trace w ++ [e]).

(** [tasks->erase(handle)]. *)
Definition erase (h : nat) (w : world) : world :=
  World (heap w) (delete h (m_tasks w)) (trace w).

Record executor : Type := Executor {
  m_impl : option loc
}.

(** The body of [exec_impl->resolve] (lines 462-512 of the same listing). *)
Definition resolve_lambda (c : closure) (response : response) (w : world) : world :=
  match heap w !! cap_weak c with
  | None => w
  | Some impl =>
      if started impl then w
      else
        let '(was, now) := exchange (finished impl) true in
        let w := upd (cap_weak c) (set_finished now) w in
        if was then w
        else
          match m_tasks w !! cap_handle c with
          | None => w
          | Some task =>
              let content := data response in
              let len := pretty (length content) in
              let fields :=
                <["Content-Length"%string := len]>
                  (<["Content-Type"%string := c_str (mime response)]>
                     (ns_headers (headers response))) in
              let res := HttpResponse (task_url task) (status response) fields in
              let w := emit (Event task in_place (didReceiveResponse res)) w in
              let w := emit (Event task in_place (didReceiveData content)) w in
              let w := emit (Event task in_place didFinish) w in
              erase (cap_handle c) w
          end
  end.

(** The body of [exec_impl->reject] (lines 514-542). *)
Definition reject_lambda (c : closure) (error : error) (w : world) : world :=
  match heap w !! cap_weak c with
  | None => w
  | Some impl =>
      let '(was, now) := exchange (finished impl) true in
      let w := upd (cap_weak c) (set_finished now) w in
      if was then w
      else
        match m_tasks w !! cap_handle c with
        | None => w
        | Some task =>
            let w := emit (Event task in_place
                             (didFailWithError NSURLErrorDomain (to_underlying error))) w in
            erase (cap_handle c) w
        end
  end.

(** [scheme::executor::resolve]. *)
Definition resolve (e : executor) (response : response) (w : world) : world :=
  match m_impl e with
  | None => w
  | Some l =>
      match heap w !! l with
      | None => w
      | Some i =>
          match resolve_fn i with
          | None => w
          | Some c => resolve_lambda c response w
          end
      end
  end.

(** The tail of [scheme::executor::reject]: [m_impl->reject(err)] when set. *)
Definition reject_tail (l : loc) (err : error) (w : world) : world :=
  match heap w !! l with
  | None => w
  | Some i =>
      match reject_fn i with
      | None => w
      | Some c => reject_lambda c err w
      end
  end.

(** [scheme::executor::reject]. *)
Definition reject (e : executor) (err : error) (w : world) : world :=
  match m_impl e with
  | None => w
  | Some l =>
      match heap w !! l with
      | None => w
      | Some i =>
          if started i then
            let '(was, now) := exchange (finished i) true in
            let w := upd l (set_finished now) w in
            if negb was then
              let task_copy := m_tasks w !! handle i in
              let w := match task_copy with
                       | Some _ => erase (handle i) w
                       | None => w
                       end in
              match task_copy with
              | Some t =>
                  emit (Event t main_queue
                          (didFailWithError NSURLErrorDomain (to_underlying err))) w
              | None => w
              end
            else reject_tail l err w
          else reject_tail l err w
      end
  end.

(** [scheme::executor::start]. *)
Definition start (e : executor) (response : stream_response) (w : world) : world :=
  match m_impl e with
  | None => w
  | Some l =>
      match heap w !! l with
      | None => w
      | Some i =>
          let '(was, now) := exchange (started i) true in
          let w := upd l (set_started now) w in
          if was || finished i then w
          else
            match m_tasks w !! handle i with
            | None => upd l (set_started false) w
            | Some task_copy =>
                let fields :=
                  <["Content-Type"%string := c_str (stream_mime response)]>
                    (ns_headers (stream_headers response)) in
                let res := HttpResponse (task_url task_copy)
                             (stream_status response) fields in
                emit (Event task_copy main_queue (didReceiveResponse res)) w
            end
      end
  end.

(** [scheme::executor::write]. *)
Definition write (e : executor) (data : stash) (w : world) : world :=
  match m_impl e with
  | None => w
  | Some l =>
      match heap w !! l with
      | None => w
      | Some i =>
          if negb (started i) || finished i then w
          else
            match m_tasks w !! handle i with
            | None => w
            | Some task_copy =>
                emit (Event task_copy main_queue (didReceiveData data)) w
            end
      end
  end.

(** [scheme::executor::finish]. *)
Definition finish (e : executor) (w : world) : world :=
  match m_impl e with
  | None => w
  | Some l =>
      match heap w !! l with
      | None => w
      | Some i =>
          if negb (started i) then w
          else
            let '(was, now) := exchange (finished i) true in
            let w := upd l (set_finished now) w in
            if was then w
            else
              match m_tasks w !! handle i with
              | None => w
              | Some task_copy =>
                  emit (Event task_copy main_queue didFinish) (erase (handle i) w)
              end
      end
  end.

(** [scheme::executor::streaming]. *)
Definition streaming (e : executor) (w : world) : bool :=
  match m_impl e with
  | None => false
  | Some l =>
      match heap w !! l with
      | None => false
      | Some i => bool_decide (is_Some (m_tasks w !! handle i)) && negb (finished i)
      end
  end.

Record request_object : Type := RequestObject {
  native_task : task_ref
}.

Definition resolver : Type := request_object -> executor -> world -> world.

(** [SchemeHandler]: the callbacks per web view (its task table is the
    world's [m_tasks]). *)
Record handler : Type := Handler {
  m_callbacks : gmap nat resolver
}.

(** [add_callback:webview:]: [emplace] keeps an entry that is present. *)
Definition add_callback (instance : nat) (callback : resolver) (h : handler) : handler :=
  match m_callbacks h !! instance with
  | Some _ => h
  | None => Handler (<[instance := callback]> (m_callbacks h))
  end.

(** [del_callback:]. *)
Definition del_callback (instance : nat) (h : handler) : handler :=
  Handler (delete instance (m_callbacks h)).

(** [locked->emplace(task.hash, ref)]: inserts unless the key is taken. *)
Definition emplace (k : nat) (v : task_ref) (m : gmap nat task_ref) : gmap nat task_ref :=
  match m !! k with
  | Some _ => m
  | None => <[k := v]> m
  end.

Definition new_impl (ref : task_ref) (handle : nat) (l : loc) : impl :=
  Impl ref handle (Some (Closure handle l)) (Some (Closure handle l)) false false.

(** [webView:startURLSchemeTask:]. *)
Definition startURLSchemeTask (instance : nat) (task : task_ref)
    (self : handler) (w : world) : world :=
  match m_callbacks self !! instance with
  | None => w
  | Some callback =>
      let ref := task in
      let tasks := emplace (task_hash task) ref (m_tasks w) in
      let handle := task_hash task in
      let l := fresh (dom (heap w)) in
      let req := RequestObject ref in
      let exec := Executor (Some l) in
      callback req exec (World (<[l := new_impl ref handle l]> (heap w)) tasks (trace w))
  end.

(** [webView:stopURLSchemeTask:]. *)
Definition stopURLSchemeTask (task : task_ref) (w : world) : world :=
  erase (task_hash task) w.

Inductive call : Type :=
| call_resolve (r : response)
| call_reject (err : error)
| call_start (r : stream_response)
| call_write (data : stash)
| call_finish.

Definition step (e : executor) (c : call) (w : world) : world :=
  match c with
  | call_resolve r => resolve e r w
  | call_reject err => reject e err w
  | call_start r => start e r w
  | call_write d => write e d w
  | call_finish => finish e w
  end.

Definition run (e : executor) (cs : list call) (w : world) : world :=
  foldl (fun w c => step e c w) w cs.

(** *** The effect of a call on the object it reaches and on the table *)

Definition bound (w : world) (l : loc) (i : impl) : Prop :=
  heap w !! l = Some i /\
  resolve_fn i = Some (Closure (handle i) l) /\
  reject_fn i = Some (Closure (handle i) l).

Definition fail_event (via : delivery) (err : error) (t : task_ref) : event :=
  Event t via (didFailWithError NSURLErrorDomain (to_underlying err)).

Definition istep (i : impl) (tasks : gmap nat task_ref) (c : call)
    : impl * gmap nat task_ref * list event :=
  match c with
  | call_resolve r =>
      if started i || finished i then (i, tasks, [])
      else
        match tasks !! handle i with
        | None => (set_finished true i, tasks, [])
        | Some t =>
            let fields :=
              <["Content-Length"%string := pretty (length (data r))]>
                (<["Content-Type"%string := c_str (mime r)]>
                   (ns_headers (headers r))) in
            (set_finished true i, delete (handle i) tasks,
             [Event t in_place
                (didReceiveResponse (HttpResponse (task_url t) (status r) fields));
              Event t in_place (didReceiveData (data r));
              Event t in_place didFinish])
        end
  | call_reject err =>
      if finished i then (i, tasks, [])
      else
        match tasks !! handle i with
        | None => (set_finished true i, tasks, [])
        | Some t =>
            (set_finished true i, delete (handle i) tasks,
             [fail_event (if started i then main_queue else in_place) err t])
        end
  | call_start r =>
      if started i || finished i then (set_started true i, tasks, [])
      else
        match tasks !! handle i with
        | None => (i, tasks, [])
        | Some t =>
            let fields :=
              <["Content-Type"%string := c_str (stream_mime r)]>
                (ns_headers (stream_headers r)) in
            (set_started true i, tasks,
             [Event t main_queue
                (didReceiveResponse
                   (HttpResponse (task_url t) (stream_status r) fields))])
        end
  | call_write d =>
      if negb (started i) || finished i then (i, tasks, [])
      else
        match tasks !! handle i with
        | None => (i, tasks, [])
        | Some t => (i, tasks, [Event t main_queue (didReceiveData d)])
        end
  | call_finish =>
      if negb (started i) || finished i then (i, tasks, [])
      else
        match tasks !! handle i with
        | None => (set_finished true i, tasks, [])
        | Some t =>
            (set_finished true i, delete (handle i) tasks,
             [Event t main_queue didFinish])
        end
  end.

Fixpoint irun (i : impl) (tasks : gmap nat task_ref) (cs : list call)
    : impl * gmap nat task_ref * list event :=
  match cs with
  | [] => (i, tasks, [])
  | c :: cs' =>
      let '(i1, m1, t1) := istep i tasks c in
      let '(i2, m2, t2) := irun i1 m1 cs' in
      (i2, m2, t1 ++ t2)
  end.

Definition idle (i : impl) : Prop := started i = false /\ finished i = false.
Definition is_streaming (i : impl) : Prop := started i = true /\ finished i = false.
Definition terminal (i : impl) : Prop := finished i = true.

(** The calls of [cs] that find the object Idle and reach the task. *)
Fixpoint idle_effects (i : impl) (tasks : gmap nat task_ref) (cs : list call) : nat :=
  match cs with
  | [] => 0%nat
  | c :: cs' =>
      ((match (istep i tasks c).2 with
        | [] => 0
        | _ :: _ => if started i || finished i then 0 else 1
        end) + idle_effects (istep i tasks c).1.1 (istep i tasks c).1.2 cs')%nat
  end.

End Wk.

(** ** Qt back end ([qt.scheme.cpp]) *)

Module Qt.

(** [QWebEngineUrlRequestJob::Error], as far as [reject] uses it. *)
Inductive job_error : Type :=
| UrlNotFound
| UrlInvalid
| RequestDenied
| RequestFailed.

(** A [QWebEngineUrlRequestJob]: its identity and what its getters return.
    [requestBody] is [None] when there is no body device or it does not
    open for reading. *)
Record job : Type := Job {
  job_id : nat;
  requestUrl : string;
  requestMethod : string;
  requestHeaders : gmap string string;
  requestBody : option stash
}.

(** [class stream_device]: the [QObject] parent given to its constructor
    (a job, by its identity), the bytes pushed and not yet read, and the
    end-of-stream flag. *)
Record stream_device : Type := StreamDevice {
  parent : option nat;
  m_buffer : stash;
  m_finished : bool
}.

(** Calls on the job and on the stream device; every [push] and
    [close_write] also posts [readyRead] to Qt. *)
Inductive event : Type :=
| setAdditionalResponseHeaders (job : nat) (headers : gmap string string)
| reply_device (job : nat) (content_type : string) (device : loc)
| reply_buffer (job : nat) (content_type : string) (bytes : stash)
| fail (job : nat) (err : job_error)
| push (device : loc) (bytes : stash)
| close_write (device : loc)
| get_requestUrl (job : nat)
| get_requestMethod (job : nat)
| get_requestHeaders (job : nat).

(** The capture of the lambdas of an [impl]: [[weak_impl]]. *)
Record closure : Type := Closure {
  cap_weak : loc
}.

(** Modelled from the spec: [executor::impl] is declared in
    [qt.scheme.impl.hpp], which is not among the sources.  Its members are
    the ones used below: [request] is the shared, lock-protected cell that
    holds the job pointer, [device] a plain pointer (null by default); both
    flags start clear. *)
Record impl : Type := Impl {
  request : loc;
  device : option loc;
  resolve_fn : option closure;
  reject_fn : option closure;
  started : bool;
  finished : bool
}.

Definition set_started (b : bool) (i : impl) : impl :=
  Impl (request i) (device i) (resolve_fn i) (reject_fn i) b (finished i).

Definition set_finished (b : bool) (i : impl) : impl :=
  Impl (request i) (device i) (resolve_fn i) (reject_fn i) (started i) b.

(** The world: executor objects, the job-pointer cells
    ([lockpp::lock<QWebEngineUrlRequestJob *>], [None] once null), the
    stream devices, the lambdas connected to [QObject::destroyed] of a job
    (each with its captures [[request, device]]), and the trace. *)
Record world : Type := World {
  heap : gmap loc impl;
  cells : gmap loc (option job);
  devices : gmap loc stream_device;
  connections : list (nat * (loc * loc));
  trace : list event
}.

Definition upd (l : loc) (f : impl -> impl) (w : world) : world :=
  World (alter f l (heap w)) (cells w) (devices w) (connections w) (trace w).

Definition emit (e : event) (w : world) : world :=
  World (heap w) (cells w) (devices w) (connections w) (trace w ++ [e]).

(** [request->write()] followed by [value()]: the job pointer in a cell. *)
Definition value (w : world) (cell : loc) : option job :=
  match cells w !! cell with
  | Some p => p
  | None => None
  end.

(** [request->assign(nullptr)]. *)
Definition assign_null (cell : loc) (w : world) : world :=
  World (heap w) (<[cell := None]> (cells w)) (devices w) (connections w) (trace w).

(** [stream_device::push].  On a device that is gone there is nothing to
    store: the call goes to a deleted object. *)
Definition device_push (d : loc) (bytes : stash) (w : world) : world :=
  let devs := alter (fun s => StreamDevice (parent s) (m_buffer s ++ bytes) (m_finished s)) d (devices w) in
  emit (push d bytes) (World (heap w) (cells w) devs (connections w) (trace w)).

(** [stream_device::close_write]. *)
Definition device_close_write (d : loc) (w : world) : world :=
  let devs := alter (fun s => StreamDevice (parent s) (m_buffer s) true) d (devices w) in
  emit (close_write d) (World (heap w) (cells w) devs (connections w) (trace w)).

(** [stream_device::readData] once its wait is over: [None] while it would
    still wait; otherwise the bytes handed out (at most [max]) with the
    device left behind, or -1 at the end of the stream. *)
Definition readData (max : nat) (s : stream_device)
    : option (Z * stash * stream_device) :=
  match m_buffer s with
  | [] => if m_finished s then Some (-1, [], s) else None
  | _ :: _ =>
      let to_read := Nat.min max (length (m_buffer s)) in
      Some (Z.of_nat to_read, take to_read (m_buffer s),
            StreamDevice (parent s) (drop to_read (m_buffer s)) (m_finished s))
  end.

Record executor : Type := Executor {
  m_impl : option loc
}.

(** The body of [exec_impl->resolve] (lines 251-291). *)
Definition resolve_lambda (c : closure) (response : response) (w : world) : world :=
  match heap w !! cap_weak c with
  | None => w
  | Some impl =>
      if started impl then w
      else
        let '(was, now) := exchange (finished impl) true in
        let w := upd (cap_weak c) (set_finished now) w in
        if was then w
        else
          match value w (request impl) with
          | None => w
          | Some req =>
              let w := emit (setAdditionalResponseHeaders (job_id req) (headers response)) w in
              emit (reply_buffer (job_id req) (mime response) (data response)) w
          end
  end.

(** The [switch] of [exec_impl->reject]. *)
Definition to_job_error (error : error) : job_error :=
  match error with
  | not_found => UrlNotFound
  | invalid => UrlInvalid
  | denied => RequestDenied
  | failed => RequestFailed
  end.

(** The body of [exec_impl->reject] (lines 293-336). *)
Definition reject_lambda (c : closure) (error : error) (w : world) : world :=
  match heap w !! cap_weak c with
  | None => w
  | Some impl =>
      let '(was, now) := exchange (finished impl) true in
      let w := upd (cap_weak c) (set_finished now) w in
      if was then w
      else
        match value w (request impl) with
        | None => w
        | Some req => emit (fail (job_id req) (to_job_error error)) w
        end
  end.

(** [executor::resolve]. *)
Definition resolve (e : executor) (response : response) (w : world) : world :=
  match m_impl e with
  | None => w
  | Some l =>
      match heap w !! l with
      | None => w
      | Some i =>
          match resolve_fn i with
          | None => w
          | Some c => resolve_lambda c response w
          end
      end
  end.

(** [executor::reject]. *)
Definition reject (e : executor) (err : error) (w : world) : world :=
  match m_impl e with
  | None => w
  | Some l =>
      match heap w !! l with
      | None => w
      | Some i =>
          let w :=
            if started i then
              match device i with
              | Some d => device_close_write d w
              | None => w
              end
            else w in
          match reject_fn i with
          | None => w
          | Some c => reject_lambda c err w
          end
      end
  end.

(** [executor::start]. *)
Definition start (e : executor) (response : stream_response) (w : world) : world :=
  match m_impl e with
  | None => w
  | Some l =>
      match heap w !! l with
      | None => w
      | Some i =>
          let '(was, now) := exchange (started i) true in
          let w := upd l (set_started now) w in
          if was || finished i then w
          else
            match device i with
            | None => upd l (set_started false) w
            | Some d =>
                match value w (request i) with
                | None => upd l (set_started false) w
                | Some req =>
                    let w := emit (setAdditionalResponseHeaders (job_id req)
                                     (stream_headers response)) w in
                    emit (reply_device (job_id req) (stream_mime response) d) w
                end
            end
      end
  end.

(** [executor::write]. *)
Definition write (e : executor) (data : stash) (w : world) : world :=
  match m_impl e with
  | None => w
  | Some l =>
      match heap w !! l with
      | None => w
      | Some i =>
          if negb (started i) || finished i then w
          else
            match device i with
            | None => w
            | Some d => device_push d data w
            end
      end
  end.

(** [executor::finish]. *)
Definition finish (e : executor) (w : world) : world :=
  match m_impl e with
  | None => w
  | Some l =>
      match heap w !! l with
      | None => w
      | Some i =>
          if negb (started i) then w
          else
            let '(was, now) := exchange (finished i) true in
            let w := upd l (set_finished now) w in
            if was then w
            else
              match device i with
              | Some d => device_close_write d w
              | None => w
              end
      end
  end.

(** [executor::streaming]. *)
Definition streaming (e : executor) (w : world) : bool :=
  match m_impl e with
  | None => false
  | Some l =>
      match heap w !! l with
      | None => false
      | Some i => bool_decide (is_Some (value w (request i))) && negb (finished i)
      end
  end.

(** [request::impl]: the shared job-pointer cell and the body read at
    dispatch. *)
Record request_object : Type := RequestObject {
  req_request : loc;
  req_body : stash
}.

(** What a getter of [request] does: it returns a value, having made the
    listed calls on the job, or it dereferences a null job pointer. *)
Inductive outcome (A : Type) : Type :=
| returned (a : A) (calls : list event)
| null_dereference.

Arguments returned {A} a calls.
Arguments null_dereference {A}.

(** [request::url]. *)
Definition url (r : request_object) (w : world) : outcome string :=
  match value w (req_request r) with
  | None => null_dereference
  | Some request => returned (requestUrl request) [get_requestUrl (job_id request)]
  end.

(** [request::method]. *)
Definition method (r : request_object) (w : world) : outcome string :=
  match value w (req_request r) with
  | None => null_dereference
  | Some request => returned (requestMethod request) [get_requestMethod (job_id request)]
  end.

(** [request::content]: a view of the stored body. *)
Definition content (r : request_object) : stash := req_body r.

(** [request::headers].  Iterating a [QMap] visits its values, so [item]
    below is a header value; [headers[item]] on the constant map is the
    entry under that key, or an empty byte array. *)
Definition request_headers (r : request_object) (w : world)
    : outcome (gmap string string) :=
  match value w (req_request r) with
  | None => null_dereference
  | Some request =>
      let headers := requestHeaders request in
      let transform (item : string) := (item, default ""%string (headers !! item)) in
      returned (list_to_map (transform <$> (map_to_list headers).*2))
               [get_requestHeaders (job_id request)]
  end.

Definition resolver : Type := request_object -> executor -> world -> world.

(** [class handler]: one resolver, possibly empty. *)
Record handler : Type := Handler {
  handler_resolver : option resolver
}.

Definition new_impl (cell device l : loc) : impl :=
  Impl cell (Some device) (Some (Closure l)) (Some (Closure l)) false false.

(** [handler::requestStarted]. *)
Definition requestStarted (raw : job) (self : handler) (w : world) : world :=
  match handler_resolver self with
  | None => w
  | Some resolver =>
      let request := fresh (dom (cells w)) in
      let content := default [] (requestBody raw) in
      let device := fresh (dom (devices w)) in
      let l := fresh (dom (heap w)) in
      let exec := Executor (Some l) in
      let req := RequestObject request content in
      resolver req exec
        (World (<[l := new_impl request device l]> (heap w))
               (<[request := Some raw]> (cells w))
               (<[device := StreamDevice (Some (job_id raw)) [] false]> (devices w))
               ((job_id raw, (request, device)) :: connections w)
               (trace w))
  end.

(** The lambda connected to [QObject::destroyed] (lines 341-345). *)
Definition destroyed_lambda (captures : loc * loc) (w : world) : world :=
  let '(request, device) := captures in
  device_close_write device (assign_null request w).

(** Qt destroys job [id]: [QObject::destroyed] is emitted, so the lambdas
    connected to it run; then the connections of the job are gone and its
    children, the stream devices made with the job as parent, are deleted. *)
Definition destroyed (id : nat) (w : world) : world :=
  let w :=
    foldr (fun c w => if Nat.eqb (fst c) id then destroyed_lambda (snd c) w else w)
          w (connections w) in
  World (heap w) (cells w)
        (filter (fun kv => parent kv.2 <> Some id) (devices w))
        (filter (fun c => fst c <> id) (connections w))
        (trace w).

Inductive call : Type :=
| call_resolve (r : response)
| call_reject (err : error)
| call_start (r : stream_response)
| call_write (data : stash)
| call_finish.

Definition step (e : executor) (c : call) (w : world) : world :=
  match c with
  | call_resolve r => resolve e r w
  | call_reject err => reject e err w
  | call_start r => start e r w
  | call_write d => write e d w
  | call_finish => finish e w
  end.

Definition run (e : executor) (cs : list call) (w : world) : world :=
  foldl (fun w c => step e c w) w cs.

(** *** The effect of a call on the object it reaches and on the devices *)

Definition bound (w : world) (l : loc) (i : impl) : Prop :=
  heap w !! l = Some i /\
  resolve_fn i = Some (Closure l) /\
  reject_fn i = Some (Closure l).

(** What a recorded call does to the stream devices. *)
Definition device_effect (devs : gmap loc stream_device) (e : event)
    : gmap loc stream_device :=
  match e with
  | push d bytes =>
      alter (fun s => StreamDevice (parent s) (m_buffer s ++ bytes) (m_finished s)) d devs
  | close_write d =>
      alter (fun s => StreamDevice (parent s) (m_buffer s) true) d devs
  | _ => devs
  end.

(** [req] is the job pointer read from the object's cell. *)
Definition istep (req : option job) (i : impl) (c : call) : impl * list event :=
  match c with
  | call_resolve r =>
      if started i || finished i then (i, [])
      else
        match req with
        | None => (set_finished true i, [])
        | Some j =>
            (set_finished true i,
             [setAdditionalResponseHeaders (job_id j) (headers r);
              reply_buffer (job_id j) (mime r) (data r)])
        end
  | call_reject err =>
      let closing :=
        if started i then
          match device i with
          | Some d => [close_write d]
          | None => []
          end
        else [] in
      if finished i then (i, closing)
      else
        match req with
        | None => (set_finished true i, closing)
        | Some j => (set_finished true i, closing ++ [fail (job_id j) (to_job_error err)])
        end
  | call_start r =>
      if started i || finished i then (set_started true i, [])
      else
        match device i with
        | None => (i, [])
        | Some d =>
            match req with
            | None => (i, [])
            | Some j =>
                (set_started true i,
                 [setAdditionalResponseHeaders (job_id j) (stream_headers r);
                  reply_device (job_id j) (stream_mime r) d])
            end
        end
  | call_write data =>
      if negb (started i) || finished i then (i, [])
      else
        match device i with
        | None => (i, [])
        | Some d => (i, [push d data])
        end
  | call_finish =>
      if negb (started i) || finished i then (i, [])
      else
        match device i with
        | None => (set_finished true i, [])
        | Some d => (set_finished true i, [close_write d])
        end
  end.

Fixpoint irun (req : option job) (i : impl) (cs : list call) : impl * list event :=
  match cs with
  | [] => (i, [])
  | c :: cs' =>
      let '(i1, t1) := istep req i c in
      let '(i2, t2) := irun req i1 cs' in
      (i2, t1 ++ t2)
  end.

Definition idle (i : impl) : Prop := started i = false /\ finished i = false.
Definition is_streaming (i : impl) : Prop := started i = true /\ finished i = false.
Definition terminal (i : impl) : Prop := finished i = true.

(** The calls of [cs] that find the object Idle and reach the job or the
    device. *)
Fixpoint idle_effects (req : option job) (i : impl) (cs : list call) : nat :=
  match cs with
  | [] => 0%nat
  | c :: cs' =>
      ((match (istep req i c).2 with
        | [] => 0
        | _ :: _ => if started i || finished i then 0 else 1
        end) + idle_effects req (istep req i c).1 cs')%nat
  end.

End Qt.

(** ** Sample requests

    One request per back end, dispatched to a resolver that keeps the
    executor for a producer and returns, as the streaming prototype does. *)

Module Samples.

Definition chunk_a : stash := [Byte.x68; Byte.x65; Byte.x6c].
Definition chunk_b : stash := [Byte.x6c; Byte.x6f].

Definition octets : stream_response :=
  StreamResponse "application/octet-stream"
    {[ "Cache-Control"%string := "no-cache"%string ]} 200.

Definition octets_404 : stream_response :=
  StreamResponse "application/octet-stream"
    {[ "Cache-Control"%string := "no-cache"%string ]} 404.

Definition no_content : response :=
  Response [] "text/plain" ∅ 204.

Definition wkg_raw : Wkg.uri_scheme_request := Wkg.UriSchemeRequest 7 1.
Definition wkg_keep : Wkg.resolver := fun _ _ w => w.
Definition wkg_handler : Wkg.handler :=
  Wkg.add_callback 1 wkg_keep (Wkg.Handler ∅).
Definition wkg_w0 : Wkg.world :=
  Wkg.handle wkg_raw wkg_handler (Wkg.World ∅ []).
Definition wkg_exec : Wkg.executor := Wkg.Executor (Some 0%nat).

Definition wk_task : Wk.task_ref := Wk.TaskRef 42 "stream://localhost/data".
Definition wk_keep : Wk.resolver := fun _ _ w => w.
Definition wk_handler : Wk.handler :=
  Wk.add_callback 1 wk_keep (Wk.Handler ∅).
Definition wk_w0 : Wk.world :=
  Wk.startURLSchemeTask 1 wk_task wk_handler (Wk.World ∅ ∅ []).
Definition wk_exec : Wk.executor := Wk.Executor (Some 0%nat).

Definition qt_raw : Qt.job :=
  Qt.Job 7 "stream://localhost/data" "GET"
    {[ "Accept"%string := "*/*"%string ]} None.
Definition qt_keep : Qt.resolver := fun _ _ w => w.
Definition qt_handler : Qt.handler := Qt.Handler (Some qt_keep).
Definition qt_w0 : Qt.world :=
  Qt.requestStarted qt_raw qt_handler (Qt.World ∅ ∅ ∅ [] []).
Definition qt_exec : Qt.executor := Qt.Executor (Some 0%nat).
Definition qt_req : Qt.request_object := Qt.RequestObject 0 [].

End Samples.

(** ** The stream device of the Qt back end, seen alone

    [stream_device] is shared by the producer, which calls [push] and
    [close_write], and by Qt, which calls [readData]; the mutex makes each
    of the three atomic.  Here they are functions on one device;
    [device_calls_agree] below shows that they are the changes
    [Qt.device_push] and [Qt.device_close_write] make to the device they
    name. *)

Module Device.

(** The change [stream_device::push] makes to the device. *)
Definition push (bytes : stash) (s : Qt.stream_device) : Qt.stream_device :=
  Qt.StreamDevice (Qt.parent s) (Qt.m_buffer s ++ bytes) (Qt.m_finished s).

(** The change [stream_device::close_write] makes to the device. *)
Definition close_write (s : Qt.stream_device) : Qt.stream_device :=
  Qt.StreamDevice (Qt.parent s) (Qt.m_buffer s) true.

(** One call on a device. *)
Inductive op : Type :=
| op_push (bytes : stash)
| op_close_write
| op_readData (max : nat).

(** A sequence of calls, one after the other: the bytes the reads handed
    out, in order, and the device at the end; [None] when a read finds the
    device open and empty, where [readData] waits for another thread. *)
Fixpoint run (ops : list op) (s : Qt.stream_device)
    : option (stash * Qt.stream_device) :=
  match ops with
  | [] => Some ([], s)
  | op_push bytes :: ops' => run ops' (push bytes s)
  | op_close_write :: ops' => run ops' (close_write s)
  | op_readData max :: ops' =>
      match Qt.readData max s with
      | None => None
      | Some (_, bytes, s') =>
          match run ops' s' with
          | None => None
          | Some (out, s'') => Some (bytes ++ out, s'')
          end
      end
  end.

(** The bytes a sequence of calls pushes. *)
Fixpoint pushed (ops : list op) : stash :=
  match ops with
  | [] => []
  | op_push bytes :: ops' => bytes ++ pushed ops'
  | _ :: ops' => pushed ops'
  end.

End Device.

(** Calls that go to the stream device rather than to the job. *)
Definition is_device_call (e : Qt.event) : bool :=
  match e with
  | Qt.push _ _ | Qt.close_write _ => true
  | _ => false
  end.

(** ** The order in which the native side takes the calls

    A [WKURLSchemeTask] takes [didReceiveResponse] first, then any number
    of [didReceiveData], then one [didFinish] or [didFailWithError]
    (alone, the latter may come first); it raises an exception on a
    message that comes after the last one.  A [WebKitURISchemeRequest] is
    finished once, with a response or with an error; the pipe behind a
    streamed response is written to only after that response was handed
    over, and not after its write end was closed. *)

Inductive phase : Type :=
| pristine
| opened
| ended.

Definition wk_next (p : phase) (m : Wk.message) : option phase :=
  match p, m with
  | pristine, Wk.didReceiveResponse _ => Some opened
  | pristine, Wk.didFailWithError _ _ => Some ended
  | opened, Wk.didReceiveData _ => Some opened
  | opened, Wk.didFinish => Some ended
  | opened, Wk.didFailWithError _ _ => Some ended
  | _, _ => None
  end.

Fixpoint wk_accepts (p : phase) (ms : list Wk.message) : option phase :=
  match ms with
  | [] => Some p
  | m :: ms' =>
      match wk_next p m with
      | None => None
      | Some p' => wk_accepts p' ms'
      end
  end.

Definition wkg_next (p : phase) (e : Wkg.event) : option phase :=
  match p, e with
  | pristine, Wkg.finish_with_response _ res =>
      match Wkg.body_stream res with
      | Wkg.unix_input_stream _ => Some opened
      | Wkg.memory_input_stream _ => Some ended
      end
  | pristine, Wkg.finish_error _ _ _ => Some ended
  | opened, Wkg.sys_write _ _ _ => Some opened
  | opened, Wkg.sys_close _ => Some ended
  | _, _ => None
  end.

Fixpoint wkg_accepts (p : phase) (t : list Wkg.event) : option phase :=
  match t with
  | [] => Some p
  | e :: t' =>
      match wkg_next p e with
      | None => None
      | Some p' => wkg_accepts p' t'
      end
  end.

(** The descriptor a call on the pipe names. *)
Definition descriptor (e : Wkg.event) : option Z :=
  match e with
  | Wkg.sys_write fd _ _ | Wkg.sys_close fd => Some fd
  | _ => None
  end.

(** The write ends the [pipe] calls of a sequence of calls produced. *)
Fixpoint write_ends (cs : list Wkg.call) : list Z :=
  match cs with
  | [] => []
  | Wkg.call_start _ (Some (_, wfd)) :: cs' => wfd :: write_ends cs'
  | _ :: cs' => write_ends cs'
  end.

(** The phase an executor object takes its task or request to be in; a
    finished object makes no further call, whatever the phase. *)
Definition wk_compat (i : Wk.impl) (p : phase) : Prop :=
  Wk.finished i = true \/ p = (if Wk.started i then opened else pristine).

Definition wkg_compat (i : Wkg.impl) (p : phase) : Prop :=
  Wkg.finished i = true \/ p = (if Wkg.started i then opened else pristine).

(** What a [QWebEngineUrlRequestJob] and the stream device see of one
    request: the response headers are set right before the one [reply]; a
    [push] comes only between a [reply] with the device and the first
    [close_write] or [fail]; [fail] comes at most once and not after a
    buffer was replied.  [close_write] may repeat once the device is closed, and may
    come after a reply with a buffer or after [fail]. *)
Inductive qt_phase : Type :=
| qt_fresh
| qt_announced
| qt_replied
| qt_streaming
| qt_closed
| qt_failed.

Definition qt_next (p : qt_phase) (e : Qt.event) : option qt_phase :=
  match p, e with
  | qt_fresh, Qt.setAdditionalResponseHeaders _ _ => Some qt_announced
  | qt_fresh, Qt.fail _ _ => Some qt_failed
  | qt_announced, Qt.reply_buffer _ _ _ => Some qt_replied
  | qt_announced, Qt.reply_device _ _ _ => Some qt_streaming
  | qt_streaming, Qt.push _ _ => Some qt_streaming
  | qt_streaming, Qt.close_write _ => Some qt_closed
  | qt_streaming, Qt.fail _ _ => Some qt_failed
  | qt_closed, Qt.close_write _ => Some qt_closed
  | qt_closed, Qt.fail _ _ => Some qt_failed
  | qt_failed, Qt.close_write _ => Some qt_failed
  | qt_replied, Qt.close_write _ => Some qt_replied
  | _, _ => None
  end.

Fixpoint qt_accepts (p : qt_phase) (t : list Qt.event) : option qt_phase :=
  match t with
  | [] => Some p
  | e :: t' =>
      match qt_next p e with
      | None => None
      | Some p' => qt_accepts p' t'
      end
  end.

Definition qt_compat (i : Qt.impl) (p : qt_phase) : Prop :=
  if Qt.finished i then p = qt_replied \/ p = qt_streaming \/ p = qt_closed \/ p = qt_failed
  else p = (if Qt.started i then qt_streaming else qt_fresh).

(** ** The binary echo prototype ([prototypes/01-scheme-binary/main.cpp]) *)

Module Proto01.

(** [class DataQueue]: a deque of byte vectors behind a mutex; every member
    function holds the lock for its whole body. *)
Record DataQueue : Type := Queue {
  m_queue : list stash
}.

(** [DataQueue::push]. *)
Definition push (data : stash) (q : DataQueue) : DataQueue :=
  Queue (m_queue q ++ [data]).

(** [DataQueue::try_pop]. *)
Definition try_pop (q : DataQueue) : option stash * DataQueue :=
  match m_queue q with
  | [] => (None, q)
  | data :: rest => (Some data, Queue rest)
  end.

(** [DataQueue::size]. *)
Definition size (q : DataQueue) : nat := length (m_queue q).

(** One call on a queue. *)
Inductive queue_op : Type :=
| op_push (data : stash)
| op_try_pop.

(** A sequence of calls: what the [try_pop] calls returned, in order, and
    the queue at the end. *)
Fixpoint run_queue (ops : list queue_op) (q : DataQueue)
    : list (option stash) * DataQueue :=
  match ops with
  | [] => ([], q)
  | op_push data :: ops' => run_queue ops' (push data q)
  | op_try_pop :: ops' =>
      let '(r, q1) := try_pop q in
      let '(rs, q2) := run_queue ops' q1 in
      (r :: rs, q2)
  end.

(** The vectors a sequence of calls pushes. *)
Fixpoint pushes (ops : list queue_op) : list stash :=
  match ops with
  | [] => []
  | op_push data :: ops' => data :: pushes ops'
  | op_try_pop :: ops' => pushes ops'
  end.

(** [+=] and [++] on a [std::atomic<std::uint64_t>]. *)
Definition add_u64 (a n : Z) : Z := (a + n) mod 2 ^ 64.

(** The globals of the program: the two queues and the four counters. *)
Record globals : Type := Globals {
  g_to_js : DataQueue;
  g_from_js : DataQueue;
  g_bytes_to_js : Z;
  g_bytes_from_js : Z;
  g_requests_to_js : Z;
  g_requests_from_js : Z
}.

(** [cors_headers], captured by the handler. *)
Definition cors_headers : gmap string string :=
  {[ "Access-Control-Allow-Origin"%string := "*"%string;
     "Access-Control-Allow-Methods"%string := "GET, POST, OPTIONS"%string;
     "Access-Control-Allow-Headers"%string := "Content-Type"%string ]}.

(** Modelled from the spec: [url.hpp] is not among the sources, and the
    handler reads its request only through [method()], [url().path()] and
    [content()]; a request is what these three return. *)
Record request : Type := Request {
  method : string;
  path : string;
  content : stash
}.

Section Handler.

Context {W : Type}.

(** Modelled from the spec: [saucer::executor<response, error>] of
    [executor.hpp], which is not among the sources: the pair
    [[resolve, reject]] the handler takes apart, each a callable that acts
    on the native side [W]. *)
Record executor : Type := Executor {
  resolve : response -> W -> W;
  reject : error -> W -> W
}.

(** The lambda given to [handle_scheme("io", ...)] (lines 221-277). *)
Definition io_handler (req : request) (exec : executor) (s : globals * W)
    : globals * W :=
  let '(g, w) := s in
  if bool_decide (method req = "POST"%string) && bool_decide (path req = "/write"%string)
  then
    let data := content req in
    let g := Globals (push data (g_to_js g)) (g_from_js g) (g_bytes_to_js g)
               (add_u64 (g_bytes_from_js g) (Z.of_nat (length data)))
               (g_requests_to_js g) (add_u64 (g_requests_from_js g) 1) in
    (g, resolve exec (Response [] "text/plain" cors_headers 204) w)
  else if bool_decide (path req = "/read"%string)
  then
    match try_pop (g_to_js g) with
    | (Some data, q) =>
        let g := Globals q (g_from_js g)
                   (add_u64 (g_bytes_to_js g) (Z.of_nat (length data)))
                   (g_bytes_from_js g)
                   (add_u64 (g_requests_to_js g) 1) (g_requests_from_js g) in
        (g, resolve exec (Response data "application/octet-stream" cors_headers 200) w)
    | (None, q) =>
        (Globals q (g_from_js g) (g_bytes_to_js g) (g_bytes_from_js g)
           (g_requests_to_js g) (g_requests_from_js g),
         resolve exec (Response [] "application/octet-stream" cors_headers 200) w)
    end
  else (g, reject exec not_found w).

(** The requests of a list, handled one after the other with the same
    executor callables. *)
Definition serve (exec : executor) (reqs : list request) (s : globals * W)
    : globals * W :=
  foldl (fun s req => io_handler req exec s) s reqs.

(** [resolve] called with each response of a list, in order. *)
Definition resolve_all (exec : executor) (rs : list response) (w : W) : W :=
  foldl (fun w r => resolve exec r w) w rs.

End Handler.

Arguments executor W : clear implicits.

(** The requests the page sends: [sendData] and [receiveData]. *)
Definition post_write (body : stash) : request := Request "POST" "/write" body.
Definition get_read : request := Request "GET" "/read" [].

(** The responses the handler builds. *)
Definition no_content : response := Response [] "text/plain" cors_headers 204.
Definition octets (data : stash) : response :=
  Response data "application/octet-stream" cors_headers 200.

(** The bytes held in a queue. *)
Definition queued_bytes (q : DataQueue) : Z :=
  Z.of_nat (length (concat (m_queue q))).

(** What the counters say about the queue towards the page: the bytes and
    the requests that came in and were not yet handed back are the ones
    queued, modulo the width of the counters. *)
Definition counters_match (g : globals) : Prop :=
  (g_bytes_from_js g - g_bytes_to_js g) mod 2 ^ 64
  = queued_bytes (g_to_js g) mod 2 ^ 64 /\
  (g_requests_from_js g - g_requests_to_js g) mod 2 ^ 64
  = Z.of_nat (size (g_to_js g)) mod 2 ^ 64.

End Proto01.

(** ** The chunk size in a request URL

    The streaming prototype, the SSE prototype (second program of
    [prototypes/01-scheme-binary/main.cpp]) and the scheme-to-SAB prototype
    ([prototypes/03-scheme-to-sab/main.cpp], [POST /start]) read the chunk
    size the page asks for with the same lines: [raw.find("size=")], then
    [std::stoull] on the rest of the URL.  The three library functions are
    modelled as the C++ standard describes them, for a 64-bit
    [unsigned long long] and [std::size_t]. *)

Module ChunkSize.

(** [std::string::find(needle)]: the position of the first occurrence, or
    [npos]. *)
Fixpoint find (needle s : string) : option nat :=
  if String.prefix needle s then Some 0%nat
  else match s with
       | EmptyString => None
       | String _ s' => S <$> find needle s'
       end.

(** [std::string::substr(pos)], for [pos] within the string. *)
Fixpoint substr (pos : nat) (s : string) : string :=
  match pos, s with
  | 0%nat, _ => s
  | S p, String _ s' => substr p s'
  | S _, EmptyString => EmptyString
  end.

(** [isspace] in the C locale. *)
Definition isspace (c : Ascii.ascii) : bool :=
  let n := Ascii.N_of_ascii c in
  ((n =? 32) || ((9 <=? n) && (n <=? 13)))%N.

(** The value of a decimal digit. *)
Definition digit (c : Ascii.ascii) : option N :=
  let n := Ascii.N_of_ascii c in
  if ((48 <=? n) && (n <=? 57))%N then Some (n - 48)%N else None.

Fixpoint skip_space (s : string) : string :=
  match s with
  | String c s' => if isspace c then skip_space s' else s
  | EmptyString => EmptyString
  end.

(** The longest run of digits at the front of [s], read in base 10 after
    [acc]; [None] when no digit was seen. *)
Fixpoint read_digits (acc : N) (seen : bool) (s : string) : option N :=
  match s with
  | String c s' =>
      match digit c with
      | Some d => read_digits (10 * acc + d) true s'
      | None => if seen then Some acc else None
      end
  | EmptyString => if seen then Some acc else None
  end.

(** What [std::stoull] does: it returns a value or throws. *)
Inductive parsed : Type :=
| value (n : N)
| invalid_argument
| out_of_range.

(** [std::stoull(s)] ([strtoull] in base 10): leading white space, an
    optional sign ([+] is character 43, [-] is 45), then digits; no digit is [std::invalid_argument], a
    number above [ULLONG_MAX] is [std::out_of_range], and a minus sign
    negates the value in the unsigned type. *)
Definition stoull (s : string) : parsed :=
  let s := skip_space s in
  let '(negative, s) :=
    match s with
    | String c s' =>
        if (Ascii.N_of_ascii c =? 43)%N then (false, s')
        else if (Ascii.N_of_ascii c =? 45)%N then (true, s')
        else (false, s)
    | EmptyString => (false, s)
    end in
  match read_digits 0 false s with
  | None => invalid_argument
  | Some n =>
      if (n <? 2 ^ 64)%N
      then value (if negative then (2 ^ 64 - n) mod 2 ^ 64 else n)%N
      else out_of_range
  end.

(** The lines of the handlers: [size] starts as 4096 and is replaced when
    the URL has [size=]. *)
Definition chunk_size (raw : string) : parsed :=
  match find "size=" raw with
  | None => value 4096
  | Some pos => stoull (substr (pos + 5) raw)
  end.

(** A string that does not go on with a digit. *)
Definition ends_number (rest : string) : Prop :=
  match rest with
  | String c _ => digit c = None
  | EmptyString => True
  end.

End ChunkSize.

(** ** Sample streams

    The sample requests once more, each with its stream open, and the Qt
    one after its job was destroyed; a sequence of calls for each back end;
    a page talking to the echo prototype. *)

Module Scenes.

Definition wkg_i0 : Wkg.impl := Wkg.new_impl Samples.wkg_raw 0.
Definition wkg_i1 : Wkg.impl := Wkg.set_write_fd 4 (Wkg.set_started true wkg_i0).
Definition wkg_w1 : Wkg.world :=
  Wkg.start Samples.wkg_exec Samples.octets (Some (3, 4)) Samples.wkg_w0.
Definition wkg_calls : list Wkg.call :=
  [Wkg.call_start Samples.octets (Some (3, 4));
   Wkg.call_write Samples.chunk_a [Wkg.sys_written 2; Wkg.sys_failed 4; Wkg.sys_written 1];
   Wkg.call_finish;
   Wkg.call_write Samples.chunk_b [Wkg.sys_written 2];
   Wkg.call_reject failed].

Definition wk_i0 : Wk.impl := Wk.new_impl Samples.wk_task 42 0.
Definition wk_i1 : Wk.impl := Wk.set_started true wk_i0.
Definition wk_w1 : Wk.world := Wk.start Samples.wk_exec Samples.octets Samples.wk_w0.
Definition wk_calls : list Wk.call :=
  [Wk.call_start Samples.octets; Wk.call_write Samples.chunk_a;
   Wk.call_resolve Samples.no_content; Wk.call_reject failed;
   Wk.call_write Samples.chunk_b; Wk.call_finish].

Definition qt_i0 : Qt.impl := Qt.new_impl 0 0 0.
Definition qt_i1 : Qt.impl := Qt.set_started true qt_i0.
Definition qt_w1 : Qt.world := Qt.start Samples.qt_exec Samples.octets Samples.qt_w0.
Definition qt_gone : Qt.world := Qt.destroyed 7 qt_w1.
Definition qt_calls : list Qt.call :=
  [Qt.call_write Samples.chunk_a; Qt.call_resolve Samples.no_content;
   Qt.call_reject failed; Qt.call_finish].

Definition qt_stream : list Qt.call :=
  [Qt.call_start Samples.octets; Qt.call_write Samples.chunk_a; Qt.call_finish;
   Qt.call_reject failed; Qt.call_write Samples.chunk_b].


(** A second request dispatched after the first, in each back end. *)
Definition wkg_raw2 : Wkg.uri_scheme_request := Wkg.UriSchemeRequest 8 1.
Definition wkg_w2 : Wkg.world :=
  Wkg.handle wkg_raw2 Samples.wkg_handler Samples.wkg_w0.
Definition wk_task2 : Wk.task_ref := Wk.TaskRef 43 "stream://localhost/other".
Definition wk_w2 : Wk.world :=
  Wk.startURLSchemeTask 1 wk_task2 Samples.wk_handler Samples.wk_w0.
Definition qt_raw2 : Qt.job :=
  Qt.Job 8 "stream://localhost/other" "GET" ∅ None.
Definition qt_w2 : Qt.world :=
  Qt.requestStarted qt_raw2 Samples.qt_handler Samples.qt_w0.

Definition device_calls : list Device.op :=
  [Device.op_push Samples.chunk_a; Device.op_readData 2;
   Device.op_push Samples.chunk_b; Device.op_close_write; Device.op_readData 10].
Definition device_0 : Qt.stream_device := Qt.StreamDevice (Some 7%nat) [] false.

(** An executor that keeps what it is called with. *)
Definition recorder : Proto01.executor (list (response + error)) :=
  Proto01.Executor (fun r w => w ++ [inl r]) (fun e w => w ++ [inr e]).
Definition g_0 : Proto01.globals :=
  Proto01.Globals (Proto01.Queue []) (Proto01.Queue []) 0 0 0 0.
Definition page : list Proto01.request :=
  [Proto01.post_write Samples.chunk_a; Proto01.post_write Samples.chunk_b;
   Proto01.get_read; Proto01.Request "GET" "/stats" []; Proto01.get_read;
   Proto01.get_read].

End Scenes.

(** * Properties *)

Lemma alter_lookup_insert {A} (m : gmap nat A) l i f :
  m !! l = Some i -> alter f l m = <[l := f i]> m.
Proof.
  intros H. apply map_eq. intros j.
  destruct (decide (l = j)) as [->|Hne].
  - rewrite lookup_alter_eq, lookup_insert_eq, H. done.
  - rewrite lookup_alter_ne, lookup_insert_ne by done. done.
Qed.

Ltac heap_norm Hl :=
  repeat first
    [ rewrite Hl
    | rewrite lookup_insert_eq
    | rewrite insert_insert_eq
    | rewrite (alter_lookup_insert _ _ _ _ Hl)
    | rewrite (alter_lookup_insert _ _ _ _ (lookup_insert_eq _ _ _)) ];
  simpl.

Ltac close_world w Hl :=
  simpl; rewrite ?app_nil_r, <- ?app_assoc; rewrite ?(insert_id _ _ _ Hl);
  first [ done | destruct w; simpl in *; done ].

(** ** WebKitGTK *)

Module WkgFacts.
Import Wkg.

Lemma wkg_set_finished_same i : finished i = true -> set_finished true i = i.
Proof. destruct i; simpl; intros ->; done. Qed.

Lemma wkg_set_started_same i b : started i = b -> set_started b i = i.
Proof. destruct i; simpl; intros ->; done. Qed.

Lemma wkg_set_started_undo i : started i = false -> set_started false (set_started true i) = i.
Proof. destruct i; simpl; intros ->; done. Qed.

Lemma wkg_step_focus w l i c :
  bound w l i ->
  step (Executor (Some l)) c w
  = World (<[l := (istep i c).1]> (heap w)) (trace w ++ (istep i c).2).
Proof.
  intros (Hl & Hr & Hj).
  destruct c as [r|err|r p|d sys|]; simpl.
  - unfold resolve, resolve_lambda, upd, emit, exchange; simpl.
    rewrite Hl, Hr; simpl. rewrite Hl.
    destruct (started i) eqn:Hs; simpl; [close_world w Hl|].
    destruct (finished i) eqn:Hf; simpl; heap_norm Hl.
    + rewrite wkg_set_finished_same by done. close_world w Hl.
    + done.
  - unfold reject, reject_lambda, upd, emit, exchange; simpl.
    rewrite Hl.
    destruct (started i) eqn:Hs; simpl.
    + destruct (0 <=? write_fd i) eqn:Hfd; simpl; heap_norm Hl; close_world w Hl.
    + rewrite Hj; simpl. rewrite Hl.
      destruct (finished i) eqn:Hf; simpl; heap_norm Hl.
      * rewrite wkg_set_finished_same by done. close_world w Hl.
      * done.
  - unfold start, upd, emit, exchange; simpl. rewrite Hl.
    destruct (started i) eqn:Hs; simpl.
    + heap_norm Hl. close_world w Hl.
    + destruct (finished i) eqn:Hf; simpl.
      * heap_norm Hl. close_world w Hl.
      * destruct p as [[rfd wfd]|]; simpl; heap_norm Hl.
        -- done.
        -- rewrite wkg_set_started_undo by done. close_world w Hl.
  - unfold write; simpl. rewrite Hl.
    destruct (negb (started i) || finished i || (write_fd i <? 0)); simpl;
      close_world w Hl.
  - unfold finish, upd, emit, exchange; simpl. rewrite Hl.
    destruct (started i) eqn:Hs; simpl; [|close_world w Hl].
    destruct (finished i) eqn:Hf; simpl; heap_norm Hl.
    + rewrite wkg_set_finished_same by done. close_world w Hl.
    + destruct (0 <=? write_fd i) eqn:Hfd; simpl; heap_norm Hl; close_world w Hl.
Qed.

Lemma wkg_istep_static i c :
  request (istep i c).1 = request i /\
  resolve_fn (istep i c).1 = resolve_fn i /\
  reject_fn (istep i c).1 = reject_fn i.
Proof.
  destruct c as [r|err|r [[rfd wfd]|]|d sys|]; simpl;
    repeat match goal with |- context [if ?b then _ else _] => destruct b end;
    simpl; done.
Qed.

Lemma wkg_bound_step w l i c :
  bound w l i -> bound (step (Executor (Some l)) c w) l (istep i c).1.
Proof.
  intros Hb. rewrite (wkg_step_focus _ _ _ _ Hb).
  destruct Hb as (Hl & Hr & Hj).
  destruct (wkg_istep_static i c) as (E1 & E2 & E3).
  unfold bound; simpl. rewrite lookup_insert_eq, E1, E2, E3. done.
Qed.

Lemma wkg_run_focus cs : forall w l i,
  bound w l i ->
  run (Executor (Some l)) cs w
  = World (<[l := (irun i cs).1]> (heap w)) (trace w ++ (irun i cs).2)
  /\ bound (run (Executor (Some l)) cs w) l (irun i cs).1.
Proof.
  induction cs as [|c cs IH]; intros w l i Hb.
  - simpl. split; [|done]. destruct Hb as (Hl & _). close_world w Hl.
  - simpl. pose proof (wkg_bound_step _ _ _ c Hb) as Hb'.
    destruct (IH _ _ _ Hb') as [E Hb2]. unfold run in *. rewrite E.
    rewrite (wkg_step_focus _ _ _ _ Hb). simpl.
    destruct (istep i c) as [i1 t1]; simpl in *.
    destruct (irun i1 cs) as [i2 t2]; simpl in *.
    rewrite insert_insert_eq, <- app_assoc. split; [done|].
    destruct Hb2 as (_ & Hr2 & Hj2).
    unfold bound; simpl. rewrite lookup_insert_eq. done.
Qed.

Lemma wkg_fd_inv_step i c : fd_inv i -> fd_inv (istep i c).1.
Proof.
  unfold fd_inv. intros Hinv.
  destruct c as [r|err|r [[rfd wfd]|]|d sys|]; simpl;
    destruct (started i) eqn:Hs, (finished i) eqn:Hf; simpl;
    repeat match goal with |- context [if ?b then _ else _] => destruct b eqn:? end;
    simpl; rewrite ?Hs, ?Hf; intros; try tauto; try lia.
Qed.

Lemma wkg_terminal_step i c :
  terminal i -> fd_inv i ->
  (istep i c).2 = [] /\ terminal (istep i c).1.
Proof.
  unfold terminal, fd_inv. intros Hf Hinv.
  assert (Hfd : (0 <=? write_fd i) = false).
  { apply Z.leb_gt. destruct (Z.lt_ge_cases (write_fd i) 0) as [|Hge]; [done|].
    apply Hinv in Hge. destruct Hge as [_ Hge]. congruence. }
  destruct c as [r|err|r [[rfd wfd]|]|d sys|]; simpl; rewrite ?Hf, ?Hfd;
    destruct (started i); simpl; rewrite ?Hf; done.
Qed.

Lemma wkg_terminal_run cs : forall i,
  terminal i -> fd_inv i ->
  (irun i cs).2 = [] /\ terminal (irun i cs).1.
Proof.
  induction cs as [|c cs IH]; intros i Hf Hinv; simpl; [done|].
  destruct (wkg_terminal_step i c Hf Hinv) as [E Ht].
  pose proof (wkg_fd_inv_step i c Hinv) as Hinv'.
  destruct (istep i c) as [i1 t1]; simpl in *. subst t1.
  destruct (IH i1 Ht Hinv') as [E2 Ht2].
  destruct (irun i1 cs) as [i2 t2]; simpl in *. by subst.
Qed.

Lemma wkg_deliveries_app t1 t2 : deliveries (t1 ++ t2) = (deliveries t1 + deliveries t2)%nat.
Proof. unfold deliveries. by rewrite filter_app, length_app. Qed.

Lemma wkg_write_loop_no_delivery fd sys : forall buf,
  deliveries (write_loop fd sys buf).1 = 0%nat.
Proof.
  induction sys as [|r sys IH]; intros buf; destruct buf as [|b buf];
    cbn [write_loop]; try done.
  destruct r as [n|errno].
  - destruct (n <=? length (b :: buf))%nat; [|done].
    specialize (IH (drop n (b :: buf))).
    destruct (write_loop fd sys (drop n (b :: buf))) as [evs x]. simpl in *. done.
  - destruct (errno =? EINTR); [|done].
    specialize (IH (b :: buf)).
    destruct (write_loop fd sys (b :: buf)) as [evs x]. simpl in *. done.
Qed.

Lemma wkg_busy_step i c :
  started i || finished i = true ->
  deliveries (istep i c).2 = 0%nat /\
  started (istep i c).1 || finished (istep i c).1 = true.
Proof.
  intros Hb.
  destruct c as [r|err|r [[rfd wfd]|]|d sys|]; simpl; rewrite ?Hb; simpl;
    try (split; [done|]; destruct (started i), (finished i); simpl in *; done).
  - destruct (started i) eqn:Hs; simpl.
    + destruct (0 <=? write_fd i); simpl; rewrite ?Hs; done.
    + simpl in Hb. rewrite Hb. simpl. by rewrite Hs, Hb.
  - destruct (negb (started i) || finished i || (write_fd i <? 0)); simpl;
      [done|]. split; [apply wkg_write_loop_no_delivery|done].
  - destruct (negb (started i) || finished i) eqn:E; simpl; [done|].
    destruct (0 <=? write_fd i); simpl; split; try done;
      destruct (started i); simpl in *; done.
Qed.

Lemma wkg_idle_step i c :
  started i || finished i = false ->
  (deliveries (istep i c).2 = 0%nat) \/
  (deliveries (istep i c).2 = 1%nat /\
   started (istep i c).1 || finished (istep i c).1 = true).
Proof.
  intros Hb. apply orb_false_elim in Hb as [Hs Hf].
  destruct c as [r|err|r [[rfd wfd]|]|d sys|]; simpl; rewrite ?Hs, ?Hf; simpl;
    try (by left); right; simpl; rewrite ?Hs, ?Hf; done.
Qed.

Lemma wkg_busy_run cs : forall i,
  started i || finished i = true -> deliveries (irun i cs).2 = 0%nat.
Proof.
  induction cs as [|c cs IH]; intros i Hb; simpl; [done|].
  destruct (wkg_busy_step i c Hb) as [E Hb'].
  destruct (istep i c) as [i1 t1]; simpl in *.
  specialize (IH i1 Hb'). destruct (irun i1 cs) as [i2 t2]; simpl in *.
  rewrite wkg_deliveries_app. lia.
Qed.

Lemma wkg_deliveries_run cs : forall i, (deliveries (irun i cs).2 <= 1)%nat.
Proof.
  induction cs as [|c cs IH]; intros i; simpl; [unfold deliveries; simpl; lia|].
  destruct (started i || finished i) eqn:Hb.
  - pose proof (wkg_busy_run (c :: cs) i Hb) as E. simpl in E.
    destruct (istep i c) as [i1 t1]; destruct (irun i1 cs) as [i2 t2]. simpl in *. lia.
  - destruct (wkg_idle_step i c Hb) as [E|[E Hb']].
    + specialize (IH (istep i c).1).
      destruct (istep i c) as [i1 t1]; simpl in *.
      destruct (irun i1 cs) as [i2 t2]; simpl in *.
      rewrite wkg_deliveries_app. lia.
    + pose proof (wkg_busy_run cs _ Hb') as E2.
      destruct (istep i c) as [i1 t1]; simpl in *.
      destruct (irun i1 cs) as [i2 t2]; simpl in *.
      rewrite wkg_deliveries_app. lia.
Qed.


Lemma wkg_write_loop_bytes fd sys : forall buf,
  exists rest,
    buf = pipe_bytes fd (write_loop fd sys buf).1 ++ rest /\
    ((write_loop fd sys buf).2 = loop_done -> rest = []).
Proof.
  induction sys as [|r sys IH]; intros buf; destruct buf as [|b buf];
    cbn [write_loop].
  - exists []. done.
  - exists (b :: buf). done.
  - exists []. done.
  - destruct r as [n|errno].
    + destruct (n <=? length (b :: buf))%nat eqn:Hn.
      * destruct (IH (drop n (b :: buf))) as (rest & E & Hd).
        destruct (write_loop fd sys (drop n (b :: buf))) as [evs x].
        cbn [fst snd pipe_bytes] in *.
        rewrite Z.eqb_refl. exists rest. split; [|done].
        rewrite <- app_assoc, <- E. by rewrite take_drop.
      * apply Nat.leb_gt in Hn. exists []. cbn [fst snd pipe_bytes].
        rewrite Z.eqb_refl. split; [|done].
        rewrite take_ge by lia. by rewrite !app_nil_r.
    + destruct (errno =? EINTR).
      * destruct (IH (b :: buf)) as (rest & E & Hd).
        destruct (write_loop fd sys (b :: buf)) as [evs x]. simpl in *.
        exists rest. done.
      * exists (b :: buf). done.
Qed.

Lemma wkg_write_loop_done fd sys : forall buf,
  only_interrupted sys -> within_offer sys (length buf) ->
  (length buf <= accepted sys)%nat ->
  (write_loop fd sys buf).2 = loop_done.
Proof.
  induction sys as [|r sys IH]; intros buf Hok Hin Hlen; destruct buf as [|b buf];
    cbn [write_loop accepted length] in *; try done; try lia.
  inversion Hok as [|r' sys' Hr Hrest]; subst.
  destruct r as [n|errno].
  - cbn [within_offer] in Hin. destruct Hin as [Hn Hin].
    assert (E : (n <=? S (length buf))%nat = true) by (by apply Nat.leb_le).
    rewrite E.
    specialize (IH (drop n (b :: buf)) Hrest).
    rewrite length_drop in IH. cbn [length] in IH.
    destruct (write_loop fd sys (drop n (b :: buf))) as [evs x]. cbn [snd] in *.
    apply IH; [done|lia].
  - subst errno. cbn [within_offer] in Hin. rewrite Z.eqb_refl in Hin |- *.
    specialize (IH (b :: buf) Hrest Hin Hlen).
    destruct (write_loop fd sys (b :: buf)) as [evs x]. done.
Qed.

Lemma wkg_write_loop_break fd sys : forall buf,
  (write_loop fd sys buf).2 = loop_break ->
  exists errno, errno <> EINTR /\ In (sys_failed errno) sys.
Proof.
  induction sys as [|r sys IH]; intros buf Hx; destruct buf as [|b buf];
    cbn [write_loop] in *; try done.
  destruct r as [n|errno].
  - destruct (n <=? length (b :: buf))%nat; [|done].
    specialize (IH (drop n (b :: buf))).
    destruct (write_loop fd sys (drop n (b :: buf))) as [evs x]. simpl in *.
    destruct (IH Hx) as (errno & Hne & Hin). eauto.
  - destruct (errno =? EINTR) eqn:E.
    + specialize (IH (b :: buf)).
      destruct (write_loop fd sys (b :: buf)) as [evs x]. simpl in *.
      destruct (IH Hx) as (errno' & Hne & Hin). eauto.
    + apply Z.eqb_neq in E. simpl. eauto.
Qed.

Lemma wkg_write_loop_stops fd sys1 errno sys2 : forall buf,
  errno <> EINTR -> (write_loop fd sys1 buf).2 = loop_pending ->
  exists rest,
    rest <> [] /\
    buf = pipe_bytes fd (write_loop fd sys1 buf).1 ++ rest /\
    write_loop fd (sys1 ++ sys_failed errno :: sys2) buf
    = ((write_loop fd sys1 buf).1 ++ [sys_write fd rest (sys_failed errno)],
       loop_break).
Proof.
  intros buf Hne. apply Z.eqb_neq in Hne. revert buf.
  induction sys1 as [|r sys1 IH]; intros buf Hx; destruct buf as [|b buf];
    cbn [write_loop app] in *; try done.
  - exists (b :: buf). rewrite Hne. done.
  - destruct r as [n|e].
    + destruct (n <=? length (b :: buf))%nat; [|done].
      specialize (IH (drop n (b :: buf))).
      destruct (write_loop fd sys1 (drop n (b :: buf))) as [evs x].
      cbn [fst snd] in *. destruct (IH Hx) as (rest & Hrest & E & ->).
      exists rest. split; [done|]. split; [|done].
      cbn [pipe_bytes]. rewrite Z.eqb_refl, <- app_assoc, <- E.
      by rewrite take_drop.
    + destruct (e =? EINTR); [|done].
      specialize (IH (b :: buf)).
      destruct (write_loop fd sys1 (b :: buf)) as [evs x].
      cbn [fst snd] in *. destruct (IH Hx) as (rest & Hrest & E & ->).
      exists rest. done.
Qed.

Lemma wkg_write_keeps_heap e d sys w : heap (write e d sys w) = heap w.
Proof.
  unfold write. destruct (m_impl e) as [l|]; [|done].
  destruct (heap w !! l) as [i|]; [|done].
  by destruct (negb (started i) || finished i || (write_fd i <? 0)).
Qed.

Lemma wkg_pipe_bytes_app fd t1 t2 :
  pipe_bytes fd (t1 ++ t2) = pipe_bytes fd t1 ++ pipe_bytes fd t2.
Proof.
  induction t1 as [|e t1 IH]; simpl; [done|].
  destruct e as [| |fd' buf [n|errno]|]; try done.
  destruct (fd' =? fd); [|done]. by rewrite IH, app_assoc.
Qed.




Lemma wkg_write_loop_events fd sys : forall buf,
  Forall (fun e => exists b r, e = sys_write fd b r) (write_loop fd sys buf).1.
Proof.
  induction sys as [|r sys IH]; intros buf; destruct buf as [|b buf];
    cbn [write_loop]; try by constructor.
  destruct r as [n|errno].
  - destruct (n <=? length (b :: buf))%nat; [|repeat constructor; eauto].
    specialize (IH (drop n (b :: buf))).
    destruct (write_loop fd sys (drop n (b :: buf))) as [evs x]. simpl in *.
    constructor; eauto.
  - destruct (errno =? EINTR).
    + specialize (IH (b :: buf)).
      destruct (write_loop fd sys (b :: buf)) as [evs x]. simpl in *.
      constructor; eauto.
    + repeat constructor; eauto.
Qed.

End WkgFacts.

(** ** WebKit *)

Module WkFacts.
Import Wk.

Lemma wk_set_finished_same i : finished i = true -> set_finished true i = i.
Proof. destruct i; simpl; intros ->; done. Qed.

Lemma wk_set_started_undo i : started i = false -> set_started false (set_started true i) = i.
Proof. destruct i; simpl; intros ->; done. Qed.

Lemma wk_step_focus w l i c :
  bound w l i ->
  step (Executor (Some l)) c w
  = World (<[l := (istep i (m_tasks w) c).1.1]> (heap w))
          (istep i (m_tasks w) c).1.2
          (trace w ++ (istep i (m_tasks w) c).2).
Proof.
  intros (Hl & Hr & Hj).
  destruct c as [r|err|r|d|]; simpl.
  - unfold resolve, resolve_lambda, upd, emit, erase, exchange; simpl.
    rewrite Hl, Hr; simpl. rewrite Hl.
    destruct (started i) eqn:Hs; simpl; [close_world w Hl|].
    destruct (finished i) eqn:Hf; simpl; heap_norm Hl.
    + rewrite wk_set_finished_same by done. close_world w Hl.
    + destruct (m_tasks w !! handle i) as [t|] eqn:Ht; simpl.
      * rewrite <- !app_assoc. done.
      * close_world w Hl.
  - unfold reject, reject_tail, reject_lambda, upd, emit, erase, exchange, fail_event; simpl.
    rewrite Hl.
    destruct (started i) eqn:Hs, (finished i) eqn:Hf; simpl.
    + heap_norm Hl. rewrite wk_set_finished_same by done.
      rewrite Hj; simpl. heap_norm Hl. rewrite Hf.
      heap_norm Hl. rewrite wk_set_finished_same by done. close_world w Hl.
    + heap_norm Hl.
      destruct (m_tasks w !! handle i) as [t|] eqn:Ht; simpl; close_world w Hl.
    + rewrite ?Hl, Hj; simpl. rewrite ?Hl, ?Hf. heap_norm Hl.
      rewrite wk_set_finished_same by done. close_world w Hl.
    + rewrite ?Hl, Hj; simpl. rewrite ?Hl, ?Hf. heap_norm Hl.
      destruct (m_tasks w !! handle i) as [t|] eqn:Ht; simpl; close_world w Hl.
  - unfold start, upd, emit, exchange; simpl. rewrite Hl.
    destruct (started i) eqn:Hs; simpl.
    + heap_norm Hl. close_world w Hl.
    + destruct (finished i) eqn:Hf; simpl.
      * heap_norm Hl. close_world w Hl.
      * destruct (m_tasks w !! handle i) as [t|] eqn:Ht; simpl; heap_norm Hl.
        -- done.
        -- rewrite wk_set_started_undo by done. close_world w Hl.
  - unfold write, emit; simpl. rewrite Hl.
    destruct (negb (started i) || finished i); simpl; [close_world w Hl|].
    destruct (m_tasks w !! handle i) as [t|] eqn:Ht; simpl; close_world w Hl.
  - unfold finish, upd, emit, erase, exchange; simpl. rewrite Hl.
    destruct (started i) eqn:Hs; simpl; [|close_world w Hl].
    destruct (finished i) eqn:Hf; simpl; heap_norm Hl.
    + rewrite wk_set_finished_same by done. close_world w Hl.
    + destruct (m_tasks w !! handle i) as [t|] eqn:Ht; simpl; close_world w Hl.
Qed.

Lemma wk_istep_static i m c :
  handle (istep i m c).1.1 = handle i /\
  resolve_fn (istep i m c).1.1 = resolve_fn i /\
  reject_fn (istep i m c).1.1 = reject_fn i.
Proof.
  destruct c as [r|err|r|d|]; simpl;
    repeat match goal with
           | |- context [if ?b then _ else _] => destruct b
           | |- context [match ?o with Some _ => _ | None => _ end] => destruct o
           end; simpl; done.
Qed.

Lemma wk_bound_step w l i c :
  bound w l i ->
  bound (step (Executor (Some l)) c w) l (istep i (m_tasks w) c).1.1.
Proof.
  intros Hb. rewrite (wk_step_focus _ _ _ _ Hb).
  destruct Hb as (Hl & Hr & Hj).
  destruct (wk_istep_static i (m_tasks w) c) as (E1 & E2 & E3).
  unfold bound; simpl. rewrite lookup_insert_eq, E1, E2, E3. done.
Qed.

Lemma wk_run_focus cs : forall w l i,
  bound w l i ->
  run (Executor (Some l)) cs w
  = World (<[l := (irun i (m_tasks w) cs).1.1]> (heap w))
          (irun i (m_tasks w) cs).1.2
          (trace w ++ (irun i (m_tasks w) cs).2)
  /\ bound (run (Executor (Some l)) cs w) l (irun i (m_tasks w) cs).1.1.
Proof.
  induction cs as [|c cs IH]; intros w l i Hb.
  - simpl. split; [|done]. destruct Hb as (Hl & _). close_world w Hl.
  - simpl. pose proof (wk_bound_step _ _ _ c Hb) as Hb'.
    destruct (IH _ _ _ Hb') as [E Hb2]. unfold run in *. rewrite E. clear E.
    rewrite (wk_step_focus _ _ _ _ Hb) in Hb2 |- *. simpl in *.
    destruct (istep i (m_tasks w) c) as [[i1 m1] t1]; simpl in *.
    destruct (irun i1 m1 cs) as [[i2 m2] t2]; simpl in *.
    rewrite insert_insert_eq, <- app_assoc. split; [done|].
    destruct Hb2 as (_ & Hr2 & Hj2).
    unfold bound; simpl. rewrite lookup_insert_eq. done.
Qed.



Lemma wk_terminal_step i m c :
  terminal i ->
  (istep i m c).2 = [] /\ (istep i m c).1.2 = m /\ terminal (istep i m c).1.1.
Proof.
  unfold terminal. intros Hf.
  destruct c as [r|err|r|d|]; simpl; rewrite ?Hf;
    destruct (started i); simpl; done.
Qed.

Lemma wk_terminal_run cs : forall i m,
  terminal i ->
  (irun i m cs).2 = [] /\ (irun i m cs).1.2 = m /\ terminal (irun i m cs).1.1.
Proof.
  induction cs as [|c cs IH]; intros i m Hf; simpl; [done|].
  destruct (wk_terminal_step i m c Hf) as (E & Em & Ht).
  destruct (istep i m c) as [[i1 m1] t1]; simpl in *. subst.
  destruct (IH i1 m Ht) as (E2 & Em2 & Ht2).
  destruct (irun i1 m cs) as [[i2 m2] t2]; simpl in *. by subst.
Qed.

Lemma wk_cancelled_step i m c :
  m !! handle i = None ->
  (istep i m c).2 = [] /\ (istep i m c).1.2 = m.
Proof.
  intros Hm.
  destruct c as [r|err|r|d|]; simpl; rewrite ?Hm;
    repeat match goal with
           | |- context [if ?b then _ else _] => destruct b
           end; simpl; done.
Qed.

Lemma wk_cancelled_run cs : forall i m,
  m !! handle i = None ->
  (irun i m cs).2 = [] /\ (irun i m cs).1.2 = m /\
  handle (irun i m cs).1.1 = handle i.
Proof.
  induction cs as [|c cs IH]; intros i m Hm; simpl; [done|].
  destruct (wk_cancelled_step i m c Hm) as (E & Em).
  destruct (wk_istep_static i m c) as (Eh & _).
  destruct (istep i m c) as [[i1 m1] t1]; simpl in *. subst.
  rewrite <- Eh in Hm.
  destruct (IH i1 m Hm) as (E2 & Em2 & Eh2).
  destruct (irun i1 m cs) as [[i2 m2] t2]; simpl in *. subst.
  split; [done|]. split; [done|]. congruence.
Qed.

End WkFacts.

(** ** Qt *)

Module QtFacts.
Import Qt.

Lemma qt_set_finished_same i : finished i = true -> set_finished true i = i.
Proof. destruct i; simpl; intros ->; done. Qed.

Lemma qt_set_started_undo i : started i = false -> set_started false (set_started true i) = i.
Proof. destruct i; simpl; intros ->; done. Qed.

Lemma qt_step_focus w l i c :
  bound w l i ->
  step (Executor (Some l)) c w
  = World (<[l := (istep (value w (request i)) i c).1]> (heap w))
          (cells w)
          (foldl device_effect (devices w) (istep (value w (request i)) i c).2)
          (connections w)
          (trace w ++ (istep (value w (request i)) i c).2).
Proof.
  intros (Hl & Hr & Hj).
  destruct c as [r|err|r|d|]; simpl.
  - unfold resolve, resolve_lambda, upd, emit, exchange, value; simpl.
    rewrite Hl, Hr; simpl. rewrite Hl.
    destruct (started i) eqn:Hs; simpl; [close_world w Hl|].
    destruct (finished i) eqn:Hf; simpl; heap_norm Hl.
    + rewrite qt_set_finished_same by done. close_world w Hl.
    + destruct (cells w !! request i) as [[j|]|] eqn:Hc; simpl; close_world w Hl.
  - unfold reject, reject_lambda, device_close_write, upd, emit, exchange, value; simpl.
    rewrite Hl, Hj; simpl.
    destruct (started i) eqn:Hs, (device i) as [dv|] eqn:Hd; simpl; rewrite ?Hl;
      destruct (finished i) eqn:Hf; simpl; heap_norm Hl;
      rewrite ?qt_set_finished_same by done;
      try (destruct (cells w !! request i) as [[j|]|] eqn:Hc; simpl);
      close_world w Hl.
  - unfold start, upd, emit, exchange, value; simpl. rewrite Hl.
    destruct (started i) eqn:Hs; simpl.
    + heap_norm Hl. close_world w Hl.
    + destruct (finished i) eqn:Hf; simpl.
      * heap_norm Hl. close_world w Hl.
      * destruct (device i) as [dv|] eqn:Hd; simpl; heap_norm Hl.
        -- destruct (cells w !! request i) as [[j|]|] eqn:Hc; simpl; heap_norm Hl;
             rewrite ?qt_set_started_undo by done; close_world w Hl.
        -- rewrite qt_set_started_undo by done. close_world w Hl.
  - unfold write, device_push, emit; simpl. rewrite Hl.
    destruct (negb (started i) || finished i); simpl; [close_world w Hl|].
    destruct (device i) as [dv|] eqn:Hd; simpl; close_world w Hl.
  - unfold finish, device_close_write, upd, emit, exchange; simpl. rewrite Hl.
    destruct (started i) eqn:Hs; simpl; [|close_world w Hl].
    destruct (finished i) eqn:Hf; simpl; heap_norm Hl.
    + rewrite qt_set_finished_same by done. close_world w Hl.
    + destruct (device i) as [dv|] eqn:Hd; simpl; close_world w Hl.
Qed.

Lemma qt_istep_static req i c :
  request (istep req i c).1 = request i /\
  device (istep req i c).1 = device i /\
  resolve_fn (istep req i c).1 = resolve_fn i /\
  reject_fn (istep req i c).1 = reject_fn i.
Proof.
  destruct c as [r|err|r|d|]; simpl; repeat case_match; simpl; done.
Qed.

Lemma qt_bound_step w l i c :
  bound w l i ->
  bound (step (Executor (Some l)) c w) l (istep (value w (request i)) i c).1.
Proof.
  intros Hb. rewrite (qt_step_focus _ _ _ _ Hb).
  destruct Hb as (Hl & Hr & Hj).
  destruct (qt_istep_static (value w (request i)) i c) as (E1 & E2 & E3 & E4).
  unfold bound; simpl. rewrite lookup_insert_eq, E3, E4. done.
Qed.

Lemma qt_value_world h w d cn t x : value (World h (cells w) d cn t) x = value w x.
Proof. done. Qed.

Lemma qt_run_focus cs : forall w l i,
  bound w l i ->
  run (Executor (Some l)) cs w
  = World (<[l := (irun (value w (request i)) i cs).1]> (heap w))
          (cells w)
          (foldl device_effect (devices w) (irun (value w (request i)) i cs).2)
          (connections w)
          (trace w ++ (irun (value w (request i)) i cs).2)
  /\ bound (run (Executor (Some l)) cs w) l (irun (value w (request i)) i cs).1.
Proof.
  induction cs as [|c cs IH]; intros w l i Hb.
  - simpl. split; [|done]. destruct Hb as (Hl & _). close_world w Hl.
  - pose proof (qt_bound_step _ _ _ c Hb) as Hb'.
    destruct (IH _ _ _ Hb') as [E Hb2].
    change (run (Executor (Some l)) (c :: cs) w)
      with (run (Executor (Some l)) cs (step (Executor (Some l)) c w)).
    rewrite E. clear E IH.
    destruct (qt_istep_static (value w (request i)) i c) as (E1 & _).
    rewrite (qt_step_focus _ _ _ _ Hb) in Hb2 |- *.
    cbn [heap cells devices connections trace] in Hb2 |- *.
    rewrite qt_value_world, E1 in Hb2 |- *.
    cbn [irun].
    destruct (istep (value w (request i)) i c) as [i1 t1].
    cbn [fst snd] in Hb2 |- *.
    destruct (irun (value w (request i)) i1 cs) as [i2 t2].
    cbn [fst snd] in Hb2 |- *.
    rewrite insert_insert_eq, <- app_assoc, foldl_app. split; [done|].
    destruct Hb2 as (_ & Hr2 & Hj2).
    unfold bound; cbn [heap]. rewrite lookup_insert_eq. done.
Qed.



Lemma qt_step_keeps_cells e c w : cells (step e c w) = cells w.
Proof.
  destruct e as [[l|]]; destruct c as [r|err|r|d|]; simpl;
    unfold resolve, resolve_lambda, reject, reject_lambda, start, write, finish,
      device_push, device_close_write, upd, emit, exchange, value; simpl;
    repeat case_match; simpl; done.
Qed.



(** A reader that asks for the whole buffer of a closed device gets its
    bytes in order, and then the end of the stream. *)
Lemma qt_reader_gets_the_bytes p b buf :
  readData (length (b :: buf)) (StreamDevice p (b :: buf) true)
  = Some (Z.of_nat (length (b :: buf)), b :: buf, StreamDevice p [] true) /\
  readData (length (b :: buf)) (StreamDevice p [] true)
  = Some (-1, [], StreamDevice p [] true).
Proof.
  split; [|done]. unfold readData. cbn [m_buffer m_finished parent].
  rewrite Nat.min_id, take_ge, drop_ge by done. done.
Qed.

End QtFacts.

Import WkgFacts WkFacts QtFacts.

(** ** The state machine seen from the world *)

(** WebKitGTK: the object [handle] makes holds no descriptor. *)
Lemma wkg_new_impl_fd_inv raw l : Wkg.fd_inv (Wkg.new_impl raw l).
Proof. unfold Wkg.fd_inv; simpl. lia. Qed.

(** WebKitGTK: whatever is called, and in whatever order, at most one call
    completes the request towards WebKit. *)
Lemma wkg_at_most_one_delivery w l i cs :
  Wkg.bound w l i ->
  exists t,
    Wkg.trace (Wkg.run (Wkg.Executor (Some l)) cs w) = Wkg.trace w ++ t /\
    (Wkg.deliveries t <= 1)%nat.
Proof.
  intros Hb. destruct (wkg_run_focus cs w l i Hb) as [E _].
  exists (Wkg.irun i cs).2. rewrite E. split; [done|apply wkg_deliveries_run].
Qed.

(** WebKitGTK: once the finished flag is set, no call reaches WebKit or the
    pipe any more, and [streaming] answers false. *)
Lemma wkg_terminal_calls_are_silent w l i cs :
  Wkg.bound w l i -> Wkg.terminal i -> Wkg.fd_inv i ->
  Wkg.trace (Wkg.run (Wkg.Executor (Some l)) cs w) = Wkg.trace w /\
  Wkg.streaming (Wkg.Executor (Some l)) (Wkg.run (Wkg.Executor (Some l)) cs w) = false.
Proof.
  intros Hb Ht Hinv. destruct (wkg_run_focus cs w l i Hb) as [E _].
  destruct (wkg_terminal_run cs i Ht Hinv) as [Et Hfin].
  rewrite E, Et. simpl. rewrite app_nil_r. split; [done|].
  unfold Wkg.streaming; simpl. rewrite lookup_insert_eq.
  unfold Wkg.terminal in Hfin. by rewrite Hfin.
Qed.

(** WebKit: once the finished flag is set, no call reaches the task. *)
Lemma wk_terminal_calls_are_silent w l i cs :
  Wk.bound w l i -> Wk.terminal i ->
  Wk.trace (Wk.run (Wk.Executor (Some l)) cs w) = Wk.trace w /\
  Wk.m_tasks (Wk.run (Wk.Executor (Some l)) cs w) = Wk.m_tasks w /\
  Wk.streaming (Wk.Executor (Some l)) (Wk.run (Wk.Executor (Some l)) cs w) = false.
Proof.
  intros Hb Ht. destruct (wk_run_focus cs w l i Hb) as [E _].
  destruct (wk_terminal_run cs i (Wk.m_tasks w) Ht) as (Et & Em & Hfin).
  rewrite E, Et, Em. simpl. rewrite app_nil_r. split; [done|]. split; [done|].
  unfold Wk.streaming; simpl. rewrite lookup_insert_eq.
  unfold Wk.terminal in Hfin. rewrite Hfin. by rewrite andb_false_r.
Qed.

(** WebKit: once [stopURLSchemeTask] has taken the task out of the table,
    no call on its executor reaches the task, and [streaming] answers
    false. *)
Lemma wk_calls_after_stop_are_silent w l i task cs :
  Wk.bound w l i -> Wk.handle i = Wk.task_hash task ->
  Wk.trace (Wk.run (Wk.Executor (Some l)) cs (Wk.stopURLSchemeTask task w))
  = Wk.trace w /\
  Wk.streaming (Wk.Executor (Some l))
    (Wk.run (Wk.Executor (Some l)) cs (Wk.stopURLSchemeTask task w)) = false.
Proof.
  intros Hb Hh.
  assert (Hb' : Wk.bound (Wk.stopURLSchemeTask task w) l i) by exact Hb.
  assert (Hm : Wk.m_tasks (Wk.stopURLSchemeTask task w) !! Wk.handle i = None).
  { simpl. rewrite Hh. apply lookup_delete_eq. }
  destruct (wk_run_focus cs _ l i Hb') as [E _].
  destruct (wk_cancelled_run cs i _ Hm) as (Et & Em & Eh).
  rewrite E, Et, Em. cbn [Wk.trace]. rewrite app_nil_r. split; [done|].
  unfold Wk.streaming. cbn [Wk.m_impl Wk.heap Wk.m_tasks].
  rewrite lookup_insert_eq, Eh, Hm. done.
Qed.

(** In every back end a call that takes effect from Idle leaves Idle, and
    Idle is never entered again: of any sequence of calls at most one finds
    the executor Idle and reaches the toolkit. *)
Lemma wkg_effect_leaves_idle i c :
  (Wkg.started i || Wkg.finished i = true \/ (Wkg.istep i c).2 <> []) ->
  Wkg.started (Wkg.istep i c).1 || Wkg.finished (Wkg.istep i c).1 = true.
Proof.
  destruct c as [r|err|r [[rfd wfd]|]|d sys|]; simpl;
    destruct (Wkg.started i) eqn:Hs, (Wkg.finished i) eqn:Hf; simpl;
    repeat case_match; simpl; rewrite ?Hs, ?Hf; intros [?|?]; done.
Qed.

Lemma wkg_idle_effects_busy cs : forall i,
  Wkg.started i || Wkg.finished i = true -> Wkg.idle_effects i cs = 0%nat.
Proof.
  induction cs as [|c cs IH]; intros i Hb; simpl; [done|].
  rewrite Hb, IH by (apply wkg_effect_leaves_idle; by left).
  by destruct (Wkg.istep i c).2.
Qed.

Lemma wkg_idle_effects_at_most_one cs : forall i, (Wkg.idle_effects i cs <= 1)%nat.
Proof.
  induction cs as [|c cs IH]; intros i; simpl; [lia|].
  destruct (Wkg.istep i c).2 as [|e t] eqn:Et.
  - apply IH.
  - rewrite wkg_idle_effects_busy
      by (apply wkg_effect_leaves_idle; right; by rewrite Et).
    destruct (Wkg.started i || Wkg.finished i); lia.
Qed.

Lemma wk_effect_leaves_idle i m c :
  (Wk.started i || Wk.finished i = true \/ (Wk.istep i m c).2 <> []) ->
  Wk.started (Wk.istep i m c).1.1 || Wk.finished (Wk.istep i m c).1.1 = true.
Proof.
  destruct c as [r|err|r|d|]; simpl;
    destruct (Wk.started i) eqn:Hs, (Wk.finished i) eqn:Hf; simpl;
    repeat case_match; simpl; rewrite ?Hs, ?Hf; intros [?|?]; done.
Qed.

Lemma wk_idle_effects_busy cs : forall i m,
  Wk.started i || Wk.finished i = true -> Wk.idle_effects i m cs = 0%nat.
Proof.
  induction cs as [|c cs IH]; intros i m Hb; simpl; [done|].
  rewrite Hb, IH by (apply wk_effect_leaves_idle; by left).
  by destruct (Wk.istep i m c).2.
Qed.

Lemma wk_idle_effects_at_most_one cs : forall i m, (Wk.idle_effects i m cs <= 1)%nat.
Proof.
  induction cs as [|c cs IH]; intros i m; simpl; [lia|].
  destruct (Wk.istep i m c).2 as [|e t] eqn:Et.
  - apply IH.
  - rewrite wk_idle_effects_busy
      by (apply wk_effect_leaves_idle; right; by rewrite Et).
    destruct (Wk.started i || Wk.finished i); lia.
Qed.

Lemma qt_effect_leaves_idle req i c :
  (Qt.started i || Qt.finished i = true \/ (Qt.istep req i c).2 <> []) ->
  Qt.started (Qt.istep req i c).1 || Qt.finished (Qt.istep req i c).1 = true.
Proof.
  destruct c as [r|err|r|d|]; simpl;
    destruct (Qt.started i) eqn:Hs, (Qt.finished i) eqn:Hf; simpl;
    repeat case_match; simpl; rewrite ?Hs, ?Hf; intros [?|?]; done.
Qed.

Lemma qt_idle_effects_busy req cs : forall i,
  Qt.started i || Qt.finished i = true -> Qt.idle_effects req i cs = 0%nat.
Proof.
  induction cs as [|c cs IH]; intros i Hb; simpl; [done|].
  rewrite Hb, IH by (apply qt_effect_leaves_idle; by left).
  by destruct (Qt.istep req i c).2.
Qed.

Lemma qt_idle_effects_at_most_one req cs : forall i,
  (Qt.idle_effects req i cs <= 1)%nat.
Proof.
  induction cs as [|c cs IH]; intros i; simpl; [lia|].
  destruct (Qt.istep req i c).2 as [|e t] eqn:Et.
  - apply IH.
  - rewrite qt_idle_effects_busy
      by (apply qt_effect_leaves_idle; right; by rewrite Et).
    destruct (Qt.started i || Qt.finished i); lia.
Qed.

(** Qt: on an executor whose stream was started, [reject] calls
    [close_write] on the device whether or not the executor is finished. *)
Lemma qt_reject_closes_whenever_started w l i d err :
  Qt.bound w l i -> Qt.started i = true -> Qt.finished i = true ->
  Qt.device i = Some d ->
  Qt.trace (Qt.reject (Qt.Executor (Some l)) err w) = Qt.trace w ++ [Qt.close_write d].
Proof.
  intros Hb Hs Hf Hd.
  pose proof (qt_step_focus w l i (Qt.call_reject err) Hb) as E.
  simpl in E. rewrite Hs, Hf, Hd in E. simpl in E. by rewrite E.
Qed.

(** Qt: [write] looks at the flags and at the device pointer, not at the
    job pointer. *)
Lemma qt_write_ignores_the_job w l i d data :
  Qt.bound w l i -> Qt.is_streaming i -> Qt.device i = Some d ->
  Qt.trace (Qt.write (Qt.Executor (Some l)) data w) = Qt.trace w ++ [Qt.push d data].
Proof.
  intros Hb [Hs Hf] Hd.
  pose proof (qt_step_focus w l i (Qt.call_write data) Hb) as E.
  simpl in E. rewrite Hs, Hf, Hd in E. simpl in E. by rewrite E.
Qed.

(** Qt: the getters of the request object do not test the job pointer;
    once the job is destroyed, [url] goes through a null pointer. *)
Lemma qt_request_url_after_destroyed :
  Qt.url Samples.qt_req (Qt.destroyed 7 Samples.qt_w0) = Qt.null_dereference.
Proof. by vm_compute. Qed.

(** Qt: once the job pointer is null, [streaming] answers false. *)
Lemma qt_streaming_needs_the_job w l i :
  Qt.bound w l i -> Qt.value w (Qt.request i) = None ->
  Qt.streaming (Qt.Executor (Some l)) w = false.
Proof.
  intros (Hl & _) Hv. unfold Qt.streaming; simpl. rewrite Hl, Hv. done.
Qed.

(** * The statements of the specification *)

(** C1, the failing input: on Qt, after [start] and [finish] the executor
    is Finished (the flag is set and [streaming] answers false), and a
    [reject] that follows calls [close_write] on the device once more. *)
Theorem qt_reject_after_finish_closes_again :
  (exists i,
      Qt.heap (Qt.run Samples.qt_exec
                 [Qt.call_start Samples.octets; Qt.call_finish] Samples.qt_w0)
      !! 0%nat = Some i /\ Qt.terminal i) /\
  Qt.streaming Samples.qt_exec
    (Qt.run Samples.qt_exec [Qt.call_start Samples.octets; Qt.call_finish]
       Samples.qt_w0) = false /\
  Qt.trace (Qt.run Samples.qt_exec
              [Qt.call_start Samples.octets; Qt.call_finish] Samples.qt_w0)
  = [Qt.setAdditionalResponseHeaders 7 (stream_headers Samples.octets);
     Qt.reply_device 7 "application/octet-stream" 0;
     Qt.close_write 0] /\
  Qt.trace (Qt.run Samples.qt_exec
              [Qt.call_start Samples.octets; Qt.call_finish; Qt.call_reject failed]
              Samples.qt_w0)
  = [Qt.setAdditionalResponseHeaders 7 (stream_headers Samples.octets);
     Qt.reply_device 7 "application/octet-stream" 0;
     Qt.close_write 0;
     Qt.close_write 0].
Proof.
  split; [|split; [|split]]; try by vm_compute.
  eexists. split; [vm_compute; reflexivity|]. reflexivity.
Qed.




(** The lambda the dispatcher connected to [QObject::destroyed] runs after
    those connected before it, so the job pointer of the request is null
    once the job is destroyed. *)
Lemma qt_destroyed_nulls_the_cell id cell dev cs h c d t :
  Qt.value (Qt.destroyed id (Qt.World h c d ((id, (cell, dev)) :: cs) t)) cell = None.
Proof.
  unfold Qt.destroyed, Qt.value. cbn [Qt.connections foldr fst snd Qt.cells].
  rewrite Nat.eqb_refl. cbn [Qt.destroyed_lambda].
  unfold Qt.device_close_write, Qt.assign_null, Qt.emit. cbn [Qt.cells].
  by rewrite lookup_insert_eq.
Qed.

(** C3, the failing input: on Qt the request object that
    [handler::requestStarted] hands to the resolver holds the body, read at
    dispatch, and the shared job pointer.  Only [content] is a read of
    captured data.  While the job is alive, [url], [method] and [headers]
    each make a call on the job at every invocation; once Qt has destroyed
    the job, the lambda connected to [QObject::destroyed] has set the
    pointer to null, and [url], [method] and [headers] dereference it:
    the request object is not safe to use after the native request is
    gone.  [content] still returns the body. *)
Theorem request_getters_fail_after_destroyed :
  forall (raw : Qt.job) (self : Qt.handler) (w : Qt.world) (callback : Qt.resolver),
    Qt.handler_resolver self = Some callback ->
    let req :=
      Qt.RequestObject (fresh (dom (Qt.cells w))) (default [] (Qt.requestBody raw)) in
    exists exec w',
      Qt.requestStarted raw self w = callback req exec w' /\
      Qt.content req = default [] (Qt.requestBody raw) /\
      Qt.url req w'
      = Qt.returned (Qt.requestUrl raw) [Qt.get_requestUrl (Qt.job_id raw)] /\
      Qt.method req w'
      = Qt.returned (Qt.requestMethod raw) [Qt.get_requestMethod (Qt.job_id raw)] /\
      (exists m, Qt.request_headers req w'
                 = Qt.returned m [Qt.get_requestHeaders (Qt.job_id raw)]) /\
      Qt.url req (Qt.destroyed (Qt.job_id raw) w') = Qt.null_dereference /\
      Qt.method req (Qt.destroyed (Qt.job_id raw) w') = Qt.null_dereference /\
      Qt.request_headers req (Qt.destroyed (Qt.job_id raw) w') = Qt.null_dereference.
Proof.
  intros raw self w callback H req. unfold Qt.requestStarted. rewrite H.
  eexists _, _. split; [reflexivity|]. split; [done|].
  unfold Qt.url, Qt.method, Qt.request_headers. cbn [req Qt.req_request].
  rewrite qt_destroyed_nulls_the_cell.
  unfold Qt.value. cbn [Qt.cells]. rewrite lookup_insert_eq.
  repeat split. by eexists.
Qed.

Lemma request_getters_fail_after_destroyed_witness :
  Qt.url Samples.qt_req Samples.qt_w0
  = Qt.returned "stream://localhost/data"%string [Qt.get_requestUrl 7] /\
  Qt.url Samples.qt_req (Qt.destroyed 7 Samples.qt_w0) = Qt.null_dereference /\
  Qt.method Samples.qt_req (Qt.destroyed 7 Samples.qt_w0) = Qt.null_dereference /\
  Qt.request_headers Samples.qt_req (Qt.destroyed 7 Samples.qt_w0)
  = Qt.null_dereference /\
  Qt.content Samples.qt_req = [].
Proof.
  destruct (request_getters_fail_after_destroyed Samples.qt_raw Samples.qt_handler
              (Qt.World ∅ ∅ ∅ [] []) Samples.qt_keep eq_refl)
    as (exec & w' & E & Hc & Hu & _ & _ & Hdu & Hdm & Hdh).
  change (Samples.qt_w0 = w') in E. rewrite <- E in Hu, Hdu, Hdm, Hdh.
  split; [exact Hu|]. split; [exact Hdu|]. split; [exact Hdm|].
  split; [exact Hdh|exact Hc].
Defined.




(** C5, the failing input: on Qt, once the job of an open stream is
    destroyed the job pointer is null, the stream device is gone with its
    parent and [streaming] answers false, yet a [write] still calls [push]
    on that device. *)
Theorem qt_write_after_destroyed_pushes :
  Qt.value (Qt.destroyed 7 (Qt.start Samples.qt_exec Samples.octets Samples.qt_w0)) 0
  = None /\
  Qt.devices (Qt.destroyed 7 (Qt.start Samples.qt_exec Samples.octets Samples.qt_w0))
  !! 0%nat = None /\
  Qt.streaming Samples.qt_exec
    (Qt.destroyed 7 (Qt.start Samples.qt_exec Samples.octets Samples.qt_w0)) = false /\
  Qt.trace (Qt.write Samples.qt_exec Samples.chunk_a
              (Qt.destroyed 7 (Qt.start Samples.qt_exec Samples.octets Samples.qt_w0)))
  = Qt.trace (Qt.destroyed 7 (Qt.start Samples.qt_exec Samples.octets Samples.qt_w0))
    ++ [Qt.push 0 Samples.chunk_a].
Proof. split; [|split; [|split]]; by vm_compute. Qed.

(** C6: the error kinds carry the codes 404, 400, 401 and -1, and on an
    Idle executor [reject(not_found)] makes exactly one call on the
    toolkit, the terminal error with the back end's code for "not found"
    (404 in the WebKit network error domain on WebKitGTK, 404 in
    [NSURLErrorDomain] on WebKit while the task is in the table,
    [UrlNotFound] on Qt while the job is alive); no response or header is
    delivered, and the executor is terminal afterwards. *)
Theorem reject_not_found_before_stream :
  (to_underlying not_found = 404 /\ to_underlying invalid = 400 /\
   to_underlying denied = 401 /\ to_underlying failed = -1) /\
  (forall (w : Wkg.world) (l : loc) (i : Wkg.impl),
      Wkg.bound w l i -> Wkg.idle i ->
      Wkg.reject (Wkg.Executor (Some l)) not_found w
      = Wkg.World (<[l := Wkg.set_finished true i]> (Wkg.heap w))
          (Wkg.trace w ++ [Wkg.finish_error (Wkg.request i) 404 "not_found"])) /\
  (forall (w : Wk.world) (l : loc) (i : Wk.impl) (t : Wk.task_ref),
      Wk.bound w l i -> Wk.idle i -> Wk.m_tasks w !! Wk.handle i = Some t ->
      Wk.reject (Wk.Executor (Some l)) not_found w
      = Wk.World (<[l := Wk.set_finished true i]> (Wk.heap w))
          (delete (Wk.handle i) (Wk.m_tasks w))
          (Wk.trace w ++
           [Wk.Event t Wk.in_place (Wk.didFailWithError Wk.NSURLErrorDomain 404)])) /\
  (forall (w : Qt.world) (l : loc) (i : Qt.impl) (j : Qt.job),
      Qt.bound w l i -> Qt.idle i -> Qt.value w (Qt.request i) = Some j ->
      Qt.trace (Qt.reject (Qt.Executor (Some l)) not_found w)
      = Qt.trace w ++ [Qt.fail (Qt.job_id j) Qt.UrlNotFound] /\
      Qt.heap (Qt.reject (Qt.Executor (Some l)) not_found w)
      = <[l := Qt.set_finished true i]> (Qt.heap w)).
Proof.
  split; [done|]. split; [|split].
  - intros w l i Hb [Hs Hf].
    pose proof (wkg_step_focus w l i (Wkg.call_reject not_found) Hb) as E.
    simpl in E. rewrite Hs, Hf in E. exact E.
  - intros w l i t Hb [Hs Hf] Hm.
    pose proof (wk_step_focus w l i (Wk.call_reject not_found) Hb) as E.
    simpl in E. rewrite Hs, Hf, Hm in E. exact E.
  - intros w l i j Hb [Hs Hf] Hv.
    pose proof (qt_step_focus w l i (Qt.call_reject not_found) Hb) as E.
    simpl in E. rewrite Hs, Hf, Hv in E. simpl in E. rewrite E. done.
Qed.

Lemma reject_not_found_before_stream_witness :
  Wkg.trace (Wkg.reject Samples.wkg_exec not_found Samples.wkg_w0)
  = [Wkg.finish_error 7 404 "not_found"] /\
  Wk.trace (Wk.reject Samples.wk_exec not_found Samples.wk_w0)
  = [Wk.Event Samples.wk_task Wk.in_place
       (Wk.didFailWithError "NSURLErrorDomain" 404)] /\
  Qt.trace (Qt.reject Samples.qt_exec not_found Samples.qt_w0)
  = [Qt.fail 7 Qt.UrlNotFound].
Proof.
  destruct reject_not_found_before_stream as (_ & A & B & C).
  split; [|split].
  - refine (eq_trans (f_equal Wkg.trace
              (A Samples.wkg_w0 0%nat (Wkg.new_impl Samples.wkg_raw 0) _ _)) _).
    + vm_compute; repeat split; reflexivity.
    + vm_compute; split; reflexivity.
    + reflexivity.
  - refine (eq_trans (f_equal Wk.trace
              (B Samples.wk_w0 0%nat (Wk.new_impl Samples.wk_task 42 0)
                 Samples.wk_task _ _ _)) _).
    + vm_compute; repeat split; reflexivity.
    + vm_compute; split; reflexivity.
    + vm_compute; reflexivity.
    + reflexivity.
  - refine (eq_trans (proj1
              (C Samples.qt_w0 0%nat (Qt.new_impl 0 0 0) Samples.qt_raw _ _ _)) _).
    + vm_compute; repeat split; reflexivity.
    + vm_compute; split; reflexivity.
    + vm_compute; reflexivity.
    + reflexivity.
Defined.



(** C8: when the resource [start] needs cannot be had (the pipe cannot be
    created on WebKitGTK; the task is no longer in the table on WebKit; the
    device or the job pointer is null on Qt), an Idle executor is left
    exactly as it was and nothing is called: the world after the call is the
    world before it, so later calls behave as if the failed [start] had not
    happened.  On WebKitGTK a following resolve, reject or start (whose pipe
    is created) then takes effect: the request is finished with the
    response (mime type and headers as C strings, the status converted to
    the unsigned type of the call), with the error, or with the streamed
    response. *)
Theorem failed_start_leaves_executor_idle :
  (forall (w : Wkg.world) (l : loc) (i : Wkg.impl) (r : stream_response),
      Wkg.bound w l i -> Wkg.idle i ->
      Wkg.start (Wkg.Executor (Some l)) r None w = w /\
      (forall cs, Wkg.run (Wkg.Executor (Some l)) (Wkg.call_start r None :: cs) w
                  = Wkg.run (Wkg.Executor (Some l)) cs w) /\
      (forall resp,
          Wkg.trace (Wkg.resolve (Wkg.Executor (Some l)) resp
                       (Wkg.start (Wkg.Executor (Some l)) r None w))
          = Wkg.trace w ++
            [Wkg.finish_with_response (Wkg.request i)
               (Wkg.UriSchemeResponse (Wkg.memory_input_stream (data resp))
                  (Z.of_nat (length (data resp))) (c_str (mime resp))
                  (Wkg.to_guint (status resp))
                  (Wkg.soup_headers (headers resp)))]) /\
      (forall err,
          Wkg.trace (Wkg.reject (Wkg.Executor (Some l)) err
                       (Wkg.start (Wkg.Executor (Some l)) r None w))
          = Wkg.trace w ++
            [Wkg.finish_error (Wkg.request i) (to_underlying err)
               (default "unknown"%string (find_enum_name err))]) /\
      (forall r' rfd wfd,
          Wkg.trace (Wkg.start (Wkg.Executor (Some l)) r' (Some (rfd, wfd))
                       (Wkg.start (Wkg.Executor (Some l)) r None w))
          = Wkg.trace w ++
            [Wkg.finish_with_response (Wkg.request i)
               (Wkg.UriSchemeResponse (Wkg.unix_input_stream rfd) (-1)
                  (c_str (stream_mime r')) (Wkg.to_guint (stream_status r'))
                  (Wkg.soup_headers (stream_headers r')))])) /\
  (forall (w : Wk.world) (l : loc) (i : Wk.impl) (r : stream_response),
      Wk.bound w l i -> Wk.idle i -> Wk.m_tasks w !! Wk.handle i = None ->
      Wk.start (Wk.Executor (Some l)) r w = w /\
      (forall cs, Wk.run (Wk.Executor (Some l)) (Wk.call_start r :: cs) w
                  = Wk.run (Wk.Executor (Some l)) cs w)) /\
  (forall (w : Qt.world) (l : loc) (i : Qt.impl) (r : stream_response),
      Qt.bound w l i -> Qt.idle i ->
      Qt.device i = None \/ Qt.value w (Qt.request i) = None ->
      Qt.start (Qt.Executor (Some l)) r w = w /\
      (forall cs, Qt.run (Qt.Executor (Some l)) (Qt.call_start r :: cs) w
                  = Qt.run (Qt.Executor (Some l)) cs w)).
Proof.
  split; [|split].
  - intros w l i r Hb [Hs Hf].
    assert (E : Wkg.start (Wkg.Executor (Some l)) r None w = w).
    { pose proof (wkg_step_focus w l i (Wkg.call_start r None) Hb) as E.
      simpl in E. rewrite Hs, Hf in E. simpl in E. rewrite E.
      destruct Hb as (Hl & _). close_world w Hl. }
    split; [done|]. split; [intros cs; simpl; by rewrite E|].
    rewrite E. split; [|split].
    + intros resp.
      pose proof (wkg_step_focus w l i (Wkg.call_resolve resp) Hb) as E'.
      simpl in E'. rewrite Hs, Hf in E'. simpl in E'. by rewrite E'.
    + intros err.
      pose proof (wkg_step_focus w l i (Wkg.call_reject err) Hb) as E'.
      simpl in E'. rewrite Hs, Hf in E'. simpl in E'. by rewrite E'.
    + intros r' rfd wfd.
      pose proof (wkg_step_focus w l i (Wkg.call_start r' (Some (rfd, wfd))) Hb) as E'.
      simpl in E'. rewrite Hs, Hf in E'. simpl in E'. by rewrite E'.
  - intros w l i r Hb [Hs Hf] Hm.
    assert (E : Wk.start (Wk.Executor (Some l)) r w = w).
    { pose proof (wk_step_focus w l i (Wk.call_start r) Hb) as E.
      simpl in E. rewrite Hs, Hf, Hm in E. simpl in E. rewrite E.
      destruct Hb as (Hl & _). close_world w Hl. }
    split; [done|]. intros cs; simpl; by rewrite E.
  - intros w l i r Hb [Hs Hf] Hno.
    assert (E : Qt.start (Qt.Executor (Some l)) r w = w).
    { pose proof (qt_step_focus w l i (Qt.call_start r) Hb) as E.
      simpl in E. rewrite Hs, Hf in E. simpl in E.
      assert (E2 : (match Qt.device i with
                    | Some d =>
                        match Qt.value w (Qt.request i) with
                        | Some j =>
                            (Qt.set_started true i,
                             [Qt.setAdditionalResponseHeaders (Qt.job_id j) (stream_headers r);
                              Qt.reply_device (Qt.job_id j) (stream_mime r) d])
                        | None => (i, [])
                        end
                    | None => (i, [])
                    end) = (i, [])).
      { destruct Hno as [-> | ->]; [done|]. by destruct (Qt.device i). }
      rewrite E2 in E. simpl in E. rewrite E.
      destruct Hb as (Hl & _). close_world w Hl. }
    split; [done|]. intros cs; simpl; by rewrite E.
Qed.

Lemma failed_start_leaves_executor_idle_witness :
  (Wkg.bound Samples.wkg_w0 0 (Wkg.new_impl Samples.wkg_raw 0) /\
   Wkg.idle (Wkg.new_impl Samples.wkg_raw 0) /\
   Wkg.start Samples.wkg_exec Samples.octets None Samples.wkg_w0 = Samples.wkg_w0) /\
  (Wk.m_tasks (Wk.stopURLSchemeTask Samples.wk_task Samples.wk_w0) !! 42%nat = None /\
   Wk.start Samples.wk_exec Samples.octets
     (Wk.stopURLSchemeTask Samples.wk_task Samples.wk_w0)
   = Wk.stopURLSchemeTask Samples.wk_task Samples.wk_w0) /\
  (Qt.value (Qt.destroyed 7 Samples.qt_w0) 0 = None /\
   Qt.start Samples.qt_exec Samples.octets (Qt.destroyed 7 Samples.qt_w0)
   = Qt.destroyed 7 Samples.qt_w0).
Proof.
  destruct failed_start_leaves_executor_idle as (A & B & C).
  split; [|split].
  - assert (Hb : Wkg.bound Samples.wkg_w0 0 (Wkg.new_impl Samples.wkg_raw 0))
      by (vm_compute; repeat split; reflexivity).
    assert (Hi : Wkg.idle (Wkg.new_impl Samples.wkg_raw 0))
      by (vm_compute; split; reflexivity).
    split; [exact Hb|]. split; [exact Hi|].
    exact (proj1 (A _ _ _ Samples.octets Hb Hi)).
  - assert (Hm : Wk.m_tasks (Wk.stopURLSchemeTask Samples.wk_task Samples.wk_w0)
                 !! 42%nat = None) by (vm_compute; reflexivity).
    split; [exact Hm|].
    refine (proj1 (B _ 0%nat (Wk.new_impl Samples.wk_task 42 0) Samples.octets _ _ _)).
    + vm_compute; repeat split; reflexivity.
    + vm_compute; split; reflexivity.
    + exact Hm.
  - assert (Hv : Qt.value (Qt.destroyed 7 Samples.qt_w0) 0 = None)
      by (vm_compute; reflexivity).
    split; [exact Hv|].
    refine (proj1 (C _ 0%nat (Qt.new_impl 0 0 0) Samples.octets _ _ _)).
    + vm_compute; repeat split; reflexivity.
    + vm_compute; split; reflexivity.
    + right. exact Hv.
Defined.

(** C9: on a handle whose shared pointer is null, resolve, reject, start,
    write and finish return at once and change nothing, whatever their
    arguments, and streaming answers false; in all three back ends. *)
Theorem null_handle_operations_are_inert :
  (forall (r : response) (err : error) (sr : stream_response)
          (p : option (Z * Z)) (d : stash) (sys : list Wkg.sys_result)
          (w : Wkg.world),
      Wkg.resolve (Wkg.Executor None) r w = w /\
      Wkg.reject (Wkg.Executor None) err w = w /\
      Wkg.start (Wkg.Executor None) sr p w = w /\
      Wkg.write (Wkg.Executor None) d sys w = w /\
      Wkg.finish (Wkg.Executor None) w = w /\
      Wkg.streaming (Wkg.Executor None) w = false) /\
  (forall (r : response) (err : error) (sr : stream_response) (d : stash)
          (w : Wk.world),
      Wk.resolve (Wk.Executor None) r w = w /\
      Wk.reject (Wk.Executor None) err w = w /\
      Wk.start (Wk.Executor None) sr w = w /\
      Wk.write (Wk.Executor None) d w = w /\
      Wk.finish (Wk.Executor None) w = w /\
      Wk.streaming (Wk.Executor None) w = false) /\
  (forall (r : response) (err : error) (sr : stream_response) (d : stash)
          (w : Qt.world),
      Qt.resolve (Qt.Executor None) r w = w /\
      Qt.reject (Qt.Executor None) err w = w /\
      Qt.start (Qt.Executor None) sr w = w /\
      Qt.write (Qt.Executor None) d w = w /\
      Qt.finish (Qt.Executor None) w = w /\
      Qt.streaming (Qt.Executor None) w = false).
Proof. repeat split. Qed.

(** C10: the loop of the WebKitGTK [write] hands the chunk to the pipe in
    order.  For results [::write] can give (never more bytes than it was
    offered): the bytes that reached the pipe are a prefix of the chunk;
    when the loop runs to its end they are the whole chunk; interruptions
    ([EINTR]) and partial writes never stop it, so it runs to its end as
    soon as the calls accept enough bytes; the first error other than
    [EINTR] that comes while bytes are left ends the loop at once: no
    [::write] follows it, the bytes accepted before it are all that
    reached the pipe, and the rest of the chunk, which is not empty, is
    dropped; a [break] happens on no other ground; and [write] never
    changes an executor object, so the flags are as before. *)
Theorem write_retries_until_all_bytes_are_sent :
  forall (fd : Z) (sys : list Wkg.sys_result) (data : stash),
    Wkg.within_offer sys (length data) ->
    Wkg.pipe_bytes fd (Wkg.write_loop fd sys data).1 `prefix_of` data /\
    ((Wkg.write_loop fd sys data).2 = Wkg.loop_done ->
     Wkg.pipe_bytes fd (Wkg.write_loop fd sys data).1 = data) /\
    (Wkg.only_interrupted sys -> (length data <= Wkg.accepted sys)%nat ->
     (Wkg.write_loop fd sys data).2 = Wkg.loop_done) /\
    (forall sys1 errno sys2,
        sys = sys1 ++ Wkg.sys_failed errno :: sys2 -> errno <> Wkg.EINTR ->
        (Wkg.write_loop fd sys1 data).2 = Wkg.loop_pending ->
        exists rest,
          rest <> [] /\
          data = Wkg.pipe_bytes fd (Wkg.write_loop fd sys1 data).1 ++ rest /\
          Wkg.write_loop fd sys data
          = ((Wkg.write_loop fd sys1 data).1
             ++ [Wkg.sys_write fd rest (Wkg.sys_failed errno)], Wkg.loop_break) /\
          Wkg.pipe_bytes fd (Wkg.write_loop fd sys data).1
          = Wkg.pipe_bytes fd (Wkg.write_loop fd sys1 data).1) /\
    ((Wkg.write_loop fd sys data).2 = Wkg.loop_break ->
     exists errno, errno <> Wkg.EINTR /\ In (Wkg.sys_failed errno) sys) /\
    (forall e w, Wkg.heap (Wkg.write e data sys w) = Wkg.heap w) /\
    (forall w l i,
        Wkg.bound w l i -> Wkg.is_streaming i -> Wkg.write_fd i = fd -> 0 <= fd ->
        Wkg.trace (Wkg.write (Wkg.Executor (Some l)) data sys w)
        = Wkg.trace w ++ (Wkg.write_loop fd sys data).1).
Proof.
  intros fd sys data Hoffer.
  destruct (wkg_write_loop_bytes fd sys data) as (rest & E & Hrest).
  split; [by exists rest|].
  split; [intros Hd; rewrite (Hrest Hd), app_nil_r in E; done|].
  split; [intros Hok Hlen; by apply wkg_write_loop_done|].
  split.
  { intros sys1 errno sys2 -> Hne Hpend.
    destruct (wkg_write_loop_stops fd sys1 errno sys2 data Hne Hpend)
      as (rest' & Hne' & E' & Ew).
    exists rest'. split; [done|]. split; [done|]. split; [done|].
    rewrite Ew. cbn [fst]. rewrite wkg_pipe_bytes_app. cbn [Wkg.pipe_bytes].
    by rewrite app_nil_r. }
  split; [apply wkg_write_loop_break|].
  split; [intros e w; apply wkg_write_keeps_heap|].
  intros w l i (Hl & _) [Hs Hf] Hfd Hpos.
  unfold Wkg.write. simpl. rewrite Hl, Hs, Hf, Hfd. simpl.
  assert (Hlt : (fd <? 0) = false) by (apply Z.ltb_ge; lia).
  by rewrite Hlt.
Qed.

Lemma write_retries_until_all_bytes_are_sent_witness :
  ((Wkg.write_loop 4 [Wkg.sys_written 1; Wkg.sys_failed 4; Wkg.sys_written 2]
      Samples.chunk_a).2 = Wkg.loop_done /\
   Wkg.pipe_bytes 4
     (Wkg.write_loop 4 [Wkg.sys_written 1; Wkg.sys_failed 4; Wkg.sys_written 2]
        Samples.chunk_a).1 = Samples.chunk_a) /\
  Wkg.write_loop 4 [Wkg.sys_written 1; Wkg.sys_failed 32; Wkg.sys_written 2]
    Samples.chunk_a
  = ([Wkg.sys_write 4 Samples.chunk_a (Wkg.sys_written 1);
      Wkg.sys_write 4 [Byte.x65; Byte.x6c] (Wkg.sys_failed 32)], Wkg.loop_break).
Proof.
  split.
  - destruct (write_retries_until_all_bytes_are_sent 4
                [Wkg.sys_written 1; Wkg.sys_failed 4; Wkg.sys_written 2]
                Samples.chunk_a) as (_ & A & B & _).
    { vm_compute. repeat split; lia. }
    assert (H1 : Wkg.only_interrupted
                   [Wkg.sys_written 1; Wkg.sys_failed 4; Wkg.sys_written 2]).
    { repeat constructor. }
    assert (H2 : (length Samples.chunk_a
                  <= Wkg.accepted
                       [Wkg.sys_written 1; Wkg.sys_failed 4; Wkg.sys_written 2])%nat).
    { vm_compute. lia. }
    split; [exact (B H1 H2)|exact (A (B H1 H2))].
  - destruct (write_retries_until_all_bytes_are_sent 4
                [Wkg.sys_written 1; Wkg.sys_failed 32; Wkg.sys_written 2]
                Samples.chunk_a) as (_ & _ & _ & C & _).
    { vm_compute. repeat split; lia. }
    destruct (C [Wkg.sys_written 1] 32 [Wkg.sys_written 2]) as (rest & _ & E & Ew & _).
    + reflexivity.
    + discriminate.
    + reflexivity.
    + rewrite Ew. change (Samples.chunk_a = [Byte.x68] ++ rest) in E.
      injection E as <-. reflexivity.
Defined.

(** * Further properties of the code *)

(** ** What a request is answered with *)



(** They come in the order of their keys. *)
Lemma insert_entry_sorted kv l :
  Sorted (fun a b => String.leb a.1 b.1 = true) l ->
  Sorted (fun a b => String.leb a.1 b.1 = true) (insert_entry kv l).
Proof.
  induction l as [|kv' l IH]; intros Hs; cbn [insert_entry].
  - repeat constructor.
  - destruct (String.leb kv.1 kv'.1) eqn:E.
    + constructor; [done|]. by constructor.
    + apply Sorted_inv in Hs as [Hs Hhd]. constructor; [by apply IH|].
      assert (Hle : String.leb kv'.1 kv.1 = true)
        by (destruct (String.leb_total kv.1 kv'.1); congruence).
      destruct l as [|kv'' l]; cbn [insert_entry].
      * by constructor.
      * destruct (String.leb kv.1 kv''.1); constructor; [done|].
        by apply HdRel_inv in Hhd.
Qed.

Lemma entries_sorted (m : gmap string string) :
  Sorted (fun a b => String.leb a.1 b.1 = true) (entries m).
Proof.
  unfold entries. induction (map_to_list m) as [|kv l IH]; cbn [foldr].
  - constructor.
  - by apply insert_entry_sorted.
Qed.
















Lemma to_underlying_inj e1 e2 : to_underlying e1 = to_underlying e2 -> e1 = e2.
Proof. by destruct e1, e2. Qed.

Lemma to_job_error_inj e1 e2 : Qt.to_job_error e1 = Qt.to_job_error e2 -> e1 = e2.
Proof. by destruct e1, e2. Qed.

(** X4: the native side can tell the error kinds apart.  On an executor that
    can still report an error (Idle on WebKitGTK; not finished, with the
    task in the table on WebKit or the job alive on Qt), rejecting with two
    different errors leaves two different worlds: the numeric codes 404,
    400, 401 and -1 and the four Qt job errors are pairwise distinct. *)
Theorem rejected_errors_stay_distinct :
  (forall (w : Wkg.world) (l : loc) (i : Wkg.impl) (e1 e2 : error),
      Wkg.bound w l i -> Wkg.idle i -> e1 <> e2 ->
      Wkg.reject (Wkg.Executor (Some l)) e1 w <> Wkg.reject (Wkg.Executor (Some l)) e2 w) /\
  (forall (w : Wk.world) (l : loc) (i : Wk.impl) (t : Wk.task_ref) (e1 e2 : error),
      Wk.bound w l i -> Wk.finished i = false ->
      Wk.m_tasks w !! Wk.handle i = Some t -> e1 <> e2 ->
      Wk.reject (Wk.Executor (Some l)) e1 w <> Wk.reject (Wk.Executor (Some l)) e2 w) /\
  (forall (w : Qt.world) (l : loc) (i : Qt.impl) (j : Qt.job) (e1 e2 : error),
      Qt.bound w l i -> Qt.finished i = false ->
      Qt.value w (Qt.request i) = Some j -> e1 <> e2 ->
      Qt.reject (Qt.Executor (Some l)) e1 w <> Qt.reject (Qt.Executor (Some l)) e2 w).
Proof.
  split; [|split].
  - intros w l i e1 e2 Hb [Hs Hf] Hne H. apply Hne.
    pose proof (wkg_step_focus w l i (Wkg.call_reject e1) Hb) as E1.
    pose proof (wkg_step_focus w l i (Wkg.call_reject e2) Hb) as E2.
    simpl in E1, E2. rewrite Hs, Hf in E1, E2. rewrite E1, E2 in H.
    injection H as H%app_inv_head. injection H as H _. by apply to_underlying_inj.
  - intros w l i t e1 e2 Hb Hf Hm Hne H. apply Hne.
    pose proof (wk_step_focus w l i (Wk.call_reject e1) Hb) as E1.
    pose proof (wk_step_focus w l i (Wk.call_reject e2) Hb) as E2.
    simpl in E1, E2. rewrite Hf, Hm in E1, E2. rewrite E1, E2 in H.
    injection H as H%app_inv_head. injection H as H. by apply to_underlying_inj.
  - intros w l i j e1 e2 Hb Hf Hv Hne H. apply Hne.
    pose proof (qt_step_focus w l i (Qt.call_reject e1) Hb) as E1.
    pose proof (qt_step_focus w l i (Qt.call_reject e2) Hb) as E2.
    simpl in E1, E2. rewrite Hf, Hv in E1, E2. rewrite E1, E2 in H.
    injection H as _ H%app_inv_head. apply app_inv_head in H.
    injection H as H. by apply to_job_error_inj.
Qed.

Lemma rejected_errors_stay_distinct_witness :
  Wkg.reject Samples.wkg_exec not_found Samples.wkg_w0
  <> Wkg.reject Samples.wkg_exec failed Samples.wkg_w0 /\
  Wk.reject Samples.wk_exec not_found Samples.wk_w0
  <> Wk.reject Samples.wk_exec failed Samples.wk_w0 /\
  Qt.reject Samples.qt_exec not_found Samples.qt_w0
  <> Qt.reject Samples.qt_exec failed Samples.qt_w0.
Proof.
  destruct rejected_errors_stay_distinct as (A & B & C).
  split; [|split].
  - apply (A Samples.wkg_w0 0%nat Scenes.wkg_i0).
    + vm_compute; repeat split; reflexivity.
    + vm_compute; split; reflexivity.
    + discriminate.
  - apply (B Samples.wk_w0 0%nat Scenes.wk_i0 Samples.wk_task).
    + vm_compute; repeat split; reflexivity.
    + reflexivity.
    + vm_compute; reflexivity.
    + discriminate.
  - apply (C Samples.qt_w0 0%nat Scenes.qt_i0 Samples.qt_raw).
    + vm_compute; repeat split; reflexivity.
    + reflexivity.
    + vm_compute; reflexivity.
    + discriminate.
Defined.

(** ** Calls out of turn *)

Lemma wkg_silent_step w l i c :
  Wkg.bound w l i -> Wkg.istep i c = (i, []) ->
  Wkg.step (Wkg.Executor (Some l)) c w = w.
Proof.
  intros Hb E. rewrite (wkg_step_focus w l i c Hb), E.
  destruct Hb as [Hl _]. close_world w Hl.
Qed.

Lemma wk_silent_step w l i c :
  Wk.bound w l i -> Wk.istep i (Wk.m_tasks w) c = (i, Wk.m_tasks w, []) ->
  Wk.step (Wk.Executor (Some l)) c w = w.
Proof.
  intros Hb E. rewrite (wk_step_focus w l i c Hb), E.
  destruct Hb as [Hl _]. close_world w Hl.
Qed.

Lemma qt_silent_step w l i c :
  Qt.bound w l i -> Qt.istep (Qt.value w (Qt.request i)) i c = (i, []) ->
  Qt.step (Qt.Executor (Some l)) c w = w.
Proof.
  intros Hb E. rewrite (qt_step_focus w l i c Hb), E.
  destruct Hb as [Hl _]. close_world w Hl.
Qed.

(** X5: in each back end, [write] and [finish] on an executor whose stream was
    not started, and [resolve] and [start] on an executor whose stream was
    started, return the world exactly as it was: no flag changes and
    nothing is called. *)
Theorem calls_out_of_turn_are_ignored :
  (forall (w : Wkg.world) (l : loc) (i : Wkg.impl) (r : response)
          (s : stream_response) (p : option (Z * Z)) (d : stash)
          (sys : list Wkg.sys_result),
      Wkg.bound w l i ->
      (Wkg.started i = false ->
       Wkg.write (Wkg.Executor (Some l)) d sys w = w /\
       Wkg.finish (Wkg.Executor (Some l)) w = w) /\
      (Wkg.started i = true ->
       Wkg.resolve (Wkg.Executor (Some l)) r w = w /\
       Wkg.start (Wkg.Executor (Some l)) s p w = w)) /\
  (forall (w : Wk.world) (l : loc) (i : Wk.impl) (r : response)
          (s : stream_response) (d : stash),
      Wk.bound w l i ->
      (Wk.started i = false ->
       Wk.write (Wk.Executor (Some l)) d w = w /\
       Wk.finish (Wk.Executor (Some l)) w = w) /\
      (Wk.started i = true ->
       Wk.resolve (Wk.Executor (Some l)) r w = w /\
       Wk.start (Wk.Executor (Some l)) s w = w)) /\
  (forall (w : Qt.world) (l : loc) (i : Qt.impl) (r : response)
          (s : stream_response) (d : stash),
      Qt.bound w l i ->
      (Qt.started i = false ->
       Qt.write (Qt.Executor (Some l)) d w = w /\
       Qt.finish (Qt.Executor (Some l)) w = w) /\
      (Qt.started i = true ->
       Qt.resolve (Qt.Executor (Some l)) r w = w /\
       Qt.start (Qt.Executor (Some l)) s w = w)).
Proof.
  split; [|split].
  - intros w l i r s p d sys Hb. split; intros Hs; split.
    + apply (wkg_silent_step w l i (Wkg.call_write d sys) Hb). simpl. by rewrite Hs.
    + apply (wkg_silent_step w l i Wkg.call_finish Hb). simpl. by rewrite Hs.
    + apply (wkg_silent_step w l i (Wkg.call_resolve r) Hb). simpl. by rewrite Hs.
    + apply (wkg_silent_step w l i (Wkg.call_start s p) Hb). simpl. rewrite Hs. simpl.
      by rewrite wkg_set_started_same.
  - intros w l i r s d Hb. split; intros Hs; split.
    + apply (wk_silent_step w l i (Wk.call_write d) Hb). simpl. by rewrite Hs.
    + apply (wk_silent_step w l i Wk.call_finish Hb). simpl. by rewrite Hs.
    + apply (wk_silent_step w l i (Wk.call_resolve r) Hb). simpl. by rewrite Hs.
    + apply (wk_silent_step w l i (Wk.call_start s) Hb). simpl. rewrite Hs. simpl.
      by destruct i; simpl in *; subst.
  - intros w l i r s d Hb. split; intros Hs; split.
    + apply (qt_silent_step w l i (Qt.call_write d) Hb). simpl. by rewrite Hs.
    + apply (qt_silent_step w l i Qt.call_finish Hb). simpl. by rewrite Hs.
    + apply (qt_silent_step w l i (Qt.call_resolve r) Hb). simpl. by rewrite Hs.
    + apply (qt_silent_step w l i (Qt.call_start s) Hb). simpl. rewrite Hs. simpl.
      by destruct i; simpl in *; subst.
Qed.

Lemma calls_out_of_turn_are_ignored_witness :
  (Wkg.write Samples.wkg_exec Samples.chunk_a [Wkg.sys_written 3] Samples.wkg_w0
   = Samples.wkg_w0 /\
   Wkg.start Samples.wkg_exec Samples.octets (Some (5, 6)) Scenes.wkg_w1 = Scenes.wkg_w1) /\
  (Wk.finish Samples.wk_exec Samples.wk_w0 = Samples.wk_w0 /\
   Wk.resolve Samples.wk_exec Samples.no_content Scenes.wk_w1 = Scenes.wk_w1) /\
  (Qt.write Samples.qt_exec Samples.chunk_a Samples.qt_w0 = Samples.qt_w0 /\
   Qt.start Samples.qt_exec Samples.octets_404 Scenes.qt_w1 = Scenes.qt_w1).
Proof.
  destruct calls_out_of_turn_are_ignored as (A & B & C).
  split; [|split]; split.
  - refine (proj1 (proj1 (A Samples.wkg_w0 0%nat Scenes.wkg_i0 Samples.no_content
                            Samples.octets None Samples.chunk_a [Wkg.sys_written 3] _) _)).
    + vm_compute; repeat split; reflexivity.
    + reflexivity.
  - refine (proj2 (proj2 (A Scenes.wkg_w1 0%nat Scenes.wkg_i1 Samples.no_content
                            Samples.octets (Some (5, 6)) [] [] _) _)).
    + vm_compute; repeat split; reflexivity.
    + reflexivity.
  - refine (proj2 (proj1 (B Samples.wk_w0 0%nat Scenes.wk_i0 Samples.no_content
                            Samples.octets [] _) _)).
    + vm_compute; repeat split; reflexivity.
    + reflexivity.
  - refine (proj1 (proj2 (B Scenes.wk_w1 0%nat Scenes.wk_i1 Samples.no_content
                            Samples.octets [] _) _)).
    + vm_compute; repeat split; reflexivity.
    + reflexivity.
  - refine (proj1 (proj1 (C Samples.qt_w0 0%nat Scenes.qt_i0 Samples.no_content
                            Samples.octets Samples.chunk_a _) _)).
    + vm_compute; repeat split; reflexivity.
    + reflexivity.
  - refine (proj2 (proj2 (C Scenes.qt_w1 0%nat Scenes.qt_i1 Samples.no_content
                            Samples.octets_404 [] _) _)).
    + vm_compute; repeat split; reflexivity.
    + reflexivity.
Defined.

(** ** WebKitGTK: the pipe *)

Lemma wkg_write_loop_offsets fd sys : forall buf,
  Forall (fun e => exists k r, (k < length buf)%nat /\ e = Wkg.sys_write fd (drop k buf) r)
         (Wkg.write_loop fd sys buf).1 /\
  (length (Wkg.write_loop fd sys buf).1 <= length sys)%nat.
Proof.
  induction sys as [|r sys IH]; intros buf; destruct buf as [|b buf];
    cbn [Wkg.write_loop]; try (split; [by constructor|simpl; lia]).
  destruct r as [n|errno].
  - destruct (n <=? length (b :: buf))%nat.
    + destruct (IH (drop n (b :: buf))) as [Hev Hlen].
      destruct (Wkg.write_loop fd sys (drop n (b :: buf))) as [evs x].
      cbn [fst] in *. split; [|cbn [length]; lia].
      constructor.
      * exists 0%nat, (Wkg.sys_written n). split; [cbn [length]; lia|done].
      * eapply Forall_impl; [exact Hev|]. intros e (k & r & Hk & ->).
        exists (n + k)%nat, r. rewrite length_drop in Hk.
        split; [lia|]. by rewrite drop_drop.
    + cbn [fst]. split; [|cbn [length]; lia].
      constructor; [|constructor].
      exists 0%nat, (Wkg.sys_written n). split; [cbn [length]; lia|done].
  - destruct (errno =? Wkg.EINTR).
    + destruct (IH (b :: buf)) as [Hev Hlen].
      destruct (Wkg.write_loop fd sys (b :: buf)) as [evs x].
      cbn [fst] in *. split; [|cbn [length]; lia].
      constructor; [|done].
      exists 0%nat, (Wkg.sys_failed errno). split; [cbn [length]; lia|done].
    + cbn [fst]. split; [|cbn [length]; lia].
      constructor; [|constructor].
      exists 0%nat, (Wkg.sys_failed errno). split; [cbn [length]; lia|done].
Qed.

(** With results [::write] can give, [ptr] never leaves the data. *)
Lemma wkg_write_loop_in_bounds fd sys : forall buf,
  Wkg.within_offer sys (length buf) ->
  (Wkg.write_loop fd sys buf).2 <> Wkg.loop_overrun.
Proof.
  induction sys as [|r sys IH]; intros buf; destruct buf as [|b buf];
    cbn [Wkg.write_loop]; try done.
  destruct r as [n|errno]; cbn [Wkg.within_offer length].
  - intros [Hn Hrest].
    destruct (n <=? S (length buf))%nat eqn:E; [|apply Nat.leb_gt in E; lia].
    specialize (IH (drop n (b :: buf))).
    rewrite length_drop in IH. cbn [length] in IH. specialize (IH Hrest).
    destruct (Wkg.write_loop fd sys (drop n (b :: buf))) as [evs x].
    exact IH.
  - destruct (errno =? Wkg.EINTR); [|done].
    intros Hrest. specialize (IH (b :: buf) Hrest).
    destruct (Wkg.write_loop fd sys (b :: buf)) as [evs x].
    exact IH.
Qed.

(** X6: [write] never reads outside the chunk, as long as no [::write]
    reports more bytes than it was offered (the results are within the
    offer).  Then the loop never moves past the data, every [::write] call
    of one [executor::write] goes to the executor's own descriptor and
    offers a non-empty tail of the chunk (the bytes from some offset below
    the chunk's size on); there are at most as many calls as results were
    consumed, and the executor objects are left as they were. *)
Theorem wkg_write_offers_only_what_is_left :
  forall (w : Wkg.world) (l : loc) (i : Wkg.impl) (data : stash)
         (sys : list Wkg.sys_result),
    Wkg.bound w l i ->
    Wkg.within_offer sys (length data) ->
    (Wkg.write_loop (Wkg.write_fd i) sys data).2 <> Wkg.loop_overrun /\
    exists evs,
      Wkg.write (Wkg.Executor (Some l)) data sys w
      = Wkg.World (Wkg.heap w) (Wkg.trace w ++ evs) /\
      Forall (fun e => exists k r, (k < length data)%nat /\
                                   e = Wkg.sys_write (Wkg.write_fd i) (drop k data) r) evs /\
      (length evs <= length sys)%nat.
Proof.
  intros w l i data sys [Hl _] Hoffer.
  split; [by apply wkg_write_loop_in_bounds|].
  unfold Wkg.write. cbn [Wkg.m_impl]. rewrite Hl.
  destruct (negb (Wkg.started i) || Wkg.finished i || (Wkg.write_fd i <? 0)).
  - exists []. split; [|split; [constructor|simpl; lia]].
    rewrite app_nil_r. by destruct w.
  - exists (Wkg.write_loop (Wkg.write_fd i) sys data).1.
    split; [done|]. apply wkg_write_loop_offsets.
Qed.

Lemma wkg_write_offers_only_what_is_left_witness :
  exists evs,
    Wkg.write Samples.wkg_exec Samples.chunk_a
      [Wkg.sys_written 2; Wkg.sys_failed 4; Wkg.sys_written 1] Scenes.wkg_w1
    = Wkg.World (Wkg.heap Scenes.wkg_w1) (Wkg.trace Scenes.wkg_w1 ++ evs) /\
    Forall (fun e => exists k r, (k < 3)%nat /\
                                 e = Wkg.sys_write 4 (drop k Samples.chunk_a) r) evs /\
    (length evs <= 3)%nat.
Proof.
  apply (wkg_write_offers_only_what_is_left Scenes.wkg_w1 0%nat Scenes.wkg_i1).
  - vm_compute; repeat split; reflexivity.
  - vm_compute; repeat split; lia.
Defined.

Lemma list_split_after {A} (ev rest t1 t2 : list A) (x : A) :
  ev ++ rest = t1 ++ x :: t2 -> x ∉ ev ->
  exists t1', rest = t1' ++ x :: t2.
Proof.
  revert t1. induction ev as [|e ev IH]; intros t1 H Hni; simpl in H.
  - eauto.
  - destruct t1 as [|y t1]; simpl in H.
    + injection H as -> _. exfalso. apply Hni. by left.
    + injection H as _ H. apply (IH t1 H). intros Hin. apply Hni. by right.
Qed.

Lemma wkg_step_close i c :
  Wkg.fd_inv i ->
  (forall fd, Wkg.sys_close fd ∉ (Wkg.istep i c).2) \/
  ((exists fd, (Wkg.istep i c).2 = [Wkg.sys_close fd]) /\
   Wkg.terminal (Wkg.istep i c).1).
Proof.
  intros Hinv.
  destruct c as [r|err|r [[rfd wfd]|]|d sys|]; simpl;
    repeat case_match; simpl;
    try (left; intros fd Hin%list_elem_of_In; simpl in Hin; intuition discriminate);
    try (right; split; [eauto|done]).
  left. intros fd Hin.
  pose proof (wkg_write_loop_events (Wkg.write_fd i) sys d) as Hev.
  rewrite Forall_forall in Hev. destruct (Hev _ Hin) as (b & r & ?). done.
Qed.

Lemma wkg_close_is_last cs : forall i,
  Wkg.fd_inv i ->
  forall t1 fd t2, (Wkg.irun i cs).2 = t1 ++ Wkg.sys_close fd :: t2 -> t2 = [].
Proof.
  induction cs as [|c cs IH]; intros i Hinv t1 fd t2 H; simpl in H.
  - by destruct t1.
  - pose proof (wkg_fd_inv_step i c Hinv) as Hinv'.
    destruct (wkg_step_close i c Hinv) as [Hno|[[fd' Eev] Hterm]].
    + destruct (Wkg.istep i c) as [i1 ev] eqn:Es. simpl in *.
      destruct (Wkg.irun i1 cs) as [i2 rest] eqn:Er. simpl in *.
      destruct (list_split_after _ _ _ _ _ H (Hno fd)) as (t1' & E).
      apply (IH i1 Hinv' t1' fd t2). by rewrite Er.
    + destruct (wkg_terminal_run cs _ Hterm Hinv') as [Erest _].
      destruct (Wkg.istep i c) as [i1 ev] eqn:Es. simpl in *.
      destruct (Wkg.irun i1 cs) as [i2 rest] eqn:Er. simpl in *.
      subst. rewrite app_nil_r in H.
      destruct t1 as [|y t1]; simpl in H; [by injection H|].
      injection H as _ H. by destruct t1.
Qed.

(** X7: on WebKitGTK, for an executor that holds a descriptor only while its
    stream is open, and for any sequence of calls: once the write end of the
    pipe is closed, nothing more is called, so the descriptor is closed at
    most once and never written to afterwards. *)
Theorem wkg_close_ends_the_trace :
  forall (w : Wkg.world) (l : loc) (i : Wkg.impl) (cs : list Wkg.call),
    Wkg.bound w l i -> Wkg.fd_inv i ->
    exists t,
      Wkg.trace (Wkg.run (Wkg.Executor (Some l)) cs w) = Wkg.trace w ++ t /\
      (forall t1 fd t2, t = t1 ++ Wkg.sys_close fd :: t2 -> t2 = []).
Proof.
  intros w l i cs Hb Hinv. destruct (wkg_run_focus cs w l i Hb) as [E _].
  exists (Wkg.irun i cs).2. rewrite E. split; [done|].
  by apply wkg_close_is_last.
Qed.

Lemma wkg_close_ends_the_trace_witness :
  exists t,
    Wkg.trace (Wkg.run Samples.wkg_exec Scenes.wkg_calls Samples.wkg_w0)
    = Wkg.trace Samples.wkg_w0 ++ t /\
    (forall t1 fd t2, t = t1 ++ Wkg.sys_close fd :: t2 -> t2 = []).
Proof.
  apply (wkg_close_ends_the_trace Samples.wkg_w0 0%nat Scenes.wkg_i0).
  - vm_compute; repeat split; reflexivity.
  - intros H. exfalso. apply H. reflexivity.
Defined.

Lemma wkg_accepts_app p t1 : forall t2,
  wkg_accepts p (t1 ++ t2)
  = match wkg_accepts p t1 with
    | Some p' => wkg_accepts p' t2
    | None => None
    end.
Proof.
  revert p. induction t1 as [|e t1 IH]; intros p t2; simpl; [done|].
  destruct (wkg_next p e); [apply IH|done].
Qed.

Lemma wkg_accepts_writes fd sys buf :
  wkg_accepts opened (Wkg.write_loop fd sys buf).1 = Some opened.
Proof.
  pose proof (wkg_write_loop_events fd sys buf) as H.
  induction H as [|e t (b & r & ->) _ IH]; simpl; done.
Qed.

Lemma wkg_step_protocol i c p :
  wkg_compat i p -> Wkg.fd_inv i ->
  exists p',
    wkg_accepts p (Wkg.istep i c).2 = Some p' /\
    wkg_compat (Wkg.istep i c).1 p'.
Proof.
  unfold wkg_compat, Wkg.fd_inv. intros Hc Hinv.
  destruct c as [r|err|r [[rfd wfd]|]|d sys|]; simpl;
    destruct (Wkg.started i) eqn:Hs, (Wkg.finished i) eqn:Hf; simpl;
    try (destruct (0 <=? Wkg.write_fd i) eqn:Hfd; simpl;
         [apply Z.leb_le in Hfd; try (destruct (Hinv Hfd); discriminate)|]);
    try (destruct (Wkg.write_fd i <? 0) eqn:Hlt; simpl);
    rewrite ?Hs, ?Hf;
    destruct Hc as [Hc|Hc]; try discriminate Hc; subst;
    rewrite ?wkg_accepts_writes;
    (eexists; split; [reflexivity|]); simpl; auto.
Qed.

Lemma wkg_run_protocol cs : forall i p,
  wkg_compat i p -> Wkg.fd_inv i ->
  is_Some (wkg_accepts p (Wkg.irun i cs).2).
Proof.
  induction cs as [|c cs IH]; intros i p Hc Hinv; simpl; [by eexists|].
  destruct (wkg_step_protocol i c p Hc Hinv) as (p1 & Ha & Hc1).
  pose proof (wkg_fd_inv_step i c Hinv) as Hinv1.
  destruct (Wkg.istep i c) as [i1 t1]. cbn [fst snd] in *.
  specialize (IH i1 p1 Hc1 Hinv1).
  destruct (Wkg.irun i1 cs) as [i2 t2]. cbn [fst snd] in *.
  by rewrite wkg_accepts_app, Ha.
Qed.

(** X8: on WebKitGTK, whatever a producer calls on an Idle executor and in
    whatever order, the calls that reach WebKit and the pipe come in an
    order WebKit accepts: the request is finished at most once, with a
    complete response, with an error, or with a streamed response; the pipe
    is written to only after the streamed response was handed over and only
    until its write end is closed; nothing follows a complete response, an
    error or the close. *)
Theorem wkg_calls_follow_the_request_protocol :
  forall (w : Wkg.world) (l : loc) (i : Wkg.impl) (cs : list Wkg.call),
    Wkg.bound w l i -> Wkg.idle i -> Wkg.fd_inv i ->
    exists evs,
      Wkg.trace (Wkg.run (Wkg.Executor (Some l)) cs w) = Wkg.trace w ++ evs /\
      is_Some (wkg_accepts pristine evs).
Proof.
  intros w l i cs Hb [Hs Hf] Hinv.
  destruct (wkg_run_focus cs w l i Hb) as [E _].
  exists (Wkg.irun i cs).2. split; [by rewrite E|].
  apply wkg_run_protocol; [|done]. right. by rewrite Hs.
Qed.

Lemma wkg_calls_follow_the_request_protocol_witness :
  exists evs,
    Wkg.trace (Wkg.run Samples.wkg_exec Scenes.wkg_calls Samples.wkg_w0)
    = Wkg.trace Samples.wkg_w0 ++ evs /\
    is_Some (wkg_accepts pristine evs).
Proof.
  apply (wkg_calls_follow_the_request_protocol Samples.wkg_w0 0%nat Scenes.wkg_i0).
  - vm_compute; repeat split; reflexivity.
  - vm_compute; split; reflexivity.
  - intros H. exfalso. apply H. reflexivity.
Defined.

Lemma wkg_step_descriptor i c e fd :
  e ∈ (Wkg.istep i c).2 -> descriptor e = Some fd -> fd = Wkg.write_fd i.
Proof.
  destruct c as [r|err|r [[rfd wfd]|]|d sys|]; simpl;
    repeat case_match; simpl;
    try (intros Hin%list_elem_of_In; simpl in Hin;
         destruct Hin as [<-|[]]; simpl; congruence);
    try (by intros Hin%elem_of_nil).
  intros Hin Hd.
  pose proof (wkg_write_loop_events (Wkg.write_fd i) sys d) as Hev.
  rewrite Forall_forall in Hev. destruct (Hev _ Hin) as (b & r & ->).
  simpl in Hd. congruence.
Qed.

Lemma wkg_started_step i c :
  Wkg.started i = true -> Wkg.fd_inv i ->
  Wkg.started (Wkg.istep i c).1 = true /\
  (Wkg.write_fd (Wkg.istep i c).1 = Wkg.write_fd i \/
   Wkg.terminal (Wkg.istep i c).1).
Proof.
  unfold Wkg.terminal. intros Hs Hinv.
  destruct c as [r|err|r [[rfd wfd]|]|d sys|]; simpl; rewrite ?Hs; simpl;
    repeat case_match; simpl; auto.
Qed.

Lemma wkg_started_run_descriptor cs : forall i e fd,
  Wkg.started i = true -> Wkg.fd_inv i ->
  e ∈ (Wkg.irun i cs).2 -> descriptor e = Some fd -> fd = Wkg.write_fd i.
Proof.
  induction cs as [|c cs IH]; intros i e fd Hs Hinv; simpl.
  - by intros Hin%elem_of_nil.
  - pose proof (wkg_step_descriptor i c e fd) as Hstep.
    destruct (wkg_started_step i c Hs Hinv) as [Hs1 Hfd].
    pose proof (wkg_fd_inv_step i c Hinv) as Hinv1.
    pose proof (wkg_terminal_run cs (Wkg.istep i c).1) as Hterm.
    destruct (Wkg.istep i c) as [i1 t1]. cbn [fst snd] in *.
    specialize (IH i1 e fd Hs1 Hinv1).
    destruct (Wkg.irun i1 cs) as [i2 t2]. cbn [fst snd] in *.
    intros [Hin|Hin]%elem_of_app Hd; [by apply Hstep|].
    destruct Hfd as [<-|Ht]; [by apply IH|].
    destruct (Hterm Ht Hinv1) as [-> _]. by apply elem_of_nil in Hin.
Qed.

Lemma wkg_fresh_run_descriptor cs : forall i,
  Wkg.started i = false -> Wkg.fd_inv i ->
  exists o : option Z,
    (forall e fd, e ∈ (Wkg.irun i cs).2 -> descriptor e = Some fd -> o = Some fd) /\
    (forall fd, o = Some fd -> fd ∈ write_ends cs).
Proof.
  induction cs as [|c cs IH]; intros i Hs Hinv; simpl.
  - exists None. split; [|done]. by intros e fd Hin%elem_of_nil.
  - assert (Hlt : Wkg.write_fd i < 0).
    { destruct (Z.lt_ge_cases (Wkg.write_fd i) 0) as [|Hge]; [done|].
      destruct (Hinv Hge). congruence. }
    pose proof (wkg_fd_inv_step i c Hinv) as Hinv1.
    assert (Hno : forall e fd, e ∈ (Wkg.istep i c).2 -> descriptor e = Some fd -> False).
    { intros e fd. destruct c as [r|err|r [[rfd wfd]|]|d sys|]; simpl; rewrite ?Hs; simpl;
        repeat case_match; simpl;
        try (intros Hin%list_elem_of_In; simpl in Hin;
             destruct Hin as [<-|[]]; simpl; congruence);
        try (by intros Hin%elem_of_nil); lia. }
    destruct (Wkg.started (Wkg.istep i c).1) eqn:Hs1.
    + (* the call was a start *)
      pose proof (wkg_started_run_descriptor cs (Wkg.istep i c).1) as Hrun.
      pose proof (wkg_terminal_run cs (Wkg.istep i c).1) as Hterm.
      destruct c as [r|err|r [[rfd wfd]|]|d sys|]; simpl in *;
        rewrite ?Hs in *; simpl in *;
        try (destruct (Wkg.finished i) eqn:Hf; simpl in * );
        try congruence.
      * (* start on a finished object *)
        destruct (Hterm Hf Hinv1) as [E _].
        destruct (Wkg.irun (Wkg.set_started true i) cs) as [i2 t2]. simpl in *. subst t2.
        exists None. split; [|done]. by intros e fd Hin%elem_of_nil.
      * destruct (Wkg.irun _ cs) as [i2 t2] eqn:Er. cbn [fst snd] in *.
        exists (Some wfd). split.
        -- intros e fd [->|Hin]%elem_of_cons Hd; [done|].
           f_equal. symmetry. by eapply Hrun.
        -- intros fd [= <-]. by left.
      * destruct (Hterm Hf Hinv1) as [E _].
        destruct (Wkg.irun (Wkg.set_started true i) cs) as [i2 t2]. simpl in *. subst t2.
        exists None. split; [|done]. by intros e fd Hin%elem_of_nil.
    + destruct (IH (Wkg.istep i c).1 Hs1 Hinv1) as (o & Ho1 & Ho2).
      destruct (Wkg.istep i c) as [i1 t1]. cbn [fst snd] in *.
      destruct (Wkg.irun i1 cs) as [i2 t2]. cbn [fst snd] in *.
      exists o. split.
      * intros e fd [Hin|Hin]%elem_of_app Hd; [exfalso; eapply Hno; eauto|eauto].
      * intros fd Hfd. specialize (Ho2 fd Hfd).
        destruct c as [r|err|r [[rfd wfd]|]|d sys|]; simpl; try done. by right.
Qed.

(** X9: on WebKitGTK, an executor whose stream was not started touches at most
    one descriptor in any sequence of calls, and that descriptor is a write
    end that a [pipe] call of one of its [start] calls produced: every
    [::write] and every [close] names it. *)
Theorem wkg_descriptor_comes_from_the_pipe :
  forall (w : Wkg.world) (l : loc) (i : Wkg.impl) (cs : list Wkg.call),
    Wkg.bound w l i -> Wkg.started i = false -> Wkg.fd_inv i ->
    exists (evs : list Wkg.event) (o : option Z),
      Wkg.trace (Wkg.run (Wkg.Executor (Some l)) cs w) = Wkg.trace w ++ evs /\
      (forall e fd, e ∈ evs -> descriptor e = Some fd -> o = Some fd) /\
      (forall fd, o = Some fd -> fd ∈ write_ends cs).
Proof.
  intros w l i cs Hb Hs Hinv.
  destruct (wkg_run_focus cs w l i Hb) as [E _].
  destruct (wkg_fresh_run_descriptor cs i Hs Hinv) as (o & H1 & H2).
  exists (Wkg.irun i cs).2, o. split; [by rewrite E|]. done.
Qed.

Lemma wkg_descriptor_comes_from_the_pipe_witness :
  exists (evs : list Wkg.event) (o : option Z),
    Wkg.trace (Wkg.run Samples.wkg_exec Scenes.wkg_calls Samples.wkg_w0)
    = Wkg.trace Samples.wkg_w0 ++ evs /\
    (forall e fd, e ∈ evs -> descriptor e = Some fd -> o = Some fd) /\
    (forall fd, o = Some fd -> fd ∈ write_ends Scenes.wkg_calls).
Proof.
  apply (wkg_descriptor_comes_from_the_pipe Samples.wkg_w0 0%nat Scenes.wkg_i0).
  - vm_compute; repeat split; reflexivity.
  - reflexivity.
  - intros H. exfalso. apply H. reflexivity.
Defined.

(** ** WebKit: the task and the table *)

Lemma wk_accepts_app p ms1 : forall ms2,
  wk_accepts p (ms1 ++ ms2)
  = match wk_accepts p ms1 with
    | Some p' => wk_accepts p' ms2
    | None => None
    end.
Proof.
  revert p. induction ms1 as [|m ms1 IH]; intros p ms2; simpl; [done|].
  destruct (wk_next p m); [apply IH|done].
Qed.

Lemma wk_step_protocol i m c p t :
  wk_compat i p ->
  (forall t', m !! Wk.handle i = Some t' -> t' = t) ->
  exists p',
    wk_accepts p (Wk.msg <$> (Wk.istep i m c).2) = Some p' /\
    wk_compat (Wk.istep i m c).1.1 p' /\
    Forall (fun e => Wk.target e = t) (Wk.istep i m c).2 /\
    (forall t', (Wk.istep i m c).1.2 !! Wk.handle i = Some t' -> t' = t) /\
    ((Wk.istep i m c).2 = [] \/
     (Forall (fun e => Wk.via e = Wk.in_place) (Wk.istep i m c).2 /\
      Wk.started i = false /\ Wk.finished (Wk.istep i m c).1.1 = true) \/
     (Forall (fun e => Wk.via e = Wk.main_queue) (Wk.istep i m c).2 /\
      Wk.started (Wk.istep i m c).1.1 = true)).
Proof.
  unfold wk_compat. intros Hc Ht.
  destruct c as [r|err|r|d|]; simpl;
    destruct (Wk.started i) eqn:Hs, (Wk.finished i) eqn:Hf; simpl;
    try (destruct (m !! Wk.handle i) as [t0|] eqn:Hm; simpl;
         [pose proof (Ht _ eq_refl); subst t0|]);
    rewrite ?Hs, ?Hf, ?Hm;
    destruct Hc as [Hc|Hc]; try discriminate Hc; subst;
    (eexists; split; [reflexivity|]);
    (split; [simpl; auto|]);
    (split; [repeat constructor|]);
    (split; [intros t'; rewrite ?lookup_delete_eq, ?Hm; try done; by apply Ht|]);
    first [by left
          | right; left; split; [repeat constructor|done]
          | right; right; split; [repeat constructor|done] ].
Qed.

Lemma wk_started_step i m c :
  Wk.started i = true -> Wk.started (Wk.istep i m c).1.1 = true.
Proof.
  intros Hs. destruct c as [r|err|r|d|]; simpl; rewrite ?Hs; simpl;
    repeat case_match; simpl; done.
Qed.

Lemma wk_run_protocol t cs : forall i m p,
  wk_compat i p ->
  (forall t', m !! Wk.handle i = Some t' -> t' = t) ->
  is_Some (wk_accepts p (Wk.msg <$> (Wk.irun i m cs).2)) /\
  Forall (fun e => Wk.target e = t) (Wk.irun i m cs).2 /\
  (Wk.started i = true ->
   Forall (fun e => Wk.via e = Wk.main_queue) (Wk.irun i m cs).2) /\
  (Forall (fun e => Wk.via e = Wk.in_place) (Wk.irun i m cs).2 \/
   Forall (fun e => Wk.via e = Wk.main_queue) (Wk.irun i m cs).2).
Proof.
  induction cs as [|c cs IH]; intros i m p Hc Ht; simpl.
  - split; [by eexists|]. split; [constructor|]. split; [constructor|].
    left. constructor.
  - destruct (wk_step_protocol i m c p t Hc Ht) as (p1 & Ha & Hc1 & Htg & Ht1 & Hvia).
    destruct (wk_istep_static i m c) as (Eh & _).
    pose proof (wk_terminal_run cs (Wk.istep i m c).1.1 (Wk.istep i m c).1.2) as Hterm.
    pose proof (wk_started_step i m c) as Hkeep.
    destruct (Wk.istep i m c) as [[i1 m1] t1]. cbn [fst snd] in *.
    rewrite <- Eh in Ht1.
    destruct (IH i1 m1 p1 Hc1 Ht1) as (Hacc & Htg2 & Hst & Hv2).
    destruct (Wk.irun i1 m1 cs) as [[i2 m2] t2]. cbn [fst snd] in *.
    split; [|split; [|split]].
    + rewrite fmap_app, wk_accepts_app, Ha. exact Hacc.
    + by apply Forall_app.
    + intros Hs. destruct Hvia as [-> | [(_ & Hs' & _) | (Hm & Hs1)]].
      * simpl. auto.
      * congruence.
      * apply Forall_app. auto.
    + destruct Hvia as [-> | [(Hin & _ & Hf1) | (Hm & Hs1)]].
      * exact Hv2.
      * destruct (Hterm Hf1) as (-> & _). left. by rewrite app_nil_r.
      * right. apply Forall_app. auto.
Qed.

(** X10: on WebKit, whatever a producer calls on an Idle executor whose task is
    in the table, the messages sent come in an order a [WKURLSchemeTask]
    accepts: [didReceiveResponse] first, then [didReceiveData] any number of
    times, then at most one [didFinish] or [didFailWithError], or one
    [didFailWithError] alone; nothing is sent after the last one.  Every
    message goes to that task, and either all of them are sent in place or
    all of them through the main queue, which keeps the order of
    submission. *)
Theorem wk_messages_follow_the_task_protocol :
  forall (w : Wk.world) (l : loc) (i : Wk.impl) (t : Wk.task_ref) (cs : list Wk.call),
    Wk.bound w l i -> Wk.idle i -> Wk.m_tasks w !! Wk.handle i = Some t ->
    exists evs,
      Wk.trace (Wk.run (Wk.Executor (Some l)) cs w) = Wk.trace w ++ evs /\
      is_Some (wk_accepts pristine (Wk.msg <$> evs)) /\
      Forall (fun e => Wk.target e = t) evs /\
      (Forall (fun e => Wk.via e = Wk.in_place) evs \/
       Forall (fun e => Wk.via e = Wk.main_queue) evs).
Proof.
  intros w l i t cs Hb [Hs Hf] Hm.
  destruct (wk_run_focus cs w l i Hb) as [E _].
  exists (Wk.irun i (Wk.m_tasks w) cs).2. split; [by rewrite E|].
  destruct (wk_run_protocol t cs i (Wk.m_tasks w) pristine) as (Ha & Ht & _ & Hv).
  - right. by rewrite Hs.
  - intros t' Ht'. congruence.
  - done.
Qed.

Lemma wk_messages_follow_the_task_protocol_witness :
  exists evs,
    Wk.trace (Wk.run Samples.wk_exec Scenes.wk_calls Samples.wk_w0)
    = Wk.trace Samples.wk_w0 ++ evs /\
    is_Some (wk_accepts pristine (Wk.msg <$> evs)) /\
    Forall (fun e => Wk.target e = Samples.wk_task) evs /\
    (Forall (fun e => Wk.via e = Wk.in_place) evs \/
     Forall (fun e => Wk.via e = Wk.main_queue) evs).
Proof.
  apply (wk_messages_follow_the_task_protocol Samples.wk_w0 0%nat Scenes.wk_i0).
  - vm_compute; repeat split; reflexivity.
  - vm_compute; split; reflexivity.
  - vm_compute; reflexivity.
Defined.

Lemma wk_step_table i m c :
  let '(i', m', _) := Wk.istep i m c in
  (m' = m \/ m' = delete (Wk.handle i) m) /\
  ((Wk.finished i = true -> m !! Wk.handle i = None) ->
   Wk.finished i' = true -> m' !! Wk.handle i = None).
Proof.
  destruct c as [r|err|r|d|]; simpl;
    destruct (Wk.started i) eqn:Hs, (Wk.finished i) eqn:Hf; simpl;
    try destruct (m !! Wk.handle i) as [t|] eqn:Hm; simpl;
    rewrite ?Hf; (split; [by auto|]); intros Hinv Hfin;
    try (apply lookup_delete_eq); try done; try (by apply Hinv).
Qed.

Lemma wk_run_table cs : forall i m,
  let '(i', m', _) := Wk.irun i m cs in
  (m' = m \/ m' = delete (Wk.handle i) m) /\
  ((Wk.finished i = true -> m !! Wk.handle i = None) ->
   Wk.finished i' = true -> m' !! Wk.handle i = None).
Proof.
  induction cs as [|c cs IH]; intros i m; simpl; [by auto|].
  pose proof (wk_step_table i m c) as Hstep.
  destruct (wk_istep_static i m c) as (Eh & _).
  destruct (Wk.istep i m c) as [[i1 m1] t1]. simpl in Eh.
  specialize (IH i1 m1). destruct (Wk.irun i1 m1 cs) as [[i2 m2] t2].
  rewrite Eh in IH. destruct Hstep as [Hm1 Hinv1]. destruct IH as [Hm2 Hinv2].
  split.
  - destruct Hm1 as [-> | ->], Hm2 as [-> | ->]; auto.
    right. apply delete_delete_eq.
  - intros Hinv. apply Hinv2. by apply Hinv1.
Qed.

Lemma wk_irun_handle cs : forall i m,
  Wk.handle (Wk.irun i m cs).1.1 = Wk.handle i.
Proof.
  induction cs as [|c cs IH]; intros i m; simpl; [done|].
  destruct (wk_istep_static i m c) as (Eh & _).
  destruct (Wk.istep i m c) as [[i1 m1] t1]. simpl in Eh.
  specialize (IH i1 m1). destruct (Wk.irun i1 m1 cs) as [[i2 m2] t2].
  simpl in *. congruence.
Qed.

(** X11: on WebKit, a sequence of calls on an executor leaves the task table as
    it was or erases the executor's own entry, and never adds one.  If the
    table had no entry for a finished executor before, then whenever
    [streaming()] is false after the calls, the executor's entry is gone. *)
Theorem wk_executor_only_erases_its_entry :
  forall (w : Wk.world) (l : loc) (i : Wk.impl) (cs : list Wk.call),
    Wk.bound w l i ->
    (Wk.finished i = true -> Wk.m_tasks w !! Wk.handle i = None) ->
    (Wk.m_tasks (Wk.run (Wk.Executor (Some l)) cs w) = Wk.m_tasks w \/
     Wk.m_tasks (Wk.run (Wk.Executor (Some l)) cs w)
     = delete (Wk.handle i) (Wk.m_tasks w)) /\
    (Wk.streaming (Wk.Executor (Some l)) (Wk.run (Wk.Executor (Some l)) cs w) = false ->
     Wk.m_tasks (Wk.run (Wk.Executor (Some l)) cs w) !! Wk.handle i = None).
Proof.
  intros w l i cs Hb Hinv.
  destruct (wk_run_focus cs w l i Hb) as [E _].
  pose proof (wk_run_table cs i (Wk.m_tasks w)) as Ht.
  rewrite E. destruct (Wk.irun i (Wk.m_tasks w) cs) as [[i' m'] t'] eqn:Er.
  cbn [fst snd Wk.m_tasks] in *. destruct Ht as [Hm Hfin]. split; [done|].
  unfold Wk.streaming. cbn [Wk.m_impl Wk.heap Wk.m_tasks].
  rewrite lookup_insert_eq.
  assert (Eh : Wk.handle i' = Wk.handle i).
  { pose proof (wk_irun_handle cs i (Wk.m_tasks w)) as Eh. by rewrite Er in Eh. }
  rewrite Eh. intros Hstr.
  destruct (m' !! Wk.handle i) as [t|] eqn:Hlk; [|done].
  apply Hfin; [done|]. rewrite ?Hlk in Hstr. simpl in Hstr.
  by destruct (Wk.finished i').
Qed.

Lemma wk_executor_only_erases_its_entry_witness :
  (Wk.m_tasks (Wk.run Samples.wk_exec Scenes.wk_calls Samples.wk_w0)
   = Wk.m_tasks Samples.wk_w0 \/
   Wk.m_tasks (Wk.run Samples.wk_exec Scenes.wk_calls Samples.wk_w0)
   = delete 42%nat (Wk.m_tasks Samples.wk_w0)) /\
  (Wk.streaming Samples.wk_exec (Wk.run Samples.wk_exec Scenes.wk_calls Samples.wk_w0)
   = false ->
   Wk.m_tasks (Wk.run Samples.wk_exec Scenes.wk_calls Samples.wk_w0) !! 42%nat = None).
Proof.
  apply (wk_executor_only_erases_its_entry Samples.wk_w0 0%nat Scenes.wk_i0).
  - vm_compute; repeat split; reflexivity.
  - intros H. discriminate H.
Defined.

(** ** Executors and dispatchers side by side *)

(** X12: calls on one executor do not reach another.  In each back end any
    sequence of calls on an executor leaves every other executor object as
    it was; on WebKit it leaves the table entries of the other tasks, on Qt
    the job pointers and the lambdas that the dispatcher connected to
    [destroyed], with their captures. *)
Theorem calls_on_one_executor_leave_the_others :
  (forall (w : Wkg.world) (l l' : loc) (i : Wkg.impl) (cs : list Wkg.call),
      Wkg.bound w l i -> l' <> l ->
      Wkg.heap (Wkg.run (Wkg.Executor (Some l)) cs w) !! l' = Wkg.heap w !! l') /\
  (forall (w : Wk.world) (l l' : loc) (i : Wk.impl) (k : nat) (cs : list Wk.call),
      Wk.bound w l i -> l' <> l -> k <> Wk.handle i ->
      Wk.heap (Wk.run (Wk.Executor (Some l)) cs w) !! l' = Wk.heap w !! l' /\
      Wk.m_tasks (Wk.run (Wk.Executor (Some l)) cs w) !! k = Wk.m_tasks w !! k) /\
  (forall (w : Qt.world) (l l' : loc) (i : Qt.impl) (cs : list Qt.call),
      Qt.bound w l i -> l' <> l ->
      Qt.heap (Qt.run (Qt.Executor (Some l)) cs w) !! l' = Qt.heap w !! l' /\
      Qt.cells (Qt.run (Qt.Executor (Some l)) cs w) = Qt.cells w /\
      Qt.connections (Qt.run (Qt.Executor (Some l)) cs w) = Qt.connections w).
Proof.
  split; [|split].
  - intros w l l' i cs Hb Hne. destruct (wkg_run_focus cs w l i Hb) as [E _].
    rewrite E. simpl. by rewrite lookup_insert_ne.
  - intros w l l' i k cs Hb Hne Hk. destruct (wk_run_focus cs w l i Hb) as [E _].
    pose proof (wk_run_table cs i (Wk.m_tasks w)) as Ht.
    rewrite E. destruct (Wk.irun i (Wk.m_tasks w) cs) as [[i' m'] t'].
    simpl. split; [by rewrite lookup_insert_ne|].
    destruct Ht as [[-> | ->] _]; [done|]. by rewrite lookup_delete_ne.
  - intros w l l' i cs Hb Hne. destruct (qt_run_focus cs w l i Hb) as [E _].
    rewrite E. simpl. by rewrite lookup_insert_ne.
Qed.

Lemma calls_on_one_executor_leave_the_others_witness :
  Wkg.heap (Wkg.run Samples.wkg_exec Scenes.wkg_calls Scenes.wkg_w2) !! 1%nat
  = Some (Wkg.new_impl Scenes.wkg_raw2 1) /\
  (Wk.heap (Wk.run Samples.wk_exec Scenes.wk_calls Scenes.wk_w2) !! 1%nat
   = Some (Wk.new_impl Scenes.wk_task2 43 1) /\
   Wk.m_tasks (Wk.run Samples.wk_exec Scenes.wk_calls Scenes.wk_w2) !! 43%nat
   = Some Scenes.wk_task2) /\
  (Qt.heap (Qt.run Samples.qt_exec Scenes.qt_stream Scenes.qt_w2) !! 1%nat
   = Some (Qt.new_impl 1 1 1) /\
   Qt.cells (Qt.run Samples.qt_exec Scenes.qt_stream Scenes.qt_w2)
   = {[ 0%nat := Some Samples.qt_raw; 1%nat := Some Scenes.qt_raw2 ]} /\
   Qt.connections (Qt.run Samples.qt_exec Scenes.qt_stream Scenes.qt_w2)
   = [(8%nat, (1%nat, 1%nat)); (7%nat, (0%nat, 0%nat))]).
Proof.
  destruct calls_on_one_executor_leave_the_others as (A & B & C).
  split; [|split].
  - rewrite (A Scenes.wkg_w2 0%nat 1%nat Scenes.wkg_i0).
    + vm_compute; reflexivity.
    + vm_compute; repeat split; reflexivity.
    + discriminate.
  - destruct (B Scenes.wk_w2 0%nat 1%nat Scenes.wk_i0 43%nat Scenes.wk_calls)
      as [E1 E2].
    + vm_compute; repeat split; reflexivity.
    + discriminate.
    + discriminate.
    + split; [refine (eq_trans E1 _)|refine (eq_trans E2 _)];
        vm_compute; reflexivity.
  - destruct (C Scenes.qt_w2 0%nat 1%nat Scenes.qt_i0 Scenes.qt_stream)
      as (E1 & E2 & E3).
    + vm_compute; repeat split; reflexivity.
    + discriminate.
    + split; [refine (eq_trans E1 _)|split;
                [refine (eq_trans E2 _)|refine (eq_trans E3 _)]];
        vm_compute; reflexivity.
Defined.

(** X13: the callbacks of the WebKitGTK and WebKit dispatchers.  Registering a
    second callback for a web view that has one keeps the first.  After
    [del_callback] a request of that web view is declined.  A callback
    added after [del_callback] is the one the dispatcher calls on the next
    request of that web view: with the request, a new executor and the
    world in which that executor's object (and, on WebKit, the task's
    table entry) has been made.  Adding or deleting the callback of another
    web view does not change how a request is dispatched. *)
Theorem callbacks_register_once_and_unregister :
  (forall (id : nat) (cb1 cb2 : Wkg.resolver) (h : Wkg.handler),
      Wkg.add_callback id cb2 (Wkg.add_callback id cb1 h) = Wkg.add_callback id cb1 h) /\
  (forall (raw : Wkg.uri_scheme_request) (h : Wkg.handler) (w : Wkg.world),
      Wkg.handle raw (Wkg.del_callback (Wkg.web_view raw) h) w = w) /\
  (forall (raw : Wkg.uri_scheme_request) (cb : Wkg.resolver) (h : Wkg.handler)
          (w : Wkg.world),
      let l := fresh (dom (Wkg.heap w)) in
      Wkg.handle raw (Wkg.add_callback (Wkg.web_view raw) cb
                        (Wkg.del_callback (Wkg.web_view raw) h)) w
      = cb (Wkg.RequestObject (Wkg.request_id raw)) (Wkg.Executor (Some l))
           (Wkg.World (<[l := Wkg.new_impl raw l]> (Wkg.heap w)) (Wkg.trace w))) /\
  (forall (raw : Wkg.uri_scheme_request) (id : nat) (cb : Wkg.resolver)
          (h : Wkg.handler) (w : Wkg.world),
      id <> Wkg.web_view raw ->
      Wkg.handle raw (Wkg.add_callback id cb h) w = Wkg.handle raw h w /\
      Wkg.handle raw (Wkg.del_callback id h) w = Wkg.handle raw h w) /\
  (forall (instance : nat) (cb1 cb2 : Wk.resolver) (h : Wk.handler),
      Wk.add_callback instance cb2 (Wk.add_callback instance cb1 h)
      = Wk.add_callback instance cb1 h) /\
  (forall (instance : nat) (task : Wk.task_ref) (h : Wk.handler) (w : Wk.world),
      Wk.startURLSchemeTask instance task (Wk.del_callback instance h) w = w) /\
  (forall (instance : nat) (task : Wk.task_ref) (cb : Wk.resolver)
          (h : Wk.handler) (w : Wk.world),
      let l := fresh (dom (Wk.heap w)) in
      Wk.startURLSchemeTask instance task
        (Wk.add_callback instance cb (Wk.del_callback instance h)) w
      = cb (Wk.RequestObject task) (Wk.Executor (Some l))
           (Wk.World (<[l := Wk.new_impl task (Wk.task_hash task) l]> (Wk.heap w))
              (Wk.emplace (Wk.task_hash task) task (Wk.m_tasks w)) (Wk.trace w))) /\
  (forall (instance id : nat) (task : Wk.task_ref) (cb : Wk.resolver)
          (h : Wk.handler) (w : Wk.world),
      id <> instance ->
      Wk.startURLSchemeTask instance task (Wk.add_callback id cb h) w
      = Wk.startURLSchemeTask instance task h w /\
      Wk.startURLSchemeTask instance task (Wk.del_callback id h) w
      = Wk.startURLSchemeTask instance task h w).
Proof.
  repeat apply conj.
  - intros id cb1 cb2 [m]. unfold Wkg.add_callback. cbn [Wkg.m_callbacks].
    destruct (m !! id) eqn:E; cbn [Wkg.m_callbacks].
    + by rewrite E.
    + by rewrite lookup_insert_eq.
  - intros raw [m] w. unfold Wkg.handle, Wkg.del_callback. cbn [Wkg.m_callbacks].
    by rewrite lookup_delete_eq.
  - intros raw cb [m] w l.
    unfold Wkg.handle, Wkg.add_callback, Wkg.del_callback. cbn [Wkg.m_callbacks].
    rewrite lookup_delete_eq. cbn [Wkg.m_callbacks].
    by rewrite lookup_insert_eq.
  - intros raw id cb [m] w Hne.
    unfold Wkg.handle, Wkg.add_callback, Wkg.del_callback. cbn [Wkg.m_callbacks].
    split.
    + destruct (m !! id); [done|]. cbn [Wkg.m_callbacks].
      by rewrite lookup_insert_ne.
    + by rewrite lookup_delete_ne.
  - intros id cb1 cb2 [m]. unfold Wk.add_callback. cbn [Wk.m_callbacks].
    destruct (m !! id) eqn:E; cbn [Wk.m_callbacks].
    + by rewrite E.
    + by rewrite lookup_insert_eq.
  - intros instance task [m] w.
    unfold Wk.startURLSchemeTask, Wk.del_callback. cbn [Wk.m_callbacks].
    by rewrite lookup_delete_eq.
  - intros instance task cb [m] w l.
    unfold Wk.startURLSchemeTask, Wk.add_callback, Wk.del_callback.
    cbn [Wk.m_callbacks]. rewrite lookup_delete_eq. cbn [Wk.m_callbacks].
    by rewrite lookup_insert_eq.
  - intros instance id task cb [m] w Hne.
    unfold Wk.startURLSchemeTask, Wk.add_callback, Wk.del_callback.
    cbn [Wk.m_callbacks]. split.
    + destruct (m !! id); [done|]. cbn [Wk.m_callbacks].
      by rewrite lookup_insert_ne.
    + by rewrite lookup_delete_ne.
Qed.

Lemma callbacks_register_once_and_unregister_witness :
  Wkg.handle Samples.wkg_raw (Wkg.add_callback 2 Samples.wkg_keep Samples.wkg_handler)
    (Wkg.World ∅ [])
  = Wkg.handle Samples.wkg_raw Samples.wkg_handler (Wkg.World ∅ []) /\
  Wk.startURLSchemeTask 1 Samples.wk_task (Wk.del_callback 2 Samples.wk_handler)
    (Wk.World ∅ ∅ [])
  = Wk.startURLSchemeTask 1 Samples.wk_task Samples.wk_handler (Wk.World ∅ ∅ []) /\
  Wkg.handle Samples.wkg_raw
    (Wkg.add_callback 1 Samples.wkg_keep (Wkg.del_callback 1 Samples.wkg_handler))
    (Wkg.World ∅ [])
  = Samples.wkg_w0 /\
  Wk.startURLSchemeTask 1 Samples.wk_task
    (Wk.add_callback 1 Samples.wk_keep (Wk.del_callback 1 Samples.wk_handler))
    (Wk.World ∅ ∅ [])
  = Samples.wk_w0.
Proof.
  destruct callbacks_register_once_and_unregister
    as (_ & _ & C & A & _ & _ & D & B).
  split; [|split; [|split]].
  - refine (proj1 (A Samples.wkg_raw 2%nat Samples.wkg_keep Samples.wkg_handler
                     (Wkg.World ∅ []) _)).
    discriminate.
  - refine (proj2 (B 1%nat 2%nat Samples.wk_task Samples.wk_keep Samples.wk_handler
                     (Wk.World ∅ ∅ []) _)).
    discriminate.
  - refine (eq_trans (C Samples.wkg_raw Samples.wkg_keep Samples.wkg_handler
                        (Wkg.World ∅ [])) _).
    vm_compute; reflexivity.
  - refine (eq_trans (D 1%nat Samples.wk_task Samples.wk_keep Samples.wk_handler
                        (Wk.World ∅ ∅ [])) _).
    vm_compute; reflexivity.
Defined.

(** ** Qt: the stream device and the job *)

Lemma device_calls_agree d bytes w :
  Qt.devices (Qt.device_push d bytes w) = alter (Device.push bytes) d (Qt.devices w) /\
  Qt.devices (Qt.device_close_write d w) = alter Device.close_write d (Qt.devices w).
Proof. done. Qed.

Lemma device_read_step max s n bytes s' :
  Qt.readData max s = Some (n, bytes, s') ->
  Qt.m_buffer s = bytes ++ Qt.m_buffer s' /\
  Qt.m_finished s' = Qt.m_finished s /\
  (length bytes <= max)%nat /\
  ((n = -1 /\ Qt.m_buffer s = [] /\ Qt.m_finished s = true) \/
   (n = Z.of_nat (length bytes) /\ Qt.m_buffer s <> [])).
Proof.
  unfold Qt.readData. destruct (Qt.m_buffer s) as [|b buf] eqn:Eb.
  - destruct (Qt.m_finished s) eqn:Ef; [|done].
    intros [= <- <- <-]. rewrite Eb, Ef. simpl. repeat split; try done; try lia.
    by left.
  - intros [= <- <- <-]. cbn [Qt.m_buffer Qt.m_finished].
    rewrite take_drop. split; [done|]. split; [done|].
    rewrite length_take. cbn [length]. split; [lia|]. right. split; [|done].
    f_equal. lia.
Qed.

(** X14: the stream device is a first-in first-out byte queue.  For any
    sequence of [push], [close_write] and [readData] calls in which no read
    has to wait, the bytes held at the start followed by the bytes pushed
    are the bytes the reads returned, in order, followed by the bytes still
    held: nothing is lost, duplicated or reordered, and the parent of the
    device stays the same. *)
Theorem stream_device_is_a_byte_queue :
  forall (ops : list Device.op) (s s' : Qt.stream_device) (out : stash),
    Device.run ops s = Some (out, s') ->
    Qt.m_buffer s ++ Device.pushed ops = out ++ Qt.m_buffer s' /\
    Qt.parent s' = Qt.parent s.
Proof.
  induction ops as [|o ops IH]; intros s s' out H; simpl in H.
  - injection H as <- <-. simpl. by rewrite app_nil_r.
  - destruct o as [bytes| |max].
    + destruct (IH _ _ _ H) as [E Ep]. simpl in *. split; [|done].
      by rewrite app_assoc.
    + destruct (IH _ _ _ H) as [E Ep]. simpl in *. done.
    + destruct (Qt.readData max s) as [[[n bytes] s1]|] eqn:Er; [|done].
      destruct (Device.run ops s1) as [[out1 s2]|] eqn:E1; [|done].
      injection H as <- <-.
      destruct (device_read_step _ _ _ _ _ Er) as (Eb & _ & _ & _).
      destruct (IH _ _ _ E1) as [E Ep]. simpl.
      rewrite Eb, <- !app_assoc, E. split; [done|].
      rewrite Ep. unfold Qt.readData in Er.
      destruct (Qt.m_buffer s); [destruct (Qt.m_finished s)|]; by simplify_eq.
Qed.

Lemma stream_device_is_a_byte_queue_witness :
  Qt.m_buffer Scenes.device_0 ++ Device.pushed Scenes.device_calls
  = (Samples.chunk_a ++ Samples.chunk_b)
    ++ Qt.m_buffer (Qt.StreamDevice (Some 7%nat) [] true) /\
  Qt.parent (Qt.StreamDevice (Some 7%nat) [] true) = Qt.parent Scenes.device_0.
Proof.
  apply (stream_device_is_a_byte_queue Scenes.device_calls).
  vm_compute; reflexivity.
Defined.

(** X15: [readData] waits exactly when the device is empty and still open.
    Otherwise it hands out a prefix of the held bytes of at most [max]
    bytes, keeps the rest, leaves the end-of-stream flag alone and returns
    the number of bytes handed out; it returns -1 only when the device is
    empty and closed. *)
Theorem stream_device_read_bounds :
  forall (max : nat) (s : Qt.stream_device),
    (Qt.readData max s = None <->
     Qt.m_buffer s = [] /\ Qt.m_finished s = false) /\
    (forall n bytes s',
        Qt.readData max s = Some (n, bytes, s') ->
        Qt.m_buffer s = bytes ++ Qt.m_buffer s' /\
        Qt.m_finished s' = Qt.m_finished s /\
        (length bytes <= max)%nat /\
        ((n = -1 /\ Qt.m_buffer s = [] /\ Qt.m_finished s = true) \/
         (n = Z.of_nat (length bytes) /\ Qt.m_buffer s <> []))).
Proof.
  intros max s. split; [|apply device_read_step].
  unfold Qt.readData. destruct (Qt.m_buffer s) as [|b buf].
  - destruct (Qt.m_finished s); split; try done; intros [_ ?]; done.
  - split; [done|]. intros [? _]; done.
Qed.

Lemma stream_device_read_bounds_witness :
  Qt.readData 2 (Qt.StreamDevice None Samples.chunk_a false)
  = Some (2, [Byte.x68; Byte.x65], Qt.StreamDevice None [Byte.x6c] false) /\
  (length [Byte.x68; Byte.x65] <= 2)%nat.
Proof.
  assert (H : Qt.readData 2 (Qt.StreamDevice None Samples.chunk_a false)
              = Some (2, [Byte.x68; Byte.x65], Qt.StreamDevice None [Byte.x6c] false))
    by (vm_compute; reflexivity).
  split; [exact H|].
  exact (proj1 (proj2 (proj2 (proj2 (stream_device_read_bounds 2 _) _ _ _ H)))).
Defined.

Lemma qt_step_own_device req i c d' :
  Qt.device i <> Some d' ->
  forall devs, foldl Qt.device_effect devs (Qt.istep req i c).2 !! d' = devs !! d'.
Proof.
  intros Hd devs.
  destruct c as [r|err|r|d|]; simpl; repeat case_match; simpl; try done;
    rewrite ?lookup_alter_ne by congruence; done.
Qed.

Lemma qt_run_own_device req cs d' : forall i devs,
  Qt.device i <> Some d' ->
  foldl Qt.device_effect devs (Qt.irun req i cs).2 !! d' = devs !! d'.
Proof.
  induction cs as [|c cs IH]; intros i devs Hd; simpl; [done|].
  pose proof (qt_step_own_device req i c d' Hd) as H1.
  destruct (qt_istep_static req i c) as (_ & Ed & _).
  destruct (Qt.istep req i c) as [i1 t1]. simpl in *.
  specialize (IH i1). destruct (Qt.irun req i1 cs) as [i2 t2]. simpl in *.
  rewrite foldl_app, IH by congruence. apply H1.
Qed.

(** X16: on Qt, a sequence of calls on an executor leaves every stream device
    other than the executor's own as it was. *)
Theorem qt_calls_reach_only_their_device :
  forall (w : Qt.world) (l d' : loc) (i : Qt.impl) (cs : list Qt.call),
    Qt.bound w l i -> Qt.device i <> Some d' ->
    Qt.devices (Qt.run (Qt.Executor (Some l)) cs w) !! d' = Qt.devices w !! d'.
Proof.
  intros w l d' i cs Hb Hd. destruct (qt_run_focus cs w l i Hb) as [E _].
  rewrite E. simpl. by apply qt_run_own_device.
Qed.

Lemma qt_calls_reach_only_their_device_witness :
  Qt.devices (Qt.run Samples.qt_exec Scenes.qt_stream Scenes.qt_w2) !! 1%nat
  = Some (Qt.StreamDevice (Some 8%nat) [] false).
Proof.
  refine (eq_trans
            (qt_calls_reach_only_their_device Scenes.qt_w2 0%nat 1%nat Scenes.qt_i0
               Scenes.qt_stream _ _) _).
  - vm_compute; repeat split; reflexivity.
  - discriminate.
  - vm_compute; reflexivity.
Defined.

Lemma qt_step_without_job i c :
  Forall (fun e => is_device_call e = true) (Qt.istep None i c).2.
Proof.
  destruct c as [r|err|r|d|]; simpl; repeat case_match; simpl;
    repeat constructor.
Qed.

Lemma qt_run_without_job cs : forall i,
  Forall (fun e => is_device_call e = true) (Qt.irun None i cs).2.
Proof.
  induction cs as [|c cs IH]; intros i; simpl; [constructor|].
  pose proof (qt_step_without_job i c) as H1.
  destruct (Qt.istep None i c) as [i1 t1]. specialize (IH i1).
  destruct (Qt.irun None i1 cs) as [i2 t2]. simpl in *.
  by apply Forall_app.
Qed.

(** X17: on Qt, once the job pointer of an executor is null, no sequence of
    calls on the executor reaches the job: every call made is a [push] or a
    [close_write] on the stream device, and [streaming()] is false
    afterwards. *)
Theorem qt_destroyed_job_is_never_called :
  forall (w : Qt.world) (l : loc) (i : Qt.impl) (cs : list Qt.call),
    Qt.bound w l i -> Qt.value w (Qt.request i) = None ->
    exists t,
      Qt.trace (Qt.run (Qt.Executor (Some l)) cs w) = Qt.trace w ++ t /\
      Forall (fun e => is_device_call e = true) t /\
      Qt.streaming (Qt.Executor (Some l)) (Qt.run (Qt.Executor (Some l)) cs w) = false.
Proof.
  intros w l i cs Hb Hv. destruct (qt_run_focus cs w l i Hb) as [E Hb'].
  exists (Qt.irun (Qt.value w (Qt.request i)) i cs).2.
  split; [by rewrite E|]. split; [rewrite Hv; apply qt_run_without_job|].
  rewrite E. unfold Qt.streaming. cbn [Qt.m_impl Qt.heap].
  rewrite lookup_insert_eq. rewrite qt_value_world.
  assert (Er : Qt.request (Qt.irun (Qt.value w (Qt.request i)) i cs).1 = Qt.request i).
  { generalize (Qt.value w (Qt.request i)) as req. clear. intros req. revert i.
    induction cs as [|c cs IH]; intros i; simpl; [done|].
    destruct (qt_istep_static req i c) as (E1 & _).
    destruct (Qt.istep req i c) as [i1 t1]. specialize (IH i1).
    destruct (Qt.irun req i1 cs) as [i2 t2]. simpl in *. congruence. }
  rewrite Er, Hv. done.
Qed.

Lemma qt_destroyed_job_is_never_called_witness :
  exists t,
    Qt.trace (Qt.run Samples.qt_exec Scenes.qt_calls Scenes.qt_gone)
    = Qt.trace Scenes.qt_gone ++ t /\
    Forall (fun e => is_device_call e = true) t /\
    Qt.streaming Samples.qt_exec (Qt.run Samples.qt_exec Scenes.qt_calls Scenes.qt_gone)
    = false.
Proof.
  apply (qt_destroyed_job_is_never_called Scenes.qt_gone 0%nat Scenes.qt_i1).
  - vm_compute; repeat split; reflexivity.
  - vm_compute; reflexivity.
Defined.

Lemma qt_destroyed_lambdas id conns : forall w,
  let w' := foldr (fun c w => if Nat.eqb (fst c) id
                              then Qt.destroyed_lambda (snd c) w else w) w conns in
  Qt.heap w' = Qt.heap w /\
  Qt.connections w' = Qt.connections w /\
  (forall cell,
      (exists dev, (id, (cell, dev)) ∈ conns) \/ Qt.value w cell = None ->
      Qt.value w' cell = None) /\
  (forall cell,
      (forall dev, (id, (cell, dev)) ∉ conns) ->
      Qt.value w' cell = Qt.value w cell).
Proof.
  induction conns as [|[id' [cell' dev']] conns IH]; intros w; cbn zeta.
  - simpl. repeat split; try done.
    intros cell [(dev & Hin%elem_of_nil)|H]; done.
  - destruct (IH w) as (Hh & Hc & Hv & Hk). cbn zeta in *. cbn [foldr fst snd].
    set (w1 := foldr _ w conns) in *.
    destruct (Nat.eqb id' id) eqn:E.
    + apply Nat.eqb_eq in E. subst id'.
      unfold Qt.destroyed_lambda, Qt.device_close_write, Qt.assign_null, Qt.emit, Qt.value.
      cbn [Qt.heap Qt.cells Qt.connections Qt.devices Qt.trace].
      split; [done|]. split; [done|]. split.
      * intros cell H. destruct (decide (cell = cell')) as [->|Hne].
        -- by rewrite lookup_insert_eq.
        -- rewrite lookup_insert_ne by done. apply Hv.
           destruct H as [(dev & Hin)|H]; [|by right].
           apply elem_of_cons in Hin as [Heq|Hin]; [congruence|]. left. eauto.
      * intros cell Hno. destruct (decide (cell = cell')) as [->|Hne].
        -- exfalso. apply (Hno dev'). by left.
        -- rewrite lookup_insert_ne by done. apply Hk.
           intros dev Hin. apply (Hno dev). by right.
    + apply Nat.eqb_neq in E.
      split; [done|]. split; [done|]. split.
      * intros cell H. apply Hv.
        destruct H as [(dev & Hin)|H]; [|by right].
        apply elem_of_cons in Hin as [Heq|Hin]; [congruence|]. left. eauto.
      * intros cell Hno. apply Hk. intros dev Hin. apply (Hno dev). by right.
Qed.

(** X18: on Qt, when a job is destroyed, the executor of every request
    connected to it keeps its object but reads a null job pointer, so
    [streaming()] is false; no connection of the job is left, and the job
    pointers of requests that are not connected to it are as before. *)
Theorem qt_destroyed_cuts_the_executor_off :
  forall (w : Qt.world) (id : nat) (dev l : loc) (i : Qt.impl),
    Qt.bound w l i -> (id, (Qt.request i, dev)) ∈ Qt.connections w ->
    Qt.bound (Qt.destroyed id w) l i /\
    Qt.value (Qt.destroyed id w) (Qt.request i) = None /\
    Qt.streaming (Qt.Executor (Some l)) (Qt.destroyed id w) = false /\
    (forall c, c ∈ Qt.connections (Qt.destroyed id w) -> c.1 <> id) /\
    (forall cell, (forall dev', (id, (cell, dev')) ∉ Qt.connections w) ->
                  Qt.value (Qt.destroyed id w) cell = Qt.value w cell).
Proof.
  intros w id dev l i Hb Hin.
  destruct (qt_destroyed_lambdas id (Qt.connections w) w) as (Hh & Hc & Hv & Hk).
  cbn zeta in *.
  assert (Hval : Qt.value (Qt.destroyed id w) (Qt.request i) = None).
  { unfold Qt.destroyed. rewrite qt_value_world. apply Hv. left. eauto. }
  assert (Hb' : Qt.bound (Qt.destroyed id w) l i).
  { destruct Hb as (Hl & Hr & Hj). unfold Qt.bound, Qt.destroyed.
    cbn [Qt.heap]. by rewrite Hh. }
  split; [done|]. split; [done|]. split; [|split].
  - unfold Qt.streaming. cbn [Qt.m_impl]. destruct Hb' as (-> & _). by rewrite Hval.
  - unfold Qt.destroyed. cbn [Qt.connections]. rewrite Hc.
    intros c Hc'%list_elem_of_filter. tauto.
  - intros cell Hno. unfold Qt.destroyed. rewrite qt_value_world. by apply Hk.
Qed.

Lemma qt_destroyed_cuts_the_executor_off_witness :
  Qt.value (Qt.destroyed 7 Scenes.qt_w1) 0%nat = None /\
  Qt.streaming Samples.qt_exec (Qt.destroyed 7 Scenes.qt_w1) = false.
Proof.
  destruct (qt_destroyed_cuts_the_executor_off Scenes.qt_w1 7%nat 0%nat 0%nat Scenes.qt_i1)
    as (_ & Hv & Hs & _).
  - vm_compute; repeat split; reflexivity.
  - apply list_elem_of_In. vm_compute. left. reflexivity.
  - split; [exact Hv|exact Hs].
Defined.

(** X19: on Qt, while the job is alive, [request::headers] makes one
    [requestHeaders] call and returns a map whose keys are the values of
    the job's header map, not its names: a key is present exactly when some
    header has it as its value, and it is mapped to what the job's header
    map holds under that key, the empty string when there is no such
    header name. *)
Theorem qt_request_headers_are_keyed_by_values :
  forall (r : Qt.request_object) (w : Qt.world) (j : Qt.job),
    Qt.value w (Qt.req_request r) = Some j ->
    exists m : gmap string string,
      Qt.request_headers r w = Qt.returned m [Qt.get_requestHeaders (Qt.job_id j)] /\
      (forall k : string,
          is_Some (m !! k) <-> exists name, Qt.requestHeaders j !! name = Some k) /\
      (forall k v : string,
          m !! k = Some v -> v = default ""%string (Qt.requestHeaders j !! k)).
Proof.
  intros r w j Hv. unfold Qt.request_headers. rewrite Hv.
  eexists. split; [reflexivity|].
  set (hs := Qt.requestHeaders j).
  set (tr := fun item : string => (item, default ""%string (hs !! item))).
  assert (Ekeys : (tr <$> (map_to_list hs).*2).*1 = (map_to_list hs).*2).
  { rewrite <- list_fmap_compose.
    transitivity (id <$> (map_to_list hs).*2); [|apply list_fmap_id].
    by apply list_fmap_ext. }
  split.
  - intros k. rewrite <- not_eq_None_Some.
    pose proof (not_elem_of_list_to_map (M := gmap string)
                  (tr <$> (map_to_list hs).*2) k) as [Hnone1 Hnone2].
    rewrite Ekeys in Hnone1, Hnone2.
    split.
    + intros Hin. destruct (decide (k ∈ (map_to_list hs).*2)) as [Hk|Hk].
      * apply list_elem_of_fmap in Hk as ([name v] & -> & Hk).
        apply elem_of_map_to_list in Hk. by exists name.
      * by destruct Hin; apply Hnone1.
    + intros (name & Hn) Hnone. apply Hnone2 in Hnone. apply Hnone.
      apply list_elem_of_fmap. exists (name, k). split; [done|].
      by apply elem_of_map_to_list.
  - intros k v Hkv. apply elem_of_list_to_map_2 in Hkv.
    apply list_elem_of_fmap in Hkv as (item & [= -> ->] & _). done.
Qed.

Lemma qt_request_headers_are_keyed_by_values_witness :
  exists m : gmap string string,
    Qt.request_headers Samples.qt_req Samples.qt_w0
    = Qt.returned m [Qt.get_requestHeaders 7] /\
    is_Some (m !! "*/*"%string) /\
    m !! "Accept"%string = None.
Proof.
  destruct (qt_request_headers_are_keyed_by_values Samples.qt_req Samples.qt_w0
              Samples.qt_raw)
    as (m & E & Hk & _).
  - vm_compute; reflexivity.
  - exists m. split; [exact E|]. split.
    + apply Hk. exists "Accept"%string. vm_compute; reflexivity.
    + destruct (m !! "Accept"%string) as [v|] eqn:Hm; [|reflexivity].
      exfalso. destruct (proj1 (Hk "Accept"%string) (ex_intro _ v Hm)) as (name & Hn).
      revert Hn. change (Qt.requestHeaders Samples.qt_raw)
        with ({[ "Accept"%string := "*/*"%string ]} : gmap string string).
      intros Hn. apply lookup_singleton_Some in Hn. destruct Hn as [_ Hn].
      discriminate Hn.
Defined.

(** ** Qt: the order of the calls *)

Lemma qt_accepts_app p t1 : forall t2,
  qt_accepts p (t1 ++ t2)
  = match qt_accepts p t1 with
    | Some p' => qt_accepts p' t2
    | None => None
    end.
Proof.
  revert p. induction t1 as [|e t1 IH]; intros p t2; simpl; [done|].
  destruct (qt_next p e); [apply IH|done].
Qed.

Lemma qt_step_protocol j i c p :
  qt_compat i p ->
  exists p',
    qt_accepts p (Qt.istep (Some j) i c).2 = Some p' /\
    qt_compat (Qt.istep (Some j) i c).1 p'.
Proof.
  unfold qt_compat. intros Hc.
  destruct c as [r|err|r|d|]; simpl;
    destruct (Qt.started i) eqn:Hs, (Qt.finished i) eqn:Hf; simpl;
    try (destruct (Qt.device i) as [dv|] eqn:Hd; simpl);
    rewrite ?Hs, ?Hf;
    try (destruct Hc as [-> | [-> | [-> | ->]]]); subst;
    (eexists; split; [reflexivity|]); simpl; auto.
Qed.

Lemma qt_run_protocol j cs : forall i p,
  qt_compat i p ->
  is_Some (qt_accepts p (Qt.irun (Some j) i cs).2).
Proof.
  induction cs as [|c cs IH]; intros i p Hc; simpl; [by eexists|].
  destruct (qt_step_protocol j i c p Hc) as (p1 & Ha & Hc1).
  destruct (Qt.istep (Some j) i c) as [i1 t1]. cbn [fst snd] in *.
  specialize (IH i1 p1 Hc1).
  destruct (Qt.irun (Some j) i1 cs) as [i2 t2]. cbn [fst snd] in *.
  by rewrite qt_accepts_app, Ha.
Qed.

(** X20: on Qt, whatever a producer calls on an Idle executor whose job is
    alive, the calls that reach the job and the stream device keep this
    order: the response headers are set right before the one [reply], with
    a buffer or with the device; [push] comes only after a reply with the
    device and before the first [close_write] or [fail]; [fail] comes at
    most once and never after a buffer was replied; what may repeat is
    [close_write], once the stream is over. *)
Theorem qt_calls_follow_the_job_protocol :
  forall (w : Qt.world) (l : loc) (i : Qt.impl) (j : Qt.job) (cs : list Qt.call),
    Qt.bound w l i -> Qt.idle i -> Qt.value w (Qt.request i) = Some j ->
    exists evs,
      Qt.trace (Qt.run (Qt.Executor (Some l)) cs w) = Qt.trace w ++ evs /\
      is_Some (qt_accepts qt_fresh evs).
Proof.
  intros w l i j cs Hb [Hs Hf] Hv.
  destruct (qt_run_focus cs w l i Hb) as [E _].
  exists (Qt.irun (Qt.value w (Qt.request i)) i cs).2. split; [by rewrite E|].
  rewrite Hv. apply qt_run_protocol. unfold qt_compat. by rewrite Hf, Hs.
Qed.

Lemma qt_calls_follow_the_job_protocol_witness :
  exists evs,
    Qt.trace (Qt.run Samples.qt_exec Scenes.qt_stream Samples.qt_w0)
    = Qt.trace Samples.qt_w0 ++ evs /\
    is_Some (qt_accepts qt_fresh evs).
Proof.
  apply (qt_calls_follow_the_job_protocol Samples.qt_w0 0%nat Scenes.qt_i0 Samples.qt_raw).
  - vm_compute; repeat split; reflexivity.
  - vm_compute; split; reflexivity.
  - vm_compute; reflexivity.
Defined.

(** ** The echo prototype *)

(** X21: [DataQueue] is a first-in first-out queue.  For any sequence of [push]
    and [try_pop] calls, the vectors held at the start followed by the
    vectors pushed are the vectors the pops returned, in order, followed by
    the vectors still held; the sizes add up accordingly, and [try_pop]
    returns nothing exactly when the queue is empty. *)
Theorem data_queue_is_fifo :
  forall (ops : list Proto01.queue_op) (q : Proto01.DataQueue),
    Proto01.m_queue q ++ Proto01.pushes ops
    = omap id (Proto01.run_queue ops q).1 ++ Proto01.m_queue (Proto01.run_queue ops q).2 /\
    (Proto01.size (Proto01.run_queue ops q).2 + length (omap id (Proto01.run_queue ops q).1)
     = Proto01.size q + length (Proto01.pushes ops))%nat /\
    ((Proto01.try_pop q).1 = None <-> Proto01.m_queue q = []).
Proof.
  intros ops q.
  assert (H : Proto01.m_queue q ++ Proto01.pushes ops
              = omap id (Proto01.run_queue ops q).1
                ++ Proto01.m_queue (Proto01.run_queue ops q).2).
  { revert q. induction ops as [|[data|] ops IH]; intros q; simpl.
    - by rewrite app_nil_r.
    - rewrite <- IH. simpl. by rewrite <- app_assoc.
    - unfold Proto01.try_pop. destruct (Proto01.m_queue q) as [|d rest] eqn:Eq.
      + specialize (IH q). rewrite Eq in IH.
        destruct (Proto01.run_queue ops q) as [rs q2].
        cbn [fst snd] in *. exact IH.
      + specialize (IH (Proto01.Queue rest)).
        destruct (Proto01.run_queue ops (Proto01.Queue rest)) as [rs q2].
        cbn [fst snd Proto01.m_queue] in *.
        change (omap id (Some d :: rs)) with (d :: omap id rs).
        cbn [app]. by rewrite <- IH. }
  split; [exact H|]. split.
  - apply (f_equal length) in H. rewrite !length_app in H.
    unfold Proto01.size. lia.
  - unfold Proto01.try_pop. by destruct (Proto01.m_queue q).
Qed.

Section HandlerFacts.

Context {W : Type} (exec : Proto01.executor W).


Lemma proto01_serve_app reqs1 reqs2 s :
  Proto01.serve exec (reqs1 ++ reqs2) s
  = Proto01.serve exec reqs2 (Proto01.serve exec reqs1 s).
Proof. apply foldl_app. Qed.

Lemma proto01_write_step b g w :
  Proto01.io_handler (Proto01.post_write b) exec (g, w)
  = (Proto01.Globals (Proto01.push b (Proto01.g_to_js g)) (Proto01.g_from_js g)
       (Proto01.g_bytes_to_js g)
       (Proto01.add_u64 (Proto01.g_bytes_from_js g) (Z.of_nat (length b)))
       (Proto01.g_requests_to_js g)
       (Proto01.add_u64 (Proto01.g_requests_from_js g) 1),
     Proto01.resolve exec Proto01.no_content w).
Proof. reflexivity. Qed.

Lemma proto01_read_step g w :
  Proto01.io_handler Proto01.get_read exec (g, w)
  = match Proto01.m_queue (Proto01.g_to_js g) with
    | [] =>
        (Proto01.Globals (Proto01.g_to_js g) (Proto01.g_from_js g)
           (Proto01.g_bytes_to_js g) (Proto01.g_bytes_from_js g)
           (Proto01.g_requests_to_js g) (Proto01.g_requests_from_js g),
         Proto01.resolve exec (Proto01.octets []) w)
    | d :: rest =>
        (Proto01.Globals (Proto01.Queue rest) (Proto01.g_from_js g)
           (Proto01.add_u64 (Proto01.g_bytes_to_js g) (Z.of_nat (length d)))
           (Proto01.g_bytes_from_js g)
           (Proto01.add_u64 (Proto01.g_requests_to_js g) 1)
           (Proto01.g_requests_from_js g),
         Proto01.resolve exec (Proto01.octets d) w)
    end.
Proof.
  unfold Proto01.io_handler, Proto01.try_pop. cbn [Proto01.method Proto01.path Proto01.get_read].
  rewrite (bool_decide_eq_false_2 (_ = "POST"%string)) by done. cbn [andb].
  rewrite (bool_decide_eq_true_2 ("/read"%string = _)) by done.
  by destruct (Proto01.m_queue (Proto01.g_to_js g)).
Qed.

Lemma proto01_writes bodies : forall g w,
  Proto01.m_queue (Proto01.g_to_js (Proto01.serve exec (Proto01.post_write <$> bodies) (g, w)).1)
  = Proto01.m_queue (Proto01.g_to_js g) ++ bodies /\
  (Proto01.serve exec (Proto01.post_write <$> bodies) (g, w)).2
  = Proto01.resolve_all exec (replicate (length bodies) Proto01.no_content) w.
Proof.
  induction bodies as [|b bodies IH]; intros g w.
  - simpl. by rewrite app_nil_r.
  - rewrite fmap_cons. unfold Proto01.serve in *. cbn [foldl].
    rewrite proto01_write_step.
    match goal with
    | |- context [foldl _ (?g1, ?w1) _] => destruct (IH g1 w1) as [E1 E2]
    end.
    rewrite E1, E2. cbn [Proto01.g_to_js Proto01.push Proto01.m_queue].
    by rewrite <- app_assoc.
Qed.

Lemma proto01_reads n : forall g w,
  Proto01.m_queue (Proto01.g_to_js (Proto01.serve exec (replicate n Proto01.get_read) (g, w)).1)
  = drop n (Proto01.m_queue (Proto01.g_to_js g)) /\
  (Proto01.serve exec (replicate n Proto01.get_read) (g, w)).2
  = Proto01.resolve_all exec
      ((Proto01.octets <$> take n (Proto01.m_queue (Proto01.g_to_js g)))
       ++ replicate (n - length (Proto01.m_queue (Proto01.g_to_js g))) (Proto01.octets []))
      w.
Proof.
  induction n as [|n IH]; intros g w.
  - simpl. by rewrite drop_0.
  - cbn [replicate]. unfold Proto01.serve in *. cbn [foldl].
    rewrite proto01_read_step.
    destruct (Proto01.m_queue (Proto01.g_to_js g)) as [|d rest] eqn:Eq.
    + match goal with
      | |- context [foldl _ (?g1, ?w1) _] => destruct (IH g1 w1) as [E1 E2]
      end.
      rewrite E1, E2. cbn [Proto01.g_to_js]. rewrite Eq.
      rewrite drop_nil, take_nil. cbn [length fmap list_fmap app].
      rewrite !Nat.sub_0_r. done.
    + match goal with
      | |- context [foldl _ (?g1, ?w1) _] => destruct (IH g1 w1) as [E1 E2]
      end.
      rewrite E1, E2. cbn [Proto01.g_to_js Proto01.m_queue]. done.
Qed.

End HandlerFacts.


(** X22: the [io] handler of the echo prototype hands back what it was sent, in
    order.  After a [POST /write] for each body of a list and then [n]
    requests for [/read], the executor was resolved once per request: with
    204 and no body for each write, then with 200 and, one per read, the
    vectors that were queued before followed by the bodies, in that order,
    then with 200 and an empty body for every read beyond them; the queue
    holds what the reads did not take. *)
Theorem io_echoes_in_order :
  forall (W : Type) (exec : Proto01.executor W) (bodies : list stash) (n : nat)
         (g : Proto01.globals) (w : W),
    let s' := Proto01.serve exec
                ((Proto01.post_write <$> bodies) ++ replicate n Proto01.get_read) (g, w) in
    let queued := Proto01.m_queue (Proto01.g_to_js g) ++ bodies in
    s'.2 = Proto01.resolve_all exec
             (replicate (length bodies) Proto01.no_content
              ++ (Proto01.octets <$> take n queued)
              ++ replicate (n - length queued) (Proto01.octets []))
             w /\
    Proto01.m_queue (Proto01.g_to_js s'.1) = drop n queued.
Proof.
  intros W exec bodies n g w. cbn zeta.
  rewrite proto01_serve_app.
  destruct (proto01_writes exec bodies g w) as [E1 E2].
  destruct (Proto01.serve exec (Proto01.post_write <$> bodies) (g, w)) as [g1 w1].
  cbn [fst snd] in *.
  destruct (proto01_reads exec n g1 w1) as [E3 E4].
  rewrite E3, E4, E1, E2. split; [|done].
  unfold Proto01.resolve_all. symmetry. apply foldl_app.
Qed.

Lemma mod_u64_shift a b c d :
  (a - b) mod 2 ^ 64 = c mod 2 ^ 64 ->
  (Proto01.add_u64 a d - b) mod 2 ^ 64 = (c + d) mod 2 ^ 64.
Proof.
  unfold Proto01.add_u64. intros H.
  rewrite Zminus_mod_idemp_l.
  replace (a + d - b) with ((a - b) + d) by lia.
  rewrite <- Zplus_mod_idemp_l, H, Zplus_mod_idemp_l. done.
Qed.

Lemma mod_u64_unshift a b c d :
  (a - b) mod 2 ^ 64 = (c + d) mod 2 ^ 64 ->
  (a - Proto01.add_u64 b d) mod 2 ^ 64 = c mod 2 ^ 64.
Proof.
  unfold Proto01.add_u64. intros H.
  rewrite Zminus_mod_idemp_r.
  replace (a - (b + d)) with ((a - b) - d) by lia.
  rewrite <- Zminus_mod_idemp_l, H, Zminus_mod_idemp_l. f_equal. lia.
Qed.

Lemma proto01_counters_step {W} (exec : Proto01.executor W) req g w :
  Proto01.counters_match g ->
  Proto01.counters_match (Proto01.io_handler req exec (g, w)).1.
Proof.
  unfold Proto01.counters_match, Proto01.queued_bytes, Proto01.size.
  intros [Hb Hr]. unfold Proto01.io_handler.
  destruct (bool_decide (Proto01.method req = "POST"%string)
            && bool_decide (Proto01.path req = "/write"%string)).
  - cbn [fst Proto01.g_to_js Proto01.g_bytes_to_js Proto01.g_bytes_from_js
         Proto01.g_requests_to_js Proto01.g_requests_from_js Proto01.push Proto01.m_queue].
    rewrite concat_app, !length_app. cbn [concat length]. rewrite app_nil_r.
    rewrite !Nat2Z.inj_add. split; by apply mod_u64_shift.
  - destruct (bool_decide (Proto01.path req = "/read"%string)); [|done].
    unfold Proto01.try_pop.
    destruct (Proto01.m_queue (Proto01.g_to_js g)) as [|d rest] eqn:Eq.
    + cbn [fst Proto01.g_to_js Proto01.g_bytes_to_js Proto01.g_bytes_from_js
           Proto01.g_requests_to_js Proto01.g_requests_from_js]. by rewrite Eq.
    + cbn [fst Proto01.g_to_js Proto01.g_bytes_to_js Proto01.g_bytes_from_js
           Proto01.g_requests_to_js Proto01.g_requests_from_js Proto01.m_queue].
      cbn [concat length] in Hb, Hr. rewrite length_app, Nat2Z.inj_add in Hb.
      split; apply mod_u64_unshift.
      * rewrite Hb. f_equal. lia.
      * rewrite Hr. f_equal. lia.
Qed.

(** X23: the counters of the echo prototype account for the queue.  If the
    bytes and requests counted as received exceed those counted as handed
    back by exactly the bytes and the vectors queued (modulo 2^64, the
    width of the counters), then the same holds after any sequence of
    requests, whatever their methods and paths; the handler never touches
    the other queue. *)
Theorem io_counters_track_the_queue :
  forall (W : Type) (exec : Proto01.executor W) (reqs : list Proto01.request)
         (g : Proto01.globals) (w : W),
    Proto01.counters_match g ->
    Proto01.counters_match (Proto01.serve exec reqs (g, w)).1 /\
    Proto01.g_from_js (Proto01.serve exec reqs (g, w)).1 = Proto01.g_from_js g.
Proof.
  intros W exec reqs. unfold Proto01.serve.
  induction reqs as [|req reqs IH] using rev_ind; intros g w H; [done|].
  rewrite foldl_app. cbn [foldl]. destruct (IH g w H) as [H1 H2].
  destruct (foldl _ (g, w) reqs) as [g1 w1]. cbn [fst] in *.
  split; [by apply proto01_counters_step|].
  rewrite <- H2. unfold Proto01.io_handler, Proto01.try_pop.
  repeat case_match; done.
Qed.

Lemma io_counters_track_the_queue_witness :
  Proto01.counters_match (Proto01.serve Scenes.recorder Scenes.page (Scenes.g_0, [])).1 /\
  Proto01.g_from_js (Proto01.serve Scenes.recorder Scenes.page (Scenes.g_0, [])).1
  = Proto01.g_from_js Scenes.g_0.
Proof.
  apply (io_counters_track_the_queue _ Scenes.recorder Scenes.page Scenes.g_0 []).
  vm_compute; split; reflexivity.
Defined.

(** ** The chunk size in a request URL *)

Lemma chunk_digit_pretty d :
  (d < 10)%N -> ChunkSize.digit (pretty_N_char d) = Some d.
Proof.
  intros H.
  assert (d = 0 \/ d = 1 \/ d = 2 \/ d = 3 \/ d = 4 \/ d = 5 \/ d = 6 \/ d = 7
          \/ d = 8 \/ d = 9)%N as Hd by lia.
  repeat (destruct Hd as [->|Hd]; [reflexivity|]). by subst.
Qed.

Lemma chunk_pretty_char_plain d :
  ChunkSize.isspace (pretty_N_char d) = false /\
  (Ascii.N_of_ascii (pretty_N_char d) =? 43)%N = false /\
  (Ascii.N_of_ascii (pretty_N_char d) =? 45)%N = false /\
  is_Some (ChunkSize.digit (pretty_N_char d)).
Proof. unfold pretty_N_char. repeat case_match; repeat split; by eexists. Qed.

Lemma chunk_read_pretty_go x : forall s seen,
  ChunkSize.read_digits 0 seen (pretty_N_go x s)
  = ChunkSize.read_digits x (seen || (0 <? x)%N) s.
Proof.
  induction (N.lt_wf_0 x) as [x _ IH]; intros s seen.
  destruct (decide (x = 0%N)) as [->|Hx].
  - rewrite pretty_N_go_0. by rewrite orb_false_r.
  - rewrite pretty_N_go_step by lia.
    rewrite IH by (apply N.div_lt; lia).
    cbn [ChunkSize.read_digits].
    rewrite chunk_digit_pretty by (apply N.mod_lt; lia).
    assert (E : (0 <? x)%N = true) by (apply N.ltb_lt; lia).
    rewrite E, orb_true_r. f_equal.
    pose proof (N.div_mod x 10). lia.
Qed.

Lemma chunk_pretty_go_app x : forall s r,
  pretty_N_go x s +:+ r = pretty_N_go x (s +:+ r).
Proof.
  induction (N.lt_wf_0 x) as [x _ IH]; intros s r.
  destruct (decide (x = 0%N)) as [->|Hx].
  - by rewrite !pretty_N_go_0.
  - rewrite (pretty_N_go_step x s), (pretty_N_go_step x (s +:+ r)) by lia.
    rewrite IH by (apply N.div_lt; lia). reflexivity.
Qed.

Lemma chunk_pretty_go_head x : forall s,
  (0 < x)%N -> exists d s', pretty_N_go x s = String (pretty_N_char d) s'.
Proof.
  induction (N.lt_wf_0 x) as [x _ IH]; intros s Hx.
  rewrite pretty_N_go_step by done.
  destruct (decide (x `div` 10 = 0)%N) as [E|E].
  - rewrite E, pretty_N_go_0. eauto.
  - apply IH; [apply N.div_lt; lia|by apply N.neq_0_lt_0].
Qed.

Lemma chunk_pretty_head (n : N) (rest : string) :
  exists d s', pretty n +:+ rest = String (pretty_N_char d) s'.
Proof.
  unfold pretty, pretty_N. destruct (decide (n = 0%N)) as [->|Hne].
  - by exists 0%N, rest.
  - rewrite chunk_pretty_go_app. change ("" +:+ rest) with rest.
    apply chunk_pretty_go_head. lia.
Qed.

Lemma chunk_read_pretty (n : N) (rest : string) :
  ChunkSize.ends_number rest ->
  ChunkSize.read_digits 0 false (pretty n +:+ rest) = Some n.
Proof.
  intros Hrest.
  assert (Htail : ChunkSize.read_digits n true rest = Some n).
  { destruct rest as [|c rest]; [done|]. simpl in *. by rewrite Hrest. }
  unfold pretty, pretty_N. destruct (decide (n = 0%N)) as [->|Hne].
  - change ("0" +:+ rest) with (String (pretty_N_char 0) rest).
    cbn [ChunkSize.read_digits]. rewrite chunk_digit_pretty by done.
    change (10 * 0 + 0)%N with 0%N. exact Htail.
  - rewrite chunk_pretty_go_app. change ("" +:+ rest) with rest.
    rewrite chunk_read_pretty_go.
    assert (Hpos : (0 <? n)%N = true) by (apply N.ltb_lt; lia).
    rewrite Hpos. exact Htail.
Qed.

Lemma chunk_stoull_pretty (n : N) (rest : string) :
  ChunkSize.ends_number rest ->
  ChunkSize.stoull (pretty n +:+ rest)
  = (if (n <? 2 ^ 64)%N then ChunkSize.value n else ChunkSize.out_of_range).
Proof.
  intros Hrest. pose proof (chunk_read_pretty n rest Hrest) as Hread.
  destruct (chunk_pretty_head n rest) as (d & s' & E). rewrite E in Hread |- *.
  destruct (chunk_pretty_char_plain d) as (Hsp & Hplus & Hminus & _).
  unfold ChunkSize.stoull. cbn [ChunkSize.skip_space]. rewrite Hsp, Hplus, Hminus.
  by rewrite Hread.
Qed.

Lemma chunk_stoull_minus (n : N) (rest : string) :
  ChunkSize.ends_number rest ->
  ChunkSize.stoull ("-" +:+ pretty n +:+ rest)
  = (if (n <? 2 ^ 64)%N then ChunkSize.value ((2 ^ 64 - n) mod 2 ^ 64)
     else ChunkSize.out_of_range).
Proof.
  intros Hrest. pose proof (chunk_read_pretty n rest Hrest) as Hread.
  change ("-" +:+ pretty n +:+ rest)
    with (String (Ascii.ascii_of_N 45) (pretty n +:+ rest)).
  unfold ChunkSize.stoull. cbn [ChunkSize.skip_space].
  change (ChunkSize.isspace (Ascii.ascii_of_N 45)) with false. cbn iota.
  change (Ascii.N_of_ascii (Ascii.ascii_of_N 45) =? 43)%N with false.
  change (Ascii.N_of_ascii (Ascii.ascii_of_N 45) =? 45)%N with true.
  cbn iota. by rewrite Hread.
Qed.

Lemma chunk_append_assoc (a b c : string) : a +:+ (b +:+ c) = (a +:+ b) +:+ c.
Proof.
  induction a as [|x a IH]; [done|].
  change (String x (a +:+ (b +:+ c)) = String x ((a +:+ b) +:+ c)). by f_equal.
Qed.

Lemma chunk_length_app (a b : string) :
  String.length (a +:+ b) = (String.length a + String.length b)%nat.
Proof.
  induction a as [|x a IH]; [done|].
  change (S (String.length (a +:+ b)) = S (String.length a + String.length b)).
  by f_equal.
Qed.

Lemma chunk_substr_app (pre s : string) :
  ChunkSize.substr (String.length pre) (pre +:+ s) = s.
Proof.
  induction pre as [|c pre IH]; [by destruct s|].
  change (ChunkSize.substr (String.length pre) (pre +:+ s) = s). done.
Qed.

Lemma chunk_size_after (pre t : string) :
  ChunkSize.find "size=" (pre +:+ "size=" +:+ t) = Some (String.length pre) ->
  ChunkSize.chunk_size (pre +:+ "size=" +:+ t) = ChunkSize.stoull t.
Proof.
  intros Hfind. unfold ChunkSize.chunk_size. rewrite Hfind.
  rewrite (chunk_append_assoc pre "size=" t).
  replace (String.length pre + 5)%nat with (String.length (pre +:+ "size="))
    by (by rewrite chunk_length_app).
  by rewrite chunk_substr_app.
Qed.

(** X24: the chunk size a handler reads is the number the page wrote.  When
    the first [size=] of the URL is followed by the decimal numeral of [n]
    and then by the end of the URL or by a character that is not a digit,
    the handler gets [n] if [n] is below 2^64, and [std::stoull] throws
    [std::out_of_range] otherwise. *)
Theorem chunk_size_reads_what_the_page_sent :
  forall (pre rest : string) (n : N),
    ChunkSize.ends_number rest ->
    ChunkSize.find "size=" (pre +:+ "size=" +:+ pretty n +:+ rest)
    = Some (String.length pre) ->
    ChunkSize.chunk_size (pre +:+ "size=" +:+ pretty n +:+ rest)
    = (if (n <? 2 ^ 64)%N then ChunkSize.value n else ChunkSize.out_of_range).
Proof.
  intros pre rest n Hrest Hfind.
  rewrite chunk_size_after by done. by apply chunk_stoull_pretty.
Qed.

Lemma chunk_size_reads_what_the_page_sent_witness :
  ChunkSize.chunk_size "stream://localhost/data?size=16384&x=1" = ChunkSize.value 16384.
Proof.
  apply (chunk_size_reads_what_the_page_sent "stream://localhost/data?" "&x=1" 16384).
  - vm_compute; reflexivity.
  - vm_compute; reflexivity.
Defined.

(** X25: what the handlers read when the URL carries no plain number.  With
    no [size=] in the URL the chunk size is 4096.  When [size=] is followed
    by nothing, or by a character that is neither white space, a sign nor a
    digit, [std::stoull] throws [std::invalid_argument].  When it is
    followed by a minus sign and the numeral of [n], with [n] between 1 and
    2^64 - 1, the chunk size is 2^64 - [n]: the negation wraps around in the
    unsigned type. *)
Theorem chunk_size_without_a_number :
  (forall raw : string,
      ChunkSize.find "size=" raw = None ->
      ChunkSize.chunk_size raw = ChunkSize.value 4096) /\
  (forall (pre t : string),
      ChunkSize.find "size=" (pre +:+ "size=" +:+ t) = Some (String.length pre) ->
      match t with
      | EmptyString => True
      | String c _ =>
          ChunkSize.isspace c = false /\ ChunkSize.digit c = None /\
          Ascii.N_of_ascii c <> 43%N /\ Ascii.N_of_ascii c <> 45%N
      end ->
      ChunkSize.chunk_size (pre +:+ "size=" +:+ t) = ChunkSize.invalid_argument) /\
  (forall (pre rest : string) (n : N),
      (0 < n < 2 ^ 64)%N -> ChunkSize.ends_number rest ->
      ChunkSize.find "size=" (pre +:+ "size=" +:+ "-" +:+ pretty n +:+ rest)
      = Some (String.length pre) ->
      ChunkSize.chunk_size (pre +:+ "size=" +:+ "-" +:+ pretty n +:+ rest)
      = ChunkSize.value (2 ^ 64 - n)).
Proof.
  split; [|split].
  - intros raw H. unfold ChunkSize.chunk_size. by rewrite H.
  - intros pre t Hfind Ht. rewrite chunk_size_after by done.
    unfold ChunkSize.stoull. destruct t as [|c t]; [done|].
    destruct Ht as (Hsp & Hd & Hplus & Hminus).
    cbn [ChunkSize.skip_space]. rewrite Hsp.
    apply N.eqb_neq in Hplus, Hminus. rewrite Hplus, Hminus.
    cbn [ChunkSize.read_digits]. by rewrite Hd.
  - intros pre rest n [Hpos Hn] Hrest Hfind. rewrite chunk_size_after by done.
    rewrite chunk_stoull_minus by done.
    assert (Hlt : (n <? 2 ^ 64)%N = true) by (by apply N.ltb_lt).
    rewrite Hlt. f_equal. apply N.mod_small. lia.
Qed.

Lemma chunk_size_without_a_number_witness :
  ChunkSize.chunk_size "stream://localhost/data" = ChunkSize.value 4096 /\
  ChunkSize.chunk_size "stream://localhost/data?size=big" = ChunkSize.invalid_argument /\
  ChunkSize.chunk_size "stream://localhost/data?size=-1"
  = ChunkSize.value 18446744073709551615.
Proof.
  destruct chunk_size_without_a_number as (A & B & C).
  split; [|split].
  - apply A. vm_compute; reflexivity.
  - apply (B "stream://localhost/data?" "big").
    + vm_compute; reflexivity.
    + vm_compute. repeat split; discriminate.
  - apply (C "stream://localhost/data?" "" 1%N).
    + lia.
    + vm_compute; reflexivity.
    + vm_compute; reflexivity.
Defined.
